(** * Shallow embedding of the votingSim election core (election/system.py,
    election/fairness.py, election/utils.py) and proofs of its specification. *)

From Stdlib Require Import List Arith Lia ZArith QArith Bool Permutation.
From Stdlib Require Import Relations ListDec Lqa.
From Equations Require Import Equations.
Import ListNotations.
Open Scope nat_scope.

(** ** Data model *)

(** Candidates are opaque, totally ordered identifiers; we use [nat]. *)
Definition cand := nat.
(** A ballot is a Python list of candidates, most preferred first. *)
Definition ballot := list cand.

(** Python exceptions the core can raise. *)
Inductive exn := ValueError | IndexError | KeyError | TypeError | ZeroDivisionError.

(** A Python call either returns a value or raises. *)
Inductive res (A : Type) : Type :=
| Ok (a : A)
| Err (e : exn).
Arguments Ok {A} a.
Arguments Err {A} e.

Definition bind {A B} (m : res A) (k : A -> res B) : res B :=
  match m with Ok a => k a | Err e => Err e end.
Notation "x <- m ;; k" := (bind m (fun x => k))
  (at level 61, m at next level, right associativity).

Definition memb (x : cand) (l : list cand) : bool := existsb (Nat.eqb x) l.

(** [l[0]] *)
Definition head0 {A} (l : list A) : res A :=
  match l with x :: _ => Ok x | [] => Err IndexError end.

(** [l.index(x)]: first position of [x], ValueError when absent. *)
Fixpoint index (l : list cand) (x : cand) : res nat :=
  match l with
  | [] => Err ValueError
  | y :: r => if Nat.eqb y x then Ok 0 else (i <- index r x ;; Ok (S i))
  end.

(** ** Insertion-ordered dicts (Python dict / Counter / defaultdict) *)

(** [d[k] += v] on a dict with default value 0 (Counter, defaultdict(int)):
    a missing key is appended at the end, keeping insertion order. *)
Fixpoint dict_add {V} (add : V -> V -> V) (zero : V)
    (d : list (cand * V)) (k : cand) (v : V) : list (cand * V) :=
  match d with
  | [] => [(k, add zero v)]
  | (k', v') :: r =>
      if Nat.eqb k' k then (k', add v' v) :: r
      else (k', v') :: dict_add add zero r k v
  end.

(** [max(d, key=d.get)]: the first key of maximal value; ValueError on an
    empty dict. Python's max only replaces its candidate on a strictly
    greater value. *)
Definition max_key {V} (lt : V -> V -> bool) (d : list (cand * V)) : res cand :=
  match d with
  | [] => Err ValueError
  | (k, v) :: r =>
      Ok (fst (fold_left (fun acc kv => if lt (snd acc) (snd kv) then kv else acc)
                 r (k, v)))
  end.

(** [min(d, key=d.get)]: the first key of minimal value. *)
Definition min_key {V} (lt : V -> V -> bool) (d : list (cand * V)) : res cand :=
  match d with
  | [] => Err ValueError
  | (k, v) :: r =>
      Ok (fst (fold_left (fun acc kv => if lt (snd kv) (snd acc) then kv else acc)
                 r (k, v)))
  end.

(** ** election/utils.py *)

Fixpoint first_choices (ballots : list ballot) : res (list cand) :=
  match ballots with
  | [] => Ok []
  | b :: r => c <- head0 b ;; cs <- first_choices r ;; Ok (c :: cs)
  end.

(** [Counter(first_choices)]: counts in first-occurrence order. *)
Definition count_first_choices (ballots : list ballot) : res (list (cand * nat)) :=
  cs <- first_choices ballots ;;
  Ok (fold_left (fun d c => dict_add Nat.add 0 d c 1) cs []).

Definition remove_candidate (ballots : list ballot) (candidate : cand) : list ballot :=
  map (fun b => filter (fun c => negb (Nat.eqb c candidate)) b) ballots.

(** ** election/system.py: plurality, Borda, IRV *)

Definition plurality_winner (ballots : list ballot) : res (option cand) :=
  tally <- count_first_choices ballots ;;
  w <- max_key Nat.ltb tally ;;
  Ok (Some w).

(** The Borda score loop: [scores[candidate] += num_candidates - rank - 1]. *)
Fixpoint borda_ballot (m : Z) (rank : Z) (b : ballot) (scores : list (cand * Z))
  : list (cand * Z) :=
  match b with
  | [] => scores
  | c :: r => borda_ballot m (rank + 1)%Z r (dict_add Z.add 0%Z scores c (m - rank - 1)%Z)
  end.

Definition borda_scores (ballots : list ballot) : res (list (cand * Z)) :=
  b0 <- head0 ballots ;;
  let num_candidates := Z.of_nat (length b0) in
  Ok (fold_left (fun s b => borda_ballot num_candidates 0%Z b s) ballots []).

Definition borda_winner (ballots : list ballot) : res (option cand) :=
  scores <- borda_scores ballots ;;
  w <- max_key Z.ltb scores ;;
  Ok (Some w).

(** [sum(scores.values())] *)
Definition sum_scores (d : list (cand * Z)) : Z :=
  fold_right (fun kv s => (snd kv + s)%Z) 0%Z d.

Definition sum_values (d : list (cand * nat)) : nat := fold_right (fun kv s => snd kv + s) 0 d.

(** One iteration of the [while True] loop of [irv_winner]: either the loop
    returns ([inl]) or it continues with the pruned ballots ([inr]).
    [votes > total_votes / 2] is compared exactly as [2 * votes > total_votes]. *)
Definition irv_round (ballots_copy : list ballot)
  : res (option cand + list ballot) :=
  tally <- count_first_choices ballots_copy ;;
  let total_votes := sum_values tally in
  match find (fun kv => Nat.ltb total_votes (2 * snd kv)) tally with
  | Some (candidate, _) => Ok (inl (Some candidate))
  | None =>
      lowest <- min_key Nat.ltb tally ;;
      let ballots_copy' := remove_candidate ballots_copy lowest in
      b0 <- head0 ballots_copy' ;;
      if Nat.eqb (length b0) 1 then (c <- head0 b0 ;; Ok (inl (Some c)))
      else Ok (inr ballots_copy')
  end.

(** Runs at most [rounds] iterations of the loop; [None] when the loop is
    still running after them. *)
Fixpoint irv_loop (rounds : nat) (ballots_copy : list ballot)
  : option (res (option cand)) :=
  match rounds with
  | 0 => None
  | S k =>
      match irv_round ballots_copy with
      | Err e => Some (Err e)
      | Ok (inl w) => Some (Ok w)
      | Ok (inr b') => irv_loop k b'
      end
  end.

Definition total_len (ballots : list ballot) : nat :=
  fold_right (fun b s => length b + s) 0 ballots.

(** [irv_winner]: every round removes a first choice from the ballots, so the
    loop ends within [total_len ballots + 1] rounds (lemma [irv_loop_ends]
    below); the [None] branch is therefore never taken. *)
Definition irv_winner (ballots : list ballot) : res (option cand) :=
  match irv_loop (S (total_len ballots)) ballots with
  | Some r => r
  | None => Err ValueError
  end.

(** ** Head-to-head tallies: dicts keyed by ordered pairs *)

(** A dict keyed by ordered candidate pairs: its keys and its values. *)
Record pdict := { pd_keys : list (cand * cand); pd_val : cand -> cand -> nat }.

Definition pair_eqb (p q : cand * cand) : bool :=
  Nat.eqb (fst p) (fst q) && Nat.eqb (snd p) (snd q).

Definition pd_mem (d : pdict) (a b : cand) : bool := existsb (pair_eqb (a, b)) (pd_keys d).

Definition pd_empty : pdict := {| pd_keys := []; pd_val := fun _ _ => 0 |}.

(** [{(a,b): 0 for a in candidates for b in candidates if a != b}] *)
Definition pd_init (candidates : list cand) : pdict :=
  {| pd_keys := flat_map (fun a => flat_map (fun b => if Nat.eqb a b then [] else [(a, b)])
                                    candidates) candidates;
     pd_val := fun _ _ => 0 |}.

(** [d[(a,b)] += 1]: KeyError when [(a,b)] is not a key. *)
Definition pd_incr (d : pdict) (a b : cand) : res pdict :=
  if pd_mem d a b then
    Ok {| pd_keys := pd_keys d;
          pd_val := fun x y => if Nat.eqb x a && Nat.eqb y b then S (pd_val d x y)
                               else pd_val d x y |}
  else Err KeyError.

(** [d.get((a,b), dflt)] *)
Definition pd_get (d : pdict) (a b : cand) (dflt : nat) : nat :=
  if pd_mem d a b then pd_val d a b else dflt.

(** [d[(a,b)]] *)
Definition pd_getitem (d : pdict) (a b : cand) : res nat :=
  if pd_mem d a b then Ok (pd_val d a b) else Err KeyError.

(** [for b in ballot[i+1:]: d[(a,b)] += 1] *)
Fixpoint tally_after (d : pdict) (a : cand) (rest : list cand) : res pdict :=
  match rest with
  | [] => Ok d
  | b :: r => d' <- pd_incr d a b ;; tally_after d' a r
  end.

(** [for i, a in enumerate(ballot): for b in ballot[i+1:]: d[(a,b)] += 1] *)
Fixpoint tally_ballot (d : pdict) (bal : ballot) : res pdict :=
  match bal with
  | [] => Ok d
  | a :: r => d' <- tally_after d a r ;; tally_ballot d' r
  end.

(** [for ballot in ballots: ...] (the same loop in [pairwise_matrix] and in
    [ranked_pairs_winner]). *)
Fixpoint tally_ballots (d : pdict) (ballots : list ballot) : res pdict :=
  match ballots with
  | [] => Ok d
  | b :: r => d' <- tally_ballot d b ;; tally_ballots d' r
  end.

(** ** election/fairness.py: pairwise matrix and Condorcet winner *)

Definition pairwise_matrix (ballots : list ballot) : res pdict :=
  match ballots with
  | [] => Ok pd_empty
  | candidates :: _ => tally_ballots (pd_init candidates) ballots
  end.

Fixpoint insert_nat (x : nat) (l : list nat) : list nat :=
  match l with
  | [] => [x]
  | y :: r => if Nat.leb x y then x :: l else y :: insert_nat x r
  end.

(** [sorted(...)] on candidate identifiers. *)
Definition sort_nat (l : list nat) : list nat := fold_right insert_nat [] l.

Definition beats_all (matrix : pdict) (candidates : list cand) (c : cand) : bool :=
  forallb (fun other => Nat.eqb c other ||
             Nat.ltb (pd_get matrix other c 0) (pd_get matrix c other 0)) candidates.

Definition find_condorcet_winner (ballots : list ballot) : res (option cand) :=
  matrix <- pairwise_matrix ballots ;;
  match pd_keys matrix with
  | [] => Ok None
  | _ :: _ =>
      let candidates :=
        sort_nat (nodup Nat.eq_dec (flat_map (fun p => [fst p; snd p]) (pd_keys matrix))) in
      Ok (find (beats_all matrix candidates) candidates)
  end.

(** ** election/system.py: Ranked Pairs *)

(** [pairs]: [(a, b, margin)] for every ordered pair that [a] wins. *)
Definition victories (candidates : list cand) (pairwise : pdict) : list (cand * cand * nat) :=
  flat_map (fun a => flat_map (fun b =>
    if Nat.eqb a b then []
    else let a_over_b := pd_get pairwise a b 0 in
         let b_over_a := pd_get pairwise b a 0 in
         if Nat.ltb b_over_a a_over_b then [(a, b, a_over_b - b_over_a)] else [])
    candidates) candidates.

Definition margin (e : cand * cand * nat) : nat := snd e.

(** One step of a stable insertion sort on [key = -margin]. *)
Fixpoint insert_pair (e : cand * cand * nat) (l : list (cand * cand * nat))
  : list (cand * cand * nat) :=
  match l with
  | [] => [e]
  | e' :: r => if Nat.ltb (margin e') (margin e) then e :: l else e' :: insert_pair e r
  end.

(** [pairs.sort(key=lambda x: -x[2])]: Python's sort is stable. *)
Definition sort_pairs (pairs : list (cand * cand * nat)) : list (cand * cand * nat) :=
  fold_left (fun acc e => insert_pair e acc) pairs [].

(** The locked graph [{c: set() for c in candidates}], in key order; a set
    is a duplicate-free list. The result of every use below is independent of
    the order in which a set is iterated. *)
Definition graph := list (cand * list cand).

(** Dict comprehension keys: first occurrences, in order. *)
Definition dedup_first (l : list cand) : list cand :=
  fold_left (fun acc c => if memb c acc then acc else acc ++ [c]) l [].

Definition init_locked (candidates : list cand) : graph :=
  map (fun c => (c, [])) (dedup_first candidates).

(** [graph[node]]. Every node looked up by [ranked_pairs_winner] is a key of
    the graph (all nodes are candidates), so the KeyError branch of Python is
    never reached and is represented by the empty set. *)
Definition succs (g : graph) (node : cand) : list cand :=
  match find (fun kv => Nat.eqb (fst kv) node) g with
  | Some (_, s) => s
  | None => []
  end.

Definition set_add (x : cand) (s : list cand) : list cand :=
  if memb x s then s else s ++ [x].

(** [locked[winner].add(loser)] *)
Definition lock (g : graph) (winner loser : cand) : graph :=
  map (fun kv => if Nat.eqb (fst kv) winner then (fst kv, set_add loser (snd kv)) else kv) g.

(** *** [creates_cycle]: the depth-first search of the locked graph *)

(** Termination measure of the search loop: the distinct nodes, among the
    stack and all successor sets, that are not yet visited; then the visited
    nodes still on the stack. *)
Definition all_succs (g : graph) : list cand := flat_map snd g.

Definition unvisited (visited l : list cand) : list cand :=
  nodup Nat.eq_dec (filter (fun x => negb (memb x visited)) l).

Definition dfs_measure (g : graph) (stack visited : list cand) : nat * nat :=
  (length (unvisited visited (stack ++ all_succs g)),
   length (filter (fun x => memb x visited) stack)).

Definition lex_lt (p q : nat * nat) : Prop :=
  fst p < fst q \/ (fst p = fst q /\ snd p < snd q).

Lemma lex_lt_wf : well_founded lex_lt.
Proof.
  intros [a b]. revert b.
  induction a as [a IHa] using lt_wf_ind. intros b.
  induction b as [b IHb] using lt_wf_ind.
  constructor. intros [a' b'] [H | [H1 H2]]; simpl in *.
  - apply IHa; auto.
  - subst. apply IHb; auto.
Qed.

(** The well-foundedness proof is guarded by [Acc_intro_generator] so that
    the search computes on concrete graphs. *)
#[local] Instance lex_lt_WF : WellFounded lex_lt := Acc_intro_generator 10 lex_lt_wf.

Lemma memb_In (x : cand) (l : list cand) : memb x l = true <-> In x l.
Proof.
  unfold memb. rewrite existsb_exists. split.
  - intros [y [Hy Hxy]]. apply Nat.eqb_eq in Hxy. subst. exact Hy.
  - intros H. exists x. split; [exact H | apply Nat.eqb_refl].
Qed.

Lemma memb_false (x : cand) (l : list cand) : memb x l = false <-> ~ In x l.
Proof.
  rewrite <- memb_In. destruct (memb x l); split; congruence.
Qed.

Lemma In_unvisited (x : cand) (V l : list cand) :
  In x (unvisited V l) <-> In x l /\ ~ In x V.
Proof.
  unfold unvisited. rewrite nodup_In, filter_In, negb_true_iff, memb_false. tauto.
Qed.

Lemma unvisited_le (V V' A B : list cand) :
  (forall x, In x A -> ~ In x V' -> In x B /\ ~ In x V) ->
  length (unvisited V' A) <= length (unvisited V B).
Proof.
  intros H. apply NoDup_incl_length; [apply NoDup_nodup |].
  intros x Hx. apply In_unvisited in Hx. apply In_unvisited. apply H; tauto.
Qed.

Lemma unvisited_lt (V V' A B : list cand) (y : cand) :
  (forall x, In x A -> ~ In x V' -> In x B /\ ~ In x V) ->
  In y B -> ~ In y V -> In y V' ->
  length (unvisited V' A) < length (unvisited V B).
Proof.
  intros H HyB HyV HyV'.
  apply Nat.le_lt_trans with (length (remove Nat.eq_dec y (unvisited V B))).
  - apply NoDup_incl_length; [apply NoDup_nodup |].
    intros x Hx. apply In_unvisited in Hx as [HxA HxV'].
    apply in_in_remove; [intros ->; contradiction |].
    apply In_unvisited. apply H; assumption.
  - apply remove_length_lt. apply In_unvisited. split; assumption.
Qed.

Lemma succs_all (g : graph) (n x : cand) : In x (succs g n) -> In x (all_succs g).
Proof.
  unfold succs, all_succs.
  destruct (find (fun kv => Nat.eqb (fst kv) n) g) as [[k s] |] eqn:E; [| intros []].
  intros Hx. apply find_some in E as [E _]. apply in_flat_map. exists (k, s). auto.
Qed.

Lemma set_add_In (x y : cand) (s : list cand) : In y (set_add x s) <-> y = x \/ In y s.
Proof.
  unfold set_add. destruct (memb x s) eqn:E.
  - apply memb_In in E. split; [tauto |]. intros [-> | H]; assumption.
  - rewrite in_app_iff. simpl. split; intros [H | H]; try tauto; intuition.
Qed.

Lemma filter_none {A} (f : A -> bool) (l : list A) :
  (forall x, In x l -> f x = false) -> filter f l = [].
Proof.
  induction l as [| a l IH]; intros H; simpl; [reflexivity |].
  rewrite (H a (or_introl eq_refl)). apply IH. intros x Hx. apply H. right. exact Hx.
Qed.

(** [creates_cycle(start, end, graph)]: the [while stack] loop. The stack is
    kept with its top first: [stack.pop()] takes the head, and the successors
    appended in order by [stack.append] go in front in reverse order. *)
Equations? cc_loop (start : cand) (g : graph) (stack visited : list cand) : bool
  by wf (dfs_measure g stack visited) lex_lt :=
  cc_loop start g [] visited := false;
  cc_loop start g (node :: rest) visited with Nat.eqb node start => {
    | true := true;
    | false :=
        cc_loop start g
          (rev (filter (fun nxt => negb (memb nxt (set_add node visited))) (succs g node))
           ++ rest)
          (set_add node visited) }.
Proof.
  unfold dfs_measure, lex_lt; simpl.
  set (P := fun nxt => negb (memb nxt (set_add node visited))).
  assert (Hstep : forall x, In x (rev (filter P (succs g node)) ++ rest ++ all_succs g) ->
                  ~ In x (set_add node visited) ->
                  In x ((node :: rest) ++ all_succs g) /\ ~ In x visited).
  { intros x Hx Hn. rewrite set_add_In in Hn. split; [| tauto].
    rewrite in_app_iff, <- in_rev, filter_In in Hx. simpl. rewrite in_app_iff.
    destruct Hx as [[Hx _] | Hx]; [right; right; eapply succs_all; eauto |].
    rewrite in_app_iff in Hx. tauto. }
  rewrite <- app_assoc.
  destruct (memb node visited) eqn:Hm.
  - assert (Hv : set_add node visited = visited) by (unfold set_add; rewrite Hm; reflexivity).
    pose proof (unvisited_le visited (set_add node visited) _ _ Hstep) as Hle.
    rewrite Hv in *. rewrite filter_app.
    assert (Hz : filter (fun x => memb x visited) (rev (filter P (succs g node))) = []).
    { apply filter_none. intros x Hx. rewrite <- in_rev, filter_In in Hx.
      destruct Hx as [_ Hx]. unfold P in Hx. rewrite Hv in Hx.
      destruct (memb x visited); [discriminate | reflexivity]. }
    rewrite Hz. simpl. apply Nat.le_lteq in Hle as [Hlt | Heq]; [left; exact Hlt |].
    right. split; [exact Heq | lia].
  - left. apply (unvisited_lt visited (set_add node visited) _ _ node Hstep).
    + simpl. left. reflexivity.
    + apply memb_false. exact Hm.
    + apply set_add_In. left. reflexivity.
Qed.

Definition creates_cycle (start end_ : cand) (g : graph) : bool :=
  cc_loop start g [end_] [].

(** [for winner, loser, margin in pairs: if not creates_cycle(...): lock] *)
Definition lock_pairs (pairs : list (cand * cand * nat)) (g : graph) : graph :=
  fold_left (fun g e => match e with
                        | (winner, loser, _) =>
                            if creates_cycle winner loser g then g else lock g winner loser
                        end) pairs g.

(** [incoming[b] += 1] for every locked edge [a -> b]; every [b] is a
    candidate, so the Python KeyError branch is never reached. *)
Definition count_incoming (locked : graph) : cand -> nat :=
  fold_left (fun inc kv =>
               fold_left (fun inc b => fun x => if Nat.eqb x b then S (inc x) else inc x)
                 (snd kv) inc)
            locked (fun _ => 0).

(** Pairwise tally, victories, and their sort by decreasing margin. *)
Definition ranked_pairs_pairs (candidates : list cand) (ballots : list ballot)
  : res (list (cand * cand * nat)) :=
  pairwise <- tally_ballots (pd_init candidates) ballots ;;
  Ok (sort_pairs (victories candidates pairwise)).

Definition ranked_pairs_winner (ballots : list ballot) : res (option cand) :=
  match ballots with
  | [] => Ok None
  | candidates :: _ =>
      pairs <- ranked_pairs_pairs candidates ballots ;;
      let locked := lock_pairs pairs (init_locked candidates) in
      let incoming := count_incoming locked in
      let zero_in := filter (fun c => Nat.eqb (incoming c) 0) (dedup_first candidates) in
      Ok (head zero_in)
  end.

(** ** election/fairness.py: satisfaction score and Condorcet compliance *)

(** The [for b in ballots] loop of [satisfaction_score]:
    [total += (n - 1 - rank) / (n - 1)], a true division of ints that raises
    ZeroDivisionError when [n - 1 = 0]. *)
Fixpoint satisfaction_total (n : Z) (winner : cand) (ballots : list ballot) (total : Q)
  : res Q :=
  match ballots with
  | [] => Ok total
  | b :: r =>
      rank <- index b winner ;;
      if Z.eqb (n - 1) 0 then Err ZeroDivisionError
      else satisfaction_total n winner r
             (total + inject_Z (n - 1 - Z.of_nat rank) / inject_Z (n - 1))%Q
  end.

Definition satisfaction_score (system_func : list ballot -> res (option cand))
    (ballots : list ballot) : res Q :=
  match ballots with
  | [] => Ok 0%Q
  | b0 :: _ =>
      winner <- system_func ballots ;;
      match winner with
      | None => Ok 0%Q
      | Some w =>
          let n := Z.of_nat (length b0) in
          total <- satisfaction_total n w ballots 0%Q ;;
          Ok (total / inject_Z (Z.of_nat (length ballots)))%Q
      end
  end.

(** [cw == winner] *)
Definition opt_eqb (a b : option cand) : bool :=
  match a, b with
  | Some x, Some y => Nat.eqb x y
  | None, None => true
  | _, _ => false
  end.

Definition condorcet_compliance (system_func : list ballot -> res (option cand))
    (ballots : list ballot) : res (option bool) :=
  cw <- find_condorcet_winner ballots ;;
  match cw with
  | None => Ok None
  | Some c => winner <- system_func ballots ;; Ok (Some (opt_eqb (Some c) winner))
  end.

(** ** election/evolve.py: positional scoring rules *)

(** [weights[rank] if rank < len(weights) else 0] *)
Definition weight_at (weights : list Z) (rank : nat) : Z :=
  match nth_error weights rank with Some v => v | None => 0%Z end.

(** [scores[cand] += val] on a plain dict: KeyError when [cand] is not a key. *)
Fixpoint dict_incr (d : list (cand * Z)) (k : cand) (v : Z) : res (list (cand * Z)) :=
  match d with
  | [] => Err KeyError
  | (k', v') :: r =>
      if Nat.eqb k' k then Ok ((k', v' + v)%Z :: r)
      else (r' <- dict_incr r k v ;; Ok ((k', v') :: r'))
  end.

(** [for rank, cand in enumerate(ballot): ...], from position [rank] on. *)
Fixpoint apply_ballot (weights : list Z) (rank : nat) (bal : ballot)
    (scores : list (cand * Z)) : res (list (cand * Z)) :=
  match bal with
  | [] => Ok scores
  | c :: r => s <- dict_incr scores c (weight_at weights rank) ;; apply_ballot weights (S rank) r s
  end.

(** [for ballot in ballots: ...] *)
Fixpoint apply_ballots (weights : list Z) (ballots : list ballot)
    (scores : list (cand * Z)) : res (list (cand * Z)) :=
  match ballots with
  | [] => Ok scores
  | b :: r => s <- apply_ballot weights 0 b scores ;; apply_ballots weights r s
  end.

(** [scores = {c: 0 for c in ballots[0]}], then the loops and
    [max(scores, key=scores.get)]. *)
Definition apply_rule (ballots : list ballot) (weights : list Z) : res (option cand) :=
  match ballots with
  | [] => Ok None
  | b0 :: _ =>
      scores <- apply_ballots weights ballots (map (fun c => (c, 0%Z)) (dedup_first b0)) ;;
      w <- max_key Z.ltb scores ;;
      Ok (Some w)
  end.

(** The Borda count as a weight vector, [[m-1, m-2, ..., 0]]. *)
Definition borda_weights (m : nat) : list Z :=
  map (fun i => Z.of_nat (m - 1 - i)) (seq 0 m).

(** ** election/evolve.py: the genetic algorithm's operators *)

(** [l.sort(reverse=True)] on ints: the nonincreasing rearrangement of [l]
    (for ints, the stability of Python's sort is not observable). *)
Fixpoint insert_desc (x : Z) (l : list Z) : list Z :=
  match l with
  | [] => [x]
  | y :: r => if Z.leb y x then x :: l else y :: insert_desc x r
  end.

Definition sort_desc (l : list Z) : list Z := fold_right insert_desc [] l.

(** [random_rule]: [randint i] is the value of [random.randint(0, max_weight)]
    drawn for position [i]. *)
Definition random_rule (num_candidates : nat) (randint : nat -> Z) : list Z :=
  sort_desc (map randint (seq 0 num_candidates)).

(** The loop of [mutate_rule] from index [i]: [u i] is the value of
    [random.random()] drawn for index [i] and [pick i] the index drawn by
    [random.choice] among the five steps. *)
Fixpoint mutate_from (mutation_rate : Q) (max_step : Z) (u : nat -> Q) (pick : nat -> nat)
    (i : nat) (child : list Z) : list Z :=
  match child with
  | [] => []
  | x :: r =>
      (if negb (Qle_bool mutation_rate (u i))
       then Z.max 0 (x + nth (pick i mod 5) [(- max_step)%Z; (-1)%Z; 0%Z; 1%Z; max_step] 0)
       else x)%Z :: mutate_from mutation_rate max_step u pick (S i) r
  end.

Definition mutate_rule (rule : list Z) (mutation_rate : Q) (max_step : Z)
    (u : nat -> Q) (pick : nat -> nat) : list Z :=
  sort_desc (mutate_from mutation_rate max_step u pick 0 rule).

(** [crossover]: [pt] is the value of [random.randint(1, n - 1)], drawn
    only when [n > 1]. *)
Definition crossover (parent_a parent_b : list Z) (pt : nat) : list Z :=
  let n := length parent_a in
  if Nat.leb n 1 then parent_a
  else sort_desc (firstn pt parent_a ++ skipn pt parent_b).

(** The random draws of one iteration of the reproduction loop. *)
Record ga_draws := {
  choice_a : nat;          (* random.choice(parents) for a: an index *)
  choice_b : nat;          (* random.choice(parents) for b *)
  cut : nat;               (* random.randint(1, n - 1) in crossover *)
  coins : nat -> Q;        (* random.random() in mutate_rule *)
  steps : nat -> nat       (* random.choice of a step in mutate_rule *)
}.

(** The [while len(new_pop) < population_size] loop of [evolve_rules]
    ([mutate_rule] with its default [max_step = 2]); [draws it] are the
    draws of the iteration that appends rule number [it]; at most [fuel]
    iterations. *)
Fixpoint reproduce_loop (parents : list (list Z)) (population_size : nat)
    (mutation_rate : Q) (draws : nat -> ga_draws) (fuel : nat) (new_pop : list (list Z))
  : list (list Z) :=
  match fuel with
  | 0 => new_pop
  | S fuel =>
      if Nat.ltb (length new_pop) population_size then
        let d := draws (length new_pop) in
        let a := nth (choice_a d mod length parents) parents [] in
        let b := nth (choice_b d mod length parents) parents [] in
        let child := crossover a b (cut d) in
        let child := mutate_rule child mutation_rate 2 (coins d) (steps d) in
        reproduce_loop parents population_size mutation_rate draws fuel (new_pop ++ [child])
      else new_pop
  end.

(** [new_pop = parents[:]] and the loop; it appends one rule per
    iteration, so [population_size] iterations suffice. *)
Definition reproduce (parents : list (list Z)) (population_size : nat) (mutation_rate : Q)
    (draws : nat -> ga_draws) : list (list Z) :=
  reproduce_loop parents population_size mutation_rate draws population_size parents.

(** ** election/generate.py *)

(** Candidate ["C" ++ i] is represented by [i]. [sample v candidates] is
    the list returned by [random.sample(candidates, len(candidates))] for
    voter [v]. *)
Definition generate_election (sample : nat -> list cand -> list cand)
    (num_voters num_candidates : nat) : list ballot :=
  let candidates := seq 1 num_candidates in
  map (fun v => sample v candidates) (seq 0 num_voters).

(** ** Python objects: the BallotSet as the caller holds it *)

(** The functions receive the BallotSet by reference. The objects are
    modelled as a heap of Python lists: a slot holds a candidate (an
    immutable int) or a reference to a list. *)
Inductive val := VCand (c : cand) | VRef (l : nat).

Record heap := mkHeap { hobj : nat -> option (list val); hnext : nat }.

(** A computation on the heap that may raise; the heap survives a raised
    exception. *)
Definition M (A : Type) : Type := heap -> res A * heap.

Definition ret {A} (a : A) : M A := fun h => (Ok a, h).
Definition lift {A} (r : res A) : M A := fun h => (r, h).
Definition mbind {A B} (m : M A) (k : A -> M B) : M B :=
  fun h => match m h with
           | (Ok a, h') => k a h'
           | (Err e, h') => (Err e, h')
           end.
Notation "x <-- m ;;; k" := (mbind m (fun x => k))
  (at level 61, m at next level, right associativity).

(** The list object at [l] (TypeError when [l] is not a list). *)
Definition getobj (l : nat) : M (list val) :=
  fun h => match hobj h l with Some vs => (Ok vs, h) | None => (Err TypeError, h) end.

(** A new list object. *)
Definition alloc (vs : list val) : M nat :=
  fun h => (Ok (hnext h),
            mkHeap (fun l => if Nat.eqb l (hnext h) then Some vs else hobj h l)
                   (S (hnext h))).

Fixpoint list_set {A} (l : list A) (i : nat) (v : A) : list A :=
  match l, i with
  | [], _ => []
  | _ :: r, 0 => v :: r
  | x :: r, S i => x :: list_set r i v
  end.

(** [lst[i] = v], IndexError out of range. *)
Definition setitem (l i : nat) (v : val) : M unit :=
  vs <-- getobj l ;;;
  if Nat.ltb i (length vs) then
    fun h => (Ok tt, mkHeap (fun l' => if Nat.eqb l' l then Some (list_set vs i v)
                                      else hobj h l') (hnext h))
  else lift (Err IndexError).

(** [lst[i]], IndexError out of range. *)
Definition getitem (vs : list val) (i : nat) : res val :=
  match nth_error vs i with Some v => Ok v | None => Err IndexError end.

Definition as_ref (v : val) : res nat :=
  match v with VRef l => Ok l | VCand _ => Err TypeError end.

Fixpoint cands_of (vs : list val) : option (list cand) :=
  match vs with
  | [] => Some []
  | VCand c :: r => option_map (cons c) (cands_of r)
  | VRef _ :: _ => None
  end.

(** The ballot a slot refers to, if it refers to a list of candidates. *)
Definition read_ballot (h : heap) (v : val) : option ballot :=
  match v with
  | VRef l => match hobj h l with Some vs => cands_of vs | None => None end
  | VCand _ => None
  end.

Fixpoint read_all (h : heap) (vs : list val) : option (list ballot) :=
  match vs with
  | [] => Some []
  | v :: r =>
      match read_ballot h v, read_all h r with
      | Some b, Some bs => Some (b :: bs)
      | _, _ => None
      end
  end.

(** The BallotSet the object at [root] holds, if it holds one. *)
Definition read_ballots (h : heap) (root : nat) : option (list ballot) :=
  match hobj h root with Some vs => read_all h vs | None => None end.

(** Iterating the BallotSet at [root] and its ballots. *)
Definition load (root : nat) : M (list ballot) :=
  fun h => match read_ballots h root with
           | Some bs => (Ok bs, h)
           | None => (Err TypeError, h)
           end.

(** A function that only reads its argument computes on its value. *)
Definition reader {A} (f : list ballot -> res A) (root : nat) : M A :=
  bs <-- load root ;;; lift (f bs).

Definition plurality_winner_h : nat -> M (option cand) := reader plurality_winner.
Definition borda_winner_h : nat -> M (option cand) := reader borda_winner.
Definition ranked_pairs_winner_h : nat -> M (option cand) := reader ranked_pairs_winner.
Definition pairwise_matrix_h : nat -> M pdict := reader pairwise_matrix.
Definition find_condorcet_winner_h : nat -> M (option cand) := reader find_condorcet_winner.
Definition satisfaction_score_h (system_func : list ballot -> res (option cand))
  : nat -> M Q := reader (satisfaction_score system_func).
Definition condorcet_compliance_h (system_func : list ballot -> res (option cand))
  : nat -> M (option bool) := reader (condorcet_compliance system_func).

(** [ballots.copy()]: a new outer list holding the same ballot objects. *)
Definition list_copy (root : nat) : M nat := vs <-- getobj root ;;; alloc vs.

(** [irv_winner] runs its loop on [ballots.copy()]; [remove_candidate]
    builds new lists and writes to no existing one. *)
Definition irv_winner_h (root : nat) : M (option cand) :=
  c <-- list_copy root ;;; reader irv_winner c.

(** [copy.deepcopy] of a list of ballots. The memo maps each ballot object
    already copied to its copy, so an object held in two slots is copied
    once; the candidates are ints, which are immutable and not copied. *)
Fixpoint deepcopy_items (vs : list val) (memo : list (nat * nat)) : M (list val) :=
  match vs with
  | [] => ret []
  | VCand c :: r => rest <-- deepcopy_items r memo ;;; ret (VCand c :: rest)
  | VRef l :: r =>
      match find (fun p => Nat.eqb (fst p) l) memo with
      | Some (_, l') => rest <-- deepcopy_items r memo ;;; ret (VRef l' :: rest)
      | None =>
          inner <-- getobj l ;;;
          l' <-- alloc inner ;;;
          rest <-- deepcopy_items r ((l, l') :: memo) ;;;
          ret (VRef l' :: rest)
      end
  end.

Definition deepcopy (root : nat) : M nat :=
  vs <-- getobj root ;;; items <-- deepcopy_items vs [] ;;; alloc items.

(** [[i for i, b in enumerate(b_copy) if b.index(original_winner) > 0]] *)
Fixpoint promotable (w : cand) (bs : list ballot) (i : nat) : res (list nat) :=
  match bs with
  | [] => Ok []
  | b :: r =>
      pos <- index b w ;;
      rest <- promotable w r (S i) ;;
      Ok (if Nat.ltb 0 pos then i :: rest else rest)
  end.

(** One iteration of the [for _ in range(trials)] loop of
    [monotonicity_violation_rate]; [random.choice(idxs)] draws
    [idxs[choice mod len(idxs)]]. [None]: the loop breaks; [Some v]: [v]
    tells whether a violation was counted. [b_copy[i]] is the same object at
    each of its four subscriptions, and [pos > 0] since [i] is in [idxs]. *)
Definition mono_trial (system_func : nat -> M (option cand)) (ballots : nat)
    (original_winner : cand) (choice : nat) : M (option bool) :=
  b_copy <-- deepcopy ballots ;;;
  bs <-- load b_copy ;;;
  idxs <-- lift (promotable original_winner bs 0) ;;;
  match idxs with
  | [] => ret None
  | _ :: _ =>
      let i := nth (choice mod length idxs) idxs 0 in
      row <-- getobj b_copy ;;;
      li <-- lift (v <- getitem row i ;; as_ref v) ;;;
      items <-- getobj li ;;;
      pos <-- lift (match cands_of items with
                    | Some b => index b original_winner
                    | None => Err TypeError
                    end) ;;;
      x <-- lift (getitem items (pos - 1)) ;;;
      y <-- lift (getitem items pos) ;;;
      _ <-- setitem li pos x ;;;
      _ <-- setitem li (pos - 1) y ;;;
      new_winner <-- system_func b_copy ;;;
      ret (Some (negb (opt_eqb new_winner (Some original_winner))))
  end.

(** The loop, from iteration [it] with [fuel] iterations left; it returns the
    violations counted and the iterations performed. [rand it] is the draw of
    iteration [it]. *)
Fixpoint mono_loop (system_func : nat -> M (option cand)) (rand : nat -> nat)
    (ballots : nat) (original_winner : cand) (it fuel violations : nat) : M (nat * nat) :=
  match fuel with
  | 0 => ret (violations, it)
  | S fuel =>
      r <-- mono_trial system_func ballots original_winner (rand it) ;;;
      match r with
      | None => ret (violations, it)
      | Some v =>
          mono_loop system_func rand ballots original_winner (S it) fuel
            (if v then S violations else violations)
      end
  end.

Definition monotonicity_violation_rate (system_func : nat -> M (option cand))
    (ballots : nat) (trials : Z) (rand : nat -> nat) : M Q :=
  vs <-- getobj ballots ;;;
  match vs with
  | [] => ret 0%Q
  | _ :: _ =>
      ow <-- system_func ballots ;;;
      match ow with
      | None => ret 0%Q
      | Some w =>
          p <-- mono_loop system_func rand ballots w 0 (Z.to_nat trials) 0 ;;;
          ret (inject_Z (Z.of_nat (fst p)) / inject_Z (Z.max 1 trials))%Q
      end
  end.

(** ** Frame conditions on the heap *)

(** [h'] holds the same objects as [h] at every location below [n]. *)
Definition agree (n : nat) (h h' : heap) : Prop :=
  forall l, l < n -> hobj h' l = hobj h l.

(** Run from [h] with [n <= hnext h], [m] leaves the objects below [n] as
    they were and only allocates upwards; if it returns [a], then [Q a]
    holds of the final heap. *)
Definition wp {A} (n : nat) (m : M A) (Q : A -> heap -> Prop) (h : heap) : Prop :=
  n <= hnext h ->
  let (r, h') := m h in
  agree n h h' /\ hnext h <= hnext h' /\ forall a, r = Ok a -> Q a h'.

(** Every object lies below [hnext] and refers only to objects below it. *)
Definition wf_heap (h : heap) : Prop :=
  forall l vs, hobj h l = Some vs -> l < hnext h /\ forall l', In (VRef l') vs -> l' < hnext h.

(** After a call [f ballots], the object [ballots] still holds the
    BallotSet it held before the call, raised exception or not. *)
Definition preserves {A} (f : nat -> M A) : Prop :=
  forall h ballots, wf_heap h -> ballots < hnext h ->
    read_ballots (snd (f ballots h)) ballots = read_ballots h ballots.

(** The BallotSet [[0, 1], [0, 1]] held at location 0. *)
Definition unanimous_heap : heap :=
  mkHeap (fun l => match l with
                   | 0 => Some [VRef 1; VRef 2]
                   | 1 => Some [VCand 0; VCand 1]
                   | 2 => Some [VCand 0; VCand 1]
                   | _ => None
                   end) 3.

(** ** Well-formed BallotSets *)

Fixpoint nodupb (l : list cand) : bool :=
  match l with [] => true | x :: r => negb (memb x r) && nodupb r end.

(** Every ballot is a duplicate-free ranking of exactly the candidates of
    the first ballot (spec section 3). *)
Definition well_formedb (ballots : list ballot) : bool :=
  match ballots with
  | [] => true
  | b0 :: _ =>
      forallb (fun b => Nat.eqb (length b) (length b0) && nodupb b &&
                        forallb (fun c => memb c b0) b) ballots
  end.

(** ** Specification predicates *)

(** Edges, paths and cycles of a locked graph. *)
Definition edge (g : graph) (a b : cand) : Prop := In b (succs g a).
Definition reach (g : graph) : cand -> cand -> Prop := clos_refl_trans cand (edge g).
Definition acyclic (g : graph) : Prop := forall c, ~ clos_trans cand (edge g) c c.

(** Number of times [a] is ranked above [b] on a ballot. *)
Fixpoint before (bal : ballot) (a b : cand) : nat :=
  match bal with
  | [] => 0
  | x :: r => (if Nat.eqb x a then count_occ Nat.eq_dec r b else 0) + before r a b
  end.

Definition before_all (ballots : list ballot) (a b : cand) : nat :=
  fold_right (fun bal s => before bal a b + s) 0 ballots.

(** Every ordered pair [(a,b)], [a] above [b], of a ballot. *)
Definition ordered_in (bal : ballot) (a b : cand) : Prop :=
  exists l1 l2, bal = l1 ++ a :: l2 /\ In b l2.

(** One step of the fold in [dedup_first]. *)
Definition dedup_step (acc : list cand) (c : cand) : list cand :=
  if memb c acc then acc else acc ++ [c].

(** A walk listed backwards: each node has an edge to its predecessor in
    the list. *)
Fixpoint chain (R : cand -> cand -> Prop) (l : list cand) : Prop :=
  match l with
  | x :: ((y :: _) as r) => R y x /\ chain R r
  | _ => True
  end.

(** The value a dict holds for [x], as the sum of the values of its entries
    with key [x] (a dict has at most one). *)
Definition count_at (d : list (cand * nat)) (x : cand) : nat :=
  fold_right (fun kv s => (if Nat.eqb (fst kv) x then snd kv else 0) + s) 0 d.

Definition score_at (d : list (cand * Z)) (x : cand) : Z :=
  fold_right (fun kv s => ((if Nat.eqb (fst kv) x then snd kv else 0) + s)%Z) 0%Z d.

(** Number of ballots ranking [x] first. *)
Definition first_count (ballots : list ballot) (x : cand) : nat :=
  length (filter (fun b => match b with c :: _ => Nat.eqb c x | [] => false end) ballots).

(** Points [x] receives from a ballot read from position [i] on, when
    position [j] is worth [f j]. *)
Fixpoint points (f : nat -> Z) (i : nat) (bal : ballot) (x : cand) : Z :=
  match bal with
  | [] => 0%Z
  | c :: r => ((if Nat.eqb c x then f i else 0) + points f (S i) r x)%Z
  end.

Definition total_points (f : nat -> Z) (ballots : list ballot) (x : cand) : Z :=
  fold_right (fun b s => (points f 0 b x + s)%Z) 0%Z ballots.

(** Weight vectors as the genetic algorithm keeps them: [m] nonnegative
    weights in nonincreasing order. *)
Fixpoint nonincreasing (l : list Z) : Prop :=
  match l with
  | x :: ((y :: _) as r) => (y <= x)%Z /\ nonincreasing r
  | _ => True
  end.

Definition valid_rule (m : nat) (w : list Z) : Prop :=
  length w = m /\ Forall (fun x => (0 <= x)%Z) w /\ nonincreasing w.

(** [Counter(cs)] updating the counter [d]: [d[c] += 1] for each [c]. *)
Definition counter (cs : list cand) (d : list (cand * nat)) : list (cand * nat) :=
  fold_left (fun d c => dict_add Nat.add 0 d c 1) cs d.

(** ** Proofs *)

(** *** The depth-first search decides reachability *)

Lemma cc_loop_sound (start : cand) (g : graph) (stack visited : list cand) :
  cc_loop start g stack visited = true ->
  exists y, In y stack /\ reach g y start.
Proof.
  funelim (cc_loop start g stack visited); intros Hcc.
  - discriminate.
  - exists node. split; [left; reflexivity |].
    apply Nat.eqb_eq in Heq. subst. apply rt_refl.
  - destruct (H Hcc) as [y [Hy Hr]].
    apply in_app_iff in Hy as [Hy | Hy].
    + exists node. split; [left; reflexivity |].
      rewrite <- in_rev, filter_In in Hy. destruct Hy as [Hy _].
      eapply rt_trans; [apply rt_step; exact Hy | exact Hr].
    + exists y. split; [right; exact Hy | exact Hr].
Qed.

(** Nodes reachable from a set closed under successors stay in it. *)
Lemma closed_reach (g : graph) (V : list cand) :
  (forall v y, In v V -> edge g v y -> In y V) ->
  forall x z, reach g x z -> In x V -> In z V.
Proof.
  intros Hcl x z Hr. induction Hr as [x z Hxz | x | x y z _ IH1 _ IH2]; intros Hx.
  - eapply Hcl; eauto.
  - exact Hx.
  - auto.
Qed.

Lemma cc_loop_complete (start : cand) (g : graph) (stack visited : list cand) :
  cc_loop start g stack visited = false ->
  ~ In start visited ->
  (forall v y, In v visited -> edge g v y -> In y visited \/ In y stack) ->
  forall y, In y stack \/ In y visited -> ~ reach g y start.
Proof.
  funelim (cc_loop start g stack visited); intros Hcc Hs Hcl.
  - intros y [[] | Hy] Hr. apply Hs.
    apply (closed_reach g visited) with y; [| exact Hr | exact Hy].
    intros v z Hv Hvz. destruct (Hcl v z Hv Hvz) as [Hz | []]. exact Hz.
  - discriminate.
  - assert (Hns : node <> start) by (apply Nat.eqb_neq; exact Heq).
    intros y Hy. apply H; [exact Hcc | | |].
    + rewrite set_add_In. intros [E | E]; [congruence | contradiction].
    + intros v z Hv Hvz. rewrite set_add_In in Hv.
      destruct (memb z (set_add node visited)) eqn:Hz;
        [left; apply memb_In; exact Hz |].
      right. apply in_app_iff.
      destruct Hv as [-> | Hv].
      * left. rewrite <- in_rev, filter_In. split; [exact Hvz |].
        rewrite Hz. reflexivity.
      * destruct (Hcl v z Hv Hvz) as [Hz' | [Hz' | Hz']].
        -- exfalso. apply memb_false in Hz. apply Hz. apply set_add_In. right. exact Hz'.
        -- exfalso. apply memb_false in Hz. apply Hz. apply set_add_In. left. auto.
        -- right. exact Hz'.
    + rewrite set_add_In, in_app_iff.
      destruct Hy as [[-> | Hy] | Hy]; [right; left; reflexivity | | ]; tauto.
Qed.

(** *** The pairwise tally *)

Lemma pd_incr_spec (d d' : pdict) (a b : cand) :
  pd_incr d a b = Ok d' ->
  pd_mem d a b = true /\ pd_keys d' = pd_keys d /\
  forall x y, pd_val d' x y = (if Nat.eqb x a && Nat.eqb y b then 1 else 0) + pd_val d x y.
Proof.
  unfold pd_incr. destruct (pd_mem d a b); [| discriminate].
  intros H. injection H as <-. repeat split; simpl.
  intros x y. destruct (Nat.eqb x a && Nat.eqb y b); reflexivity.
Qed.

Lemma pd_mem_keys (d d' : pdict) (a b : cand) :
  pd_keys d' = pd_keys d -> pd_mem d' a b = pd_mem d a b.
Proof. unfold pd_mem. intros ->. reflexivity. Qed.

Lemma tally_after_spec (d : pdict) (a : cand) (r : list cand) :
  (forall b, In b r -> pd_mem d a b = true) ->
  exists d', tally_after d a r = Ok d' /\ pd_keys d' = pd_keys d /\
    forall x y, pd_val d' x y =
                (if Nat.eqb x a then count_occ Nat.eq_dec r y else 0) + pd_val d x y.
Proof.
  revert d. induction r as [| b r IH]; intros d Hmem; simpl.
  - exists d. repeat split. intros x y. destruct (Nat.eqb x a); reflexivity.
  - unfold pd_incr at 1. rewrite (Hmem b (or_introl eq_refl)). simpl.
    set (d1 := {| pd_keys := pd_keys d;
                  pd_val := fun x y => if Nat.eqb x a && Nat.eqb y b then S (pd_val d x y)
                                       else pd_val d x y |}).
    destruct (IH d1) as [d' [Hd' [Hk Hv]]].
    { intros b' Hb'. unfold pd_mem. simpl. apply Hmem. right. exact Hb'. }
    exists d'. split; [exact Hd' |]. split; [exact Hk |].
    intros x y. rewrite Hv. simpl.
    destruct (Nat.eqb x a) eqn:Ex; simpl; [| reflexivity].
    destruct (Nat.eq_dec b y) as [-> | Hne].
    + rewrite Nat.eqb_refl. lia.
    + replace (Nat.eqb y b) with false by (symmetry; apply Nat.eqb_neq; congruence). lia.
Qed.

Lemma tally_ballot_spec (d : pdict) (bal : ballot) :
  (forall a b, ordered_in bal a b -> pd_mem d a b = true) ->
  exists d', tally_ballot d bal = Ok d' /\ pd_keys d' = pd_keys d /\
    forall x y, pd_val d' x y = before bal x y + pd_val d x y.
Proof.
  revert d. induction bal as [| a r IH]; intros d Hmem; simpl.
  - exists d. repeat split.
  - destruct (tally_after_spec d a r) as [d1 [H1 [Hk1 Hv1]]].
    { intros b Hb. apply Hmem. exists [], r. split; [reflexivity | exact Hb]. }
    rewrite H1. simpl.
    destruct (IH d1) as [d' [H' [Hk' Hv']]].
    { intros x y [l1 [l2 [E Hy]]]. rewrite (pd_mem_keys d d1 x y Hk1). apply Hmem.
      exists (a :: l1), l2. split; [simpl; f_equal; exact E | exact Hy]. }
    exists d'. split; [exact H' |]. split; [congruence |].
    intros x y. rewrite Hv', Hv1. simpl. rewrite (Nat.eqb_sym a x). lia.
Qed.

Lemma tally_ballots_spec (d : pdict) (ballots : list ballot) :
  (forall bal a b, In bal ballots -> ordered_in bal a b -> pd_mem d a b = true) ->
  exists d', tally_ballots d ballots = Ok d' /\ pd_keys d' = pd_keys d /\
    forall x y, pd_val d' x y = before_all ballots x y + pd_val d x y.
Proof.
  revert d. induction ballots as [| bal r IH]; intros d Hmem; simpl.
  - exists d. repeat split.
  - destruct (tally_ballot_spec d bal) as [d1 [H1 [Hk1 Hv1]]].
    { intros a b Hab. eapply Hmem; [left; reflexivity | exact Hab]. }
    rewrite H1. simpl.
    destruct (IH d1) as [d' [H' [Hk' Hv']]].
    { intros bal' a b Hin Hab. rewrite (pd_mem_keys d d1 a b Hk1).
      eapply Hmem; [right; exact Hin | exact Hab]. }
    exists d'. split; [exact H' |]. split; [congruence |].
    intros x y. rewrite Hv', Hv1. lia.
Qed.

(** *** Well-formedness *)

Lemma nodupb_NoDup (l : list cand) : nodupb l = true -> NoDup l.
Proof.
  induction l as [| x r IH]; simpl; intros H; [constructor |].
  apply andb_true_iff in H as [H1 H2]. apply negb_true_iff, memb_false in H1.
  constructor; auto.
Qed.

Lemma well_formed_spec (b0 : ballot) (r : list ballot) :
  well_formedb (b0 :: r) = true ->
  NoDup b0 /\
  forall b, In b (b0 :: r) ->
    NoDup b /\ length b = length b0 /\ (forall c, In c b <-> In c b0).
Proof.
  unfold well_formedb. intros H. rewrite forallb_forall in H.
  assert (Hb : forall b, In b (b0 :: r) ->
            NoDup b /\ length b = length b0 /\ (forall c, In c b -> In c b0)).
  { intros b Hin. specialize (H b Hin).
    apply andb_true_iff in H as [H H3]. apply andb_true_iff in H as [H1 H2].
    repeat split.
    - apply nodupb_NoDup. exact H2.
    - apply Nat.eqb_eq. exact H1.
    - intros c Hc. rewrite forallb_forall in H3. apply memb_In. auto. }
  destruct (Hb b0 (or_introl eq_refl)) as [Hnd0 _].
  split; [exact Hnd0 |].
  intros b Hin. destruct (Hb b Hin) as [Hnd [Hlen Hincl]].
  repeat split; [exact Hnd | exact Hlen | apply Hincl |].
  apply (NoDup_length_incl Hnd); [lia | exact Hincl].
Qed.

Lemma pd_init_mem (cands : list cand) (a b : cand) :
  pd_mem (pd_init cands) a b = true <-> In a cands /\ In b cands /\ a <> b.
Proof.
  unfold pd_mem, pd_init. simpl. rewrite existsb_exists. split.
  - intros [[x y] [Hin Heq]]. unfold pair_eqb in Heq. simpl in Heq.
    apply andb_true_iff in Heq as [E1 E2]. apply Nat.eqb_eq in E1, E2. subst x y.
    apply in_flat_map in Hin as [a' [Ha' Hin]]. apply in_flat_map in Hin as [b' [Hb' Hin]].
    destruct (Nat.eqb a' b') eqn:E; [destruct Hin |].
    destruct Hin as [Hin | []]. injection Hin as <- <-.
    apply Nat.eqb_neq in E. auto.
  - intros [Ha [Hb Hne]]. exists (a, b). split.
    + apply in_flat_map. exists a. split; [exact Ha |].
      apply in_flat_map. exists b. split; [exact Hb |].
      apply Nat.eqb_neq in Hne. rewrite Hne. left. reflexivity.
    + unfold pair_eqb. simpl. rewrite !Nat.eqb_refl. reflexivity.
Qed.

Lemma ordered_in_spec (bal : ballot) (a b : cand) :
  NoDup bal -> ordered_in bal a b -> In a bal /\ In b bal /\ a <> b.
Proof.
  intros Hnd [l1 [l2 [-> Hb]]].
  apply NoDup_remove_2 in Hnd. repeat split.
  - apply in_app_iff. right. left. reflexivity.
  - apply in_app_iff. right. right. exact Hb.
  - intros ->. apply Hnd. apply in_app_iff. right. exact Hb.
Qed.

(** On a well-formed BallotSet the tally over the first ballot's candidates
    raises no KeyError and counts, for each pair, the ballots ranking it. *)
Lemma tally_well_formed (b0 : ballot) (r : list ballot) :
  well_formedb (b0 :: r) = true ->
  exists d, tally_ballots (pd_init b0) (b0 :: r) = Ok d /\
    pd_keys d = pd_keys (pd_init b0) /\
    forall x y, pd_val d x y = before_all (b0 :: r) x y.
Proof.
  intros Hwf. destruct (well_formed_spec b0 r Hwf) as [Hnd0 Hb].
  destruct (tally_ballots_spec (pd_init b0) (b0 :: r)) as [d [Hd [Hk Hv]]].
  { intros bal a b Hin Hab. destruct (Hb bal Hin) as [Hnd [_ Hc]].
    destruct (ordered_in_spec bal a b Hnd Hab) as [Ha [Hb' Hne]].
    apply pd_init_mem. rewrite <- !Hc. auto. }
  exists d. split; [exact Hd |]. split; [exact Hk |].
  intros x y. rewrite Hv. simpl. lia.
Qed.

Lemma before_absent (bal : ballot) (a b : cand) : ~ In a bal -> before bal a b = 0.
Proof.
  induction bal as [| x r IH]; simpl; intros H; [reflexivity |].
  replace (Nat.eqb x a) with false by (symmetry; apply Nat.eqb_neq; intuition).
  apply IH. intuition.
Qed.

Lemma before_absent_r (bal : ballot) (a b : cand) : ~ In b bal -> before bal a b = 0.
Proof.
  induction bal as [| x r IH]; simpl; intros H; [reflexivity |].
  rewrite IH by intuition. destruct (Nat.eqb x a); [| reflexivity].
  rewrite (proj1 (count_occ_not_In Nat.eq_dec r b)) by intuition. reflexivity.
Qed.

(** A strict ranking orders every pair of its candidates exactly one way. *)
Lemma before_complementary (bal : ballot) (a b : cand) :
  NoDup bal -> In a bal -> In b bal -> a <> b -> before bal a b + before bal b a = 1.
Proof.
  induction bal as [| x r IH]; simpl; intros Hnd Ha Hb Hne; [destruct Ha |].
  inversion Hnd as [| ? ? Hx Hnd']; subst.
  destruct (Nat.eq_dec x a) as [-> | Hxa].
  - rewrite Nat.eqb_refl. replace (Nat.eqb a b) with false by (symmetry; apply Nat.eqb_neq; auto).
    destruct Hb as [Hb | Hb]; [congruence |].
    rewrite (before_absent r a b Hx), (before_absent_r r b a Hx).
    rewrite (proj1 (NoDup_count_occ' Nat.eq_dec r) Hnd' b Hb). reflexivity.
  - destruct (Nat.eq_dec x b) as [-> | Hxb].
    + rewrite Nat.eqb_refl. replace (Nat.eqb b a) with false by (symmetry; apply Nat.eqb_neq; auto).
      destruct Ha as [Ha | Ha]; [congruence |].
      rewrite (before_absent r b a Hx), (before_absent_r r a b Hx).
      rewrite (proj1 (NoDup_count_occ' Nat.eq_dec r) Hnd' a Ha). reflexivity.
    + replace (Nat.eqb x a) with false by (symmetry; apply Nat.eqb_neq; auto).
      replace (Nat.eqb x b) with false by (symmetry; apply Nat.eqb_neq; auto).
      destruct Ha as [Ha | Ha]; [congruence |]. destruct Hb as [Hb | Hb]; [congruence |].
      simpl. apply IH; auto.
Qed.

Lemma before_all_complementary (ballots : list ballot) (a b : cand) :
  (forall bal, In bal ballots -> NoDup bal /\ In a bal /\ In b bal) -> a <> b ->
  before_all ballots a b + before_all ballots b a = length ballots.
Proof.
  induction ballots as [| bal r IH]; simpl; intros H Hne; [reflexivity |].
  destruct (H bal (or_introl eq_refl)) as [Hnd [Ha Hb]].
  pose proof (before_complementary bal a b Hnd Ha Hb Hne).
  rewrite <- (IH (fun bal' Hin => H bal' (or_intror Hin)) Hne). lia.
Qed.

(** ** Claim C7 *)

(** C7: for a well-formed BallotSet, the matrix returned by [pairwise_matrix]
    holds both [(a,b)] and [(b,a)] for any two distinct candidates, and
    [tally(a,b) + tally(b,a)] is the number of ballots. *)
Theorem pairwise_matrix_pair_sum (ballots : list ballot) :
  well_formedb ballots = true ->
  exists matrix, pairwise_matrix ballots = Ok matrix /\
    forall a b, In a (hd [] ballots) -> In b (hd [] ballots) -> a <> b ->
      exists ab ba, pd_getitem matrix a b = Ok ab /\ pd_getitem matrix b a = Ok ba /\
                    ab + ba = length ballots.
Proof.
  destruct ballots as [| b0 r]; intros Hwf.
  - exists pd_empty. split; [reflexivity |]. intros a b [].
  - destruct (tally_well_formed b0 r Hwf) as [d [Hd [Hk Hv]]].
    destruct (well_formed_spec b0 r Hwf) as [_ Hb].
    exists d. split; [exact Hd |]. simpl. intros a b Ha Hb' Hne.
    unfold pd_getitem. rewrite !(pd_mem_keys (pd_init b0) d _ _ Hk).
    rewrite (proj2 (pd_init_mem b0 a b)) by auto.
    rewrite (proj2 (pd_init_mem b0 b a)) by auto.
    do 2 eexists. split; [reflexivity |]. split; [reflexivity |].
    rewrite !Hv. apply before_all_complementary; [| exact Hne].
    intros bal Hin. destruct (Hb bal Hin) as [Hnd [_ Hc]]. rewrite !Hc. auto.
Qed.

Lemma pairwise_matrix_pair_sum_witness :
  well_formedb [[0; 1; 2]; [2; 1; 0]; [1; 0; 2]] = true /\
  exists matrix, pairwise_matrix [[0; 1; 2]; [2; 1; 0]; [1; 0; 2]] = Ok matrix /\
    forall a b, In a [0; 1; 2] -> In b [0; 1; 2] -> a <> b ->
      exists ab ba, pd_getitem matrix a b = Ok ab /\ pd_getitem matrix b a = Ok ba /\
                    ab + ba = 3.
Proof.
  split; [reflexivity |].
  apply (pairwise_matrix_pair_sum [[0; 1; 2]; [2; 1; 0]; [1; 0; 2]]). reflexivity.
Defined.

(** *** Locking edges *)

Lemma lock_keys (g : graph) (w l : cand) : map fst (lock g w l) = map fst g.
Proof.
  induction g as [| [k s] g IH]; simpl; [reflexivity |].
  destruct (Nat.eqb k w); simpl; f_equal; exact IH.
Qed.

Lemma succs_lock (g : graph) (w l a : cand) :
  succs (lock g w l) a =
  if Nat.eqb a w && memb a (map fst g) then set_add l (succs g a) else succs g a.
Proof.
  induction g as [| [k s] g IH].
  - simpl. destruct (Nat.eqb a w); reflexivity.
  - unfold succs in *. simpl. unfold memb in *. simpl.
    destruct (Nat.eqb k a) eqn:Eka.
    + apply Nat.eqb_eq in Eka. subst k. rewrite Nat.eqb_refl. simpl.
      destruct (Nat.eqb a w) eqn:Eaw; simpl; rewrite ?Nat.eqb_refl; reflexivity.
    + assert (Eak : Nat.eqb a k = false) by (rewrite Nat.eqb_sym; exact Eka).
      rewrite Eak. simpl.
      destruct (Nat.eqb k w) eqn:Ekw; simpl; rewrite Eka; exact IH.
Qed.

Lemma edge_lock_inv (g : graph) (w l a b : cand) :
  edge (lock g w l) a b -> edge g a b \/ (a = w /\ b = l).
Proof.
  unfold edge. rewrite succs_lock.
  destruct (Nat.eqb a w && memb a (map fst g)) eqn:E; [| left; exact H].
  intros H. apply set_add_In in H as [-> | H]; [| left; exact H].
  apply andb_true_iff in E as [E _]. apply Nat.eqb_eq in E. right. auto.
Qed.

Lemma edge_lock_mono (g : graph) (w l a b : cand) :
  edge g a b -> edge (lock g w l) a b.
Proof.
  unfold edge. rewrite succs_lock. intros H.
  destruct (Nat.eqb a w && memb a (map fst g)); [apply set_add_In; right |]; exact H.
Qed.

Lemma edge_lock_new (g : graph) (w l : cand) :
  In w (map fst g) -> edge (lock g w l) w l.
Proof.
  unfold edge. rewrite succs_lock, Nat.eqb_refl. intros H.
  apply memb_In in H. rewrite H. apply set_add_In. left. reflexivity.
Qed.

(** A path of the graph with the new edge [w -> l] either is a path of the
    old graph or goes through [w] and then [l]. *)
Lemma lock_path (g : graph) (w l : cand) :
  ~ reach g l w ->
  forall x y, clos_trans cand (edge (lock g w l)) x y ->
  clos_trans cand (edge g) x y \/ (reach g x w /\ reach g l y).
Proof.
  intros Hnr x y Hxy. induction Hxy as [x y Hxy | x y z _ IH1 _ IH2].
  - apply edge_lock_inv in Hxy as [Hxy | [-> ->]].
    + left. apply t_step. exact Hxy.
    + right. split; apply rt_refl.
  - destruct IH1 as [H1 | [H1a H1b]], IH2 as [H2 | [H2a H2b]].
    + left. eapply t_trans; eauto.
    + right. split; [| exact H2b].
      eapply rt_trans; [apply clos_t_clos_rt; exact H1 | exact H2a].
    + right. split; [exact H1a |].
      eapply rt_trans; [exact H1b | apply clos_t_clos_rt; exact H2].
    + exfalso. apply Hnr. eapply rt_trans; [exact H1b | exact H2a].
Qed.

Lemma lock_acyclic (g : graph) (w l : cand) :
  acyclic g -> ~ reach g l w -> acyclic (lock g w l).
Proof.
  intros Hac Hnr c Hc.
  destruct (lock_path g w l Hnr c c Hc) as [H | [H1 H2]].
  - exact (Hac c H).
  - apply Hnr. eapply rt_trans; [exact H2 | exact H1].
Qed.

Lemma creates_cycle_true (w l : cand) (g : graph) :
  creates_cycle w l g = true -> reach g l w.
Proof.
  unfold creates_cycle. intros H.
  destruct (cc_loop_sound w g [l] [] H) as [y [[-> | []] Hr]]. exact Hr.
Qed.

Lemma creates_cycle_false (w l : cand) (g : graph) :
  creates_cycle w l g = false -> ~ reach g l w.
Proof.
  unfold creates_cycle. intros H.
  apply (cc_loop_complete w g [l] [] H); [intros [] | intros v y [] | left; left; reflexivity].
Qed.

Lemma lock_pairs_acyclic (pairs : list (cand * cand * nat)) (g : graph) :
  acyclic g -> acyclic (lock_pairs pairs g).
Proof.
  unfold lock_pairs. revert g. induction pairs as [| [[w l] m] pairs IH]; intros g Hg; simpl.
  - exact Hg.
  - apply IH. destruct (creates_cycle w l g) eqn:E; [exact Hg |].
    apply lock_acyclic; [exact Hg | apply creates_cycle_false; exact E].
Qed.

Lemma succs_init (cands : list cand) (a : cand) : succs (init_locked cands) a = [].
Proof.
  unfold succs, init_locked.
  destruct (find (fun kv => Nat.eqb (fst kv) a) (map (fun c => (c, [])) (dedup_first cands)))
    as [[k s] |] eqn:E; [| reflexivity].
  apply find_some in E as [E _]. apply in_map_iff in E as [c [Ec _]].
  injection Ec as _ <-. reflexivity.
Qed.

Lemma init_acyclic (cands : list cand) : acyclic (init_locked cands).
Proof.
  intros c H. apply clos_trans_t1n in H. destruct H as [y H | y z H _];
    unfold edge in H; rewrite succs_init in H; destruct H.
Qed.

(** ** Claim C2 *)

(** C2: the graph locked by [ranked_pairs_winner] is acyclic after each
    processed edge: for every prefix of the sorted victories, locking that
    prefix into the initial empty graph leaves no cycle. *)
Theorem ranked_pairs_locked_acyclic (ballots : list ballot) (candidates : ballot)
    (rest : list ballot) (pairs : list (cand * cand * nat)) :
  ballots = candidates :: rest ->
  ranked_pairs_pairs candidates ballots = Ok pairs ->
  forall i, acyclic (lock_pairs (firstn i pairs) (init_locked candidates)).
Proof.
  intros _ _ i. apply lock_pairs_acyclic, init_acyclic.
Qed.

Lemma ranked_pairs_locked_acyclic_witness :
  ranked_pairs_pairs [0; 1; 2] [[0; 1; 2]; [1; 2; 0]; [2; 0; 1]] =
    Ok [(0, 1, 1); (1, 2, 1); (2, 0, 1)] /\
  forall i, acyclic (lock_pairs (firstn i [(0, 1, 1); (1, 2, 1); (2, 0, 1)])
                                (init_locked [0; 1; 2])).
Proof.
  split; [vm_compute; reflexivity |].
  apply (ranked_pairs_locked_acyclic [[0; 1; 2]; [1; 2; 0]; [2; 0; 1]] [0; 1; 2]
           [[1; 2; 0]; [2; 0; 1]]); [reflexivity | vm_compute; reflexivity].
Defined.

(** *** Keys of the locked graph *)

Lemma dedup_fold_spec (l acc : list cand) :
  NoDup acc ->
  NoDup (fold_left dedup_step l acc) /\
  (forall x, In x (fold_left dedup_step l acc) <-> In x acc \/ In x l).
Proof.
  revert acc. induction l as [| c l IH]; intros acc Hnd; simpl.
  - split; [exact Hnd | intros x; tauto].
  - assert (Hnd' : NoDup (dedup_step acc c) /\
                   forall x, In x (dedup_step acc c) <-> In x acc \/ x = c).
    { unfold dedup_step. destruct (memb c acc) eqn:E.
      - apply memb_In in E. split; [exact Hnd |]. intros x. split; [tauto |].
        intros [H | ->]; assumption.
      - apply memb_false in E. split.
        + apply NoDup_app; [exact Hnd | constructor; [intros [] | constructor] |].
          intros x Hx [<- | []]. contradiction.
        + intros x. rewrite in_app_iff. simpl. intuition. }
    destruct Hnd' as [Hnd' Hin'].
    destruct (IH _ Hnd') as [H1 H2]. split; [exact H1 |].
    intros x. rewrite H2, Hin'. intuition.
Qed.

Lemma dedup_first_spec (l : list cand) :
  NoDup (dedup_first l) /\ (forall x, In x (dedup_first l) <-> In x l).
Proof.
  destruct (dedup_fold_spec l [] (NoDup_nil _)) as [H1 H2].
  split; [exact H1 |]. intros x. unfold dedup_first. fold dedup_step. rewrite H2. simpl. tauto.
Qed.

Lemma lock_pairs_keys (pairs : list (cand * cand * nat)) (g : graph) :
  map fst (lock_pairs pairs g) = map fst g.
Proof.
  unfold lock_pairs. revert g. induction pairs as [| [[w l] m] pairs IH]; intros g; simpl.
  - reflexivity.
  - rewrite IH. destruct (creates_cycle w l g); [reflexivity | apply lock_keys].
Qed.

Lemma init_keys (cands : list cand) : map fst (init_locked cands) = dedup_first cands.
Proof.
  unfold init_locked. rewrite map_map. simpl. apply map_id.
Qed.

(** Every locked edge is one of the processed victories. *)
Lemma lock_pairs_edge (pairs : list (cand * cand * nat)) (g : graph) (a b : cand) :
  edge (lock_pairs pairs g) a b -> edge g a b \/ exists m, In (a, b, m) pairs.
Proof.
  unfold lock_pairs. revert g. induction pairs as [| [[w l] m] pairs IH]; intros g H; simpl in *.
  - left. exact H.
  - destruct (IH _ H) as [H' | [m' Hm']]; [| right; exists m'; right; exact Hm'].
    destruct (creates_cycle w l g); [left; exact H' |].
    apply edge_lock_inv in H' as [H' | [-> ->]]; [left; exact H' |].
    right. exists m. left. reflexivity.
Qed.

Lemma edge_key (g : graph) (a b : cand) : edge g a b -> In a (map fst g).
Proof.
  unfold edge, succs.
  destruct (find (fun kv => Nat.eqb (fst kv) a) g) as [[k s] |] eqn:E; [| intros []].
  intros _. apply find_some in E as [E1 E2]. simpl in E2. apply Nat.eqb_eq in E2. subst k.
  apply in_map_iff. exists (a, s). auto.
Qed.

Lemma succs_entry (g : graph) (k : cand) (s : list cand) :
  NoDup (map fst g) -> In (k, s) g -> succs g k = s.
Proof.
  unfold succs. induction g as [| [k' s'] g IH]; simpl; intros Hnd Hin; [destruct Hin |].
  inversion Hnd as [| ? ? Hk Hnd']; subst.
  destruct Hin as [E | Hin].
  - injection E as -> ->. rewrite Nat.eqb_refl. reflexivity.
  - destruct (Nat.eqb k' k) eqn:E.
    + apply Nat.eqb_eq in E. subst k'. exfalso. apply Hk.
      apply in_map_iff. exists (k, s). auto.
    + apply IH; assumption.
Qed.

(** *** Incoming-edge counts *)

Lemma count_incoming_inner (l : list cand) (inc : cand -> nat) (x : cand) :
  fold_left (fun inc b => fun y => if Nat.eqb y b then S (inc y) else inc y) l inc x =
  inc x + count_occ Nat.eq_dec l x.
Proof.
  revert inc. induction l as [| b l IH]; intros inc; simpl; [lia |].
  rewrite IH. destruct (Nat.eq_dec b x) as [-> | Hne].
  - rewrite Nat.eqb_refl. lia.
  - replace (Nat.eqb x b) with false by (symmetry; apply Nat.eqb_neq; auto). lia.
Qed.

Lemma count_incoming_spec (g : graph) (x : cand) :
  count_incoming g x = fold_right (fun kv s => count_occ Nat.eq_dec (snd kv) x + s) 0 g.
Proof.
  unfold count_incoming.
  assert (H : forall inc, fold_left (fun inc kv =>
               fold_left (fun inc b => fun y => if Nat.eqb y b then S (inc y) else inc y)
                 (snd kv) inc) g inc x =
              inc x + fold_right (fun kv s => count_occ Nat.eq_dec (snd kv) x + s) 0 g).
  { induction g as [| kv g IH]; intros inc; simpl; [lia |].
    rewrite IH, count_incoming_inner. lia. }
  rewrite H. reflexivity.
Qed.

Lemma count_incoming_zero (g : graph) (x : cand) :
  count_incoming g x = 0 <-> forall kv, In kv g -> ~ In x (snd kv).
Proof.
  rewrite count_incoming_spec. unfold graph, cand in *.
  induction g as [| kv g IH]; simpl.
  - split; [intros _ kv [] | reflexivity].
  - split.
    + intros H kv' [<- | Hin] Hx.
      * apply (count_occ_In Nat.eq_dec (snd kv) x) in Hx. lia.
      * revert kv' Hin Hx. apply (proj1 IH). lia.
    + intros H. assert (H1 : count_occ Nat.eq_dec (snd kv) x = 0).
      { apply count_occ_not_In. apply H. left. reflexivity. }
      rewrite H1. apply IH. intros kv' Hin. apply H. right. exact Hin.
Qed.

(** With duplicate-free keys, no incoming count means no edge into [x]. *)
Lemma count_incoming_edge (g : graph) (x : cand) :
  NoDup (map fst g) -> (count_incoming g x = 0 <-> forall a, ~ edge g a x).
Proof.
  intros Hnd. rewrite count_incoming_zero. split.
  - intros H a Hax. unfold edge, succs in Hax.
    destruct (find (fun kv => Nat.eqb (fst kv) a) g) as [[k s] |] eqn:E; [| destruct Hax].
    apply find_some in E as [E _]. exact (H (k, s) E Hax).
  - intros H [k s] Hin Hx. apply (H k). unfold edge. rewrite (succs_entry g k s Hnd Hin).
    exact Hx.
Qed.

(** *** An acyclic graph on a non-empty candidate list has a source *)

Lemma chain_suffix (R : cand -> cand -> Prop) (l1 l2 : list cand) :
  chain R (l1 ++ l2) -> chain R l2.
Proof.
  induction l1 as [| x l1 IH]; simpl; intros H; [exact H |].
  destruct (l1 ++ l2) as [| y r] eqn:E.
  - apply app_eq_nil in E as [_ ->]. exact I.
  - apply IH. exact (proj2 H).
Qed.

Lemma chain_In (R : cand -> cand -> Prop) (x : cand) (l : list cand) (y : cand) :
  chain R (x :: l) -> In y l -> clos_trans cand R y x.
Proof.
  revert x. induction l as [| z l IH]; intros x Hc Hy; [destruct Hy |].
  destruct Hc as [Hzx Hc]. destruct Hy as [-> | Hy].
  - apply t_step. exact Hzx.
  - eapply t_trans; [apply IH; eauto | apply t_step; exact Hzx].
Qed.

Lemma chain_build (R : cand -> cand -> Prop) (cands : list cand) :
  (forall c, In c cands -> exists a, In a cands /\ R a c) ->
  forall k c, In c cands -> exists l, length l = k /\ incl l cands /\ chain R (c :: l).
Proof.
  intros Hpred k. induction k as [| k IH]; intros c Hc.
  - exists []. repeat split. intros x [].
  - destruct (Hpred c Hc) as [a [Ha Hac]].
    destruct (IH a Ha) as [l [Hlen [Hincl Hch]]].
    exists (a :: l). split; [simpl; lia |]. split.
    + intros x [<- | Hx]; [exact Ha | apply Hincl; exact Hx].
    + simpl. split; [exact Hac | exact Hch].
Qed.

Lemma acyclic_source (R : cand -> cand -> Prop) (f : cand -> cand -> bool)
    (cands : list cand) :
  (forall a b, f a b = true <-> R a b) ->
  cands <> [] -> (forall c, ~ clos_trans cand R c c) ->
  exists c, In c cands /\ forall a, In a cands -> ~ R a c.
Proof.
  intros Hf Hne Hac.
  destruct (existsb (fun c => forallb (fun a => negb (f a c)) cands) cands) eqn:E.
  - apply existsb_exists in E as [c [Hc E]]. exists c. split; [exact Hc |].
    intros a Ha Hr. rewrite forallb_forall in E. specialize (E a Ha).
    apply Hf in Hr. rewrite Hr in E. discriminate.
  - exfalso.
    assert (Hpred : forall c, In c cands -> exists a, In a cands /\ R a c).
    { intros c Hc. destruct (existsb (fun a => f a c) cands) eqn:E2.
      - apply existsb_exists in E2 as [a [Ha E2]]. exists a. split; [exact Ha |].
        apply Hf. exact E2.
      - assert (Hall : forallb (fun a => negb (f a c)) cands = true).
        { apply forallb_forall. intros a Ha. destruct (f a c) eqn:Ef; [| reflexivity].
          assert (existsb (fun a => f a c) cands = true)
            by (apply existsb_exists; exists a; auto).
          congruence. }
        assert (existsb (fun c => forallb (fun a => negb (f a c)) cands) cands = true)
          by (apply existsb_exists; exists c; auto).
        congruence. }
    destruct cands as [| c0 cs]; [congruence |].
    destruct (chain_build R _ Hpred (length (c0 :: cs)) c0 (or_introl eq_refl))
      as [l [Hlen [Hincl Hch]]].
    assert (Hnd : ~ NoDup (c0 :: l)).
    { intros Hnd. apply NoDup_incl_length with (l' := c0 :: cs) in Hnd.
      - simpl in *. lia.
      - intros x [<- | Hx]; [left; reflexivity | apply Hincl; exact Hx]. }
    apply (not_NoDup dec_eq_nat) in Hnd as [a [l1 [l2 [l3 Eq]]]].
    rewrite Eq in Hch. apply chain_suffix in Hch.
    apply (Hac a). apply (chain_In R a (l2 ++ a :: l3) a Hch).
    apply in_app_iff. right. left. reflexivity.
Qed.

(** The final locked graph always has a candidate with no incoming edge. *)
Lemma locked_has_source (pairs : list (cand * cand * nat)) (b0 : ballot) :
  b0 <> [] ->
  let locked := lock_pairs pairs (init_locked b0) in
  exists c, head (filter (fun c => Nat.eqb (count_incoming locked c) 0) (dedup_first b0))
            = Some c /\ In c b0 /\ forall a, ~ edge locked a c.
Proof.
  intros Hne locked.
  assert (Hkeys : map fst locked = dedup_first b0).
  { unfold locked. rewrite lock_pairs_keys. apply init_keys. }
  destruct (dedup_first_spec b0) as [Hnd Hin].
  assert (Hac : acyclic locked) by (apply lock_pairs_acyclic, init_acyclic).
  destruct (acyclic_source (edge locked) (fun a b => memb b (succs locked a)) (dedup_first b0))
    as [c [Hc Hsrc]].
  - intros a b. unfold edge. apply memb_In.
  - destruct b0 as [| x r]; [congruence |]. intros E.
    assert (Hx : In x (dedup_first (x :: r))) by (apply Hin; left; reflexivity).
    rewrite E in Hx. destruct Hx.
  - exact Hac.
  - assert (Hno : forall a, ~ edge locked a c).
    { intros a Hac'. apply (Hsrc a); [| exact Hac']. rewrite <- Hkeys.
      eapply edge_key. exact Hac'. }
    assert (Hz : count_incoming locked c = 0).
    { apply count_incoming_edge; [rewrite Hkeys; exact Hnd | exact Hno]. }
    destruct (filter (fun c => Nat.eqb (count_incoming locked c) 0) (dedup_first b0))
      as [| c' zs] eqn:E.
    + exfalso. assert (Hf : In c (filter (fun c => Nat.eqb (count_incoming locked c) 0)
                                        (dedup_first b0))).
      { apply filter_In. split; [exact Hc | apply Nat.eqb_eq; exact Hz]. }
      rewrite E in Hf. destruct Hf.
    + exists c'. split; [reflexivity |].
      assert (Hc' : In c' (filter (fun c => Nat.eqb (count_incoming locked c) 0)
                                  (dedup_first b0))) by (rewrite E; left; reflexivity).
      apply filter_In in Hc' as [Hc'1 Hc'2]. split; [apply Hin; exact Hc'1 |].
      apply count_incoming_edge; [rewrite Hkeys; exact Hnd | apply Nat.eqb_eq; exact Hc'2].
Qed.

(** ** Claim C3 *)

(** C3 (as amended): for a well-formed BallotSet whose candidate universe is
    non-empty (the first ballot ranks at least one candidate),
    [ranked_pairs_winner] returns a candidate, never none: a candidate with
    no incoming locked edge always exists. *)
Theorem ranked_pairs_returns_candidate (ballots : list ballot) :
  well_formedb ballots = true -> hd [] ballots <> [] ->
  exists c, ranked_pairs_winner ballots = Ok (Some c) /\ In c (hd [] ballots).
Proof.
  destruct ballots as [| b0 r]; simpl; intros Hwf Hne; [congruence |].
  destruct (tally_well_formed b0 r Hwf) as [d [Hd _]].
  unfold ranked_pairs_pairs. rewrite Hd. simpl.
  destruct (locked_has_source (sort_pairs (victories b0 d)) b0 Hne) as [c [Hc [Hin _]]].
  exists c. rewrite Hc. split; [reflexivity | exact Hin].
Qed.

Lemma ranked_pairs_returns_candidate_witness :
  well_formedb [[0; 1; 2]; [1; 2; 0]; [2; 0; 1]] = true /\ [0; 1; 2] <> [] /\
  exists c, ranked_pairs_winner [[0; 1; 2]; [1; 2; 0]; [2; 0; 1]] = Ok (Some c) /\
            In c [0; 1; 2].
Proof.
  split; [reflexivity |]. split; [discriminate |].
  apply (ranked_pairs_returns_candidate [[0; 1; 2]; [1; 2; 0]; [2; 0; 1]]);
    [reflexivity | discriminate].
Defined.

(** C3 as stated fails when the candidate universe is empty: the BallotSet
    with one empty ballot is non-empty and well formed, and the result is
    none. *)
Lemma ranked_pairs_no_candidates_none :
  well_formedb [[]] = true /\ [[]] <> @nil ballot /\ ranked_pairs_winner [[]] = Ok None.
Proof.
  split; [reflexivity |]. split; [discriminate | vm_compute; reflexivity].
Qed.

(** *** Ranked Pairs returns the Condorcet winner *)

Lemma pd_init_keys_In (cands : list cand) (a b : cand) :
  In (a, b) (pd_keys (pd_init cands)) <-> In a cands /\ In b cands /\ a <> b.
Proof.
  unfold pd_init. simpl. split.
  - intros Hin. apply in_flat_map in Hin as [a' [Ha' Hin]].
    apply in_flat_map in Hin as [b' [Hb' Hin]].
    destruct (Nat.eqb a' b') eqn:E; [destruct Hin |].
    destruct Hin as [Hin | []]. injection Hin as <- <-. apply Nat.eqb_neq in E. auto.
  - intros [Ha [Hb Hne]]. apply in_flat_map. exists a. split; [exact Ha |].
    apply in_flat_map. exists b. split; [exact Hb |].
    apply Nat.eqb_neq in Hne. rewrite Hne. left. reflexivity.
Qed.

Lemma insert_nat_perm (x : nat) (l : list nat) : Permutation (insert_nat x l) (x :: l).
Proof.
  induction l as [| y l IH]; simpl; [reflexivity |].
  destruct (Nat.leb x y); [reflexivity |].
  eapply perm_trans; [apply perm_skip; exact IH | apply perm_swap].
Qed.

Lemma sort_nat_perm (l : list nat) : Permutation (sort_nat l) l.
Proof.
  induction l as [| x l IH]; simpl; [reflexivity |].
  eapply perm_trans; [apply insert_nat_perm | apply perm_skip; exact IH].
Qed.

Lemma insert_pair_perm (e : cand * cand * nat) (l : list (cand * cand * nat)) :
  Permutation (insert_pair e l) (e :: l).
Proof.
  induction l as [| e' l IH]; simpl; [reflexivity |].
  destruct (Nat.ltb (margin e') (margin e)); [reflexivity |].
  eapply perm_trans; [apply perm_skip; exact IH | apply perm_swap].
Qed.

Lemma sort_pairs_perm (l : list (cand * cand * nat)) : Permutation (sort_pairs l) l.
Proof.
  unfold sort_pairs.
  assert (H : forall acc, Permutation (fold_left (fun acc e => insert_pair e acc) l acc)
                                      (acc ++ l)).
  { induction l as [| e l IH]; intros acc; simpl; [rewrite app_nil_r; reflexivity |].
    eapply perm_trans; [apply IH |].
    eapply perm_trans; [apply Permutation_app_tail, insert_pair_perm |].
    simpl. apply Permutation_middle. }
  apply H.
Qed.

Lemma victories_In (cands : list cand) (pw : pdict) (a b : cand) (m : nat) :
  In (a, b, m) (victories cands pw) ->
  In a cands /\ In b cands /\ a <> b /\ pd_get pw b a 0 < pd_get pw a b 0.
Proof.
  unfold victories. intros Hin.
  apply in_flat_map in Hin as [a' [Ha' Hin]]. apply in_flat_map in Hin as [b' [Hb' Hin]].
  destruct (Nat.eqb a' b') eqn:E; [destruct Hin |].
  destruct (Nat.ltb (pd_get pw b' a' 0) (pd_get pw a' b' 0)) eqn:L; [| destruct Hin].
  destruct Hin as [Hin | []]. injection Hin as <- <- _.
  apply Nat.eqb_neq in E. apply Nat.ltb_lt in L. auto.
Qed.

Lemma victories_intro (cands : list cand) (pw : pdict) (a b : cand) :
  In a cands -> In b cands -> a <> b -> pd_get pw b a 0 < pd_get pw a b 0 ->
  exists m, In (a, b, m) (victories cands pw).
Proof.
  intros Ha Hb Hne Hlt. exists (pd_get pw a b 0 - pd_get pw b a 0).
  unfold victories. apply in_flat_map. exists a. split; [exact Ha |].
  apply in_flat_map. exists b. split; [exact Hb |].
  apply Nat.eqb_neq in Hne. rewrite Hne. apply Nat.ltb_lt in Hlt. rewrite Hlt.
  left. reflexivity.
Qed.

Lemma lock_pairs_mono (pairs : list (cand * cand * nat)) (g : graph) (a b : cand) :
  edge g a b -> edge (lock_pairs pairs g) a b.
Proof.
  unfold lock_pairs. revert g. induction pairs as [| [[w l] m] pairs IH]; intros g H; simpl.
  - exact H.
  - apply IH. destruct (creates_cycle w l g); [exact H | apply edge_lock_mono; exact H].
Qed.

Lemma reach_into (g : graph) (x c : cand) :
  reach g x c -> x <> c -> exists a, edge g a c.
Proof.
  intros Hr Hne. apply clos_rt_rtn1 in Hr. destruct Hr as [| y z Hyz _].
  - congruence.
  - exists y. exact Hyz.
Qed.

(** While no processed victory ends at [c], nothing is locked into [c], and
    every victory [c -> x] gets locked. *)
Lemma lock_pairs_source (pairs : list (cand * cand * nat)) (g : graph) (c : cand) :
  (forall a, ~ edge g a c) ->
  (forall a b m, In (a, b, m) pairs -> b <> c) ->
  In c (map fst g) ->
  (forall a, ~ edge (lock_pairs pairs g) a c) /\
  (forall x m, In (c, x, m) pairs -> edge (lock_pairs pairs g) c x).
Proof.
  unfold lock_pairs. revert g.
  induction pairs as [| [[w l] m] pairs IH]; intros g Hno Hlos Hkey; simpl.
  - split; [exact Hno | intros x m' []].
  - set (g' := if creates_cycle w l g then g else lock g w l).
    assert (Hno' : forall a, ~ edge g' a c).
    { intros a Ha. unfold g' in Ha. destruct (creates_cycle w l g); [exact (Hno a Ha) |].
      apply edge_lock_inv in Ha as [Ha | [_ <-]]; [exact (Hno a Ha) |].
      exact (Hlos w c m (or_introl eq_refl) eq_refl). }
    assert (Hkey' : In c (map fst g')).
    { unfold g'. destruct (creates_cycle w l g); [exact Hkey | rewrite lock_keys; exact Hkey]. }
    destruct (IH g' Hno' (fun a b m' H => Hlos a b m' (or_intror H)) Hkey') as [H1 H2].
    split; [exact H1 |].
    intros x m' [E | Hin]; [| apply H2 with m'; exact Hin].
    injection E as -> -> _.
    apply (lock_pairs_mono pairs). unfold g'.
    destruct (creates_cycle c x g) eqn:Ecc.
    + exfalso. apply creates_cycle_true in Ecc.
      destruct (reach_into g x c Ecc (Hlos c x m (or_introl eq_refl))) as [a Ha].
      exact (Hno a Ha).
    + apply edge_lock_new. exact Hkey.
Qed.

Lemma head_filter_unique (f : cand -> bool) (l : list cand) (c : cand) :
  In c l -> f c = true -> (forall y, In y l -> f y = true -> y = c) ->
  head (filter f l) = Some c.
Proof.
  induction l as [| x l IH]; simpl; intros Hc Hfc Huniq; [destruct Hc |].
  destruct (f x) eqn:Ex.
  - simpl. f_equal. apply Huniq; [left; reflexivity | exact Ex].
  - destruct Hc as [-> | Hc]; [congruence |].
    apply IH; [exact Hc | exact Hfc |]. intros y Hy Hfy. apply Huniq; [right |]; assumption.
Qed.

(** What [find_condorcet_winner] guarantees about its answer. *)
Lemma find_condorcet_spec (b0 : ballot) (r : list ballot) (d : pdict) (c : cand) :
  tally_ballots (pd_init b0) (b0 :: r) = Ok d ->
  pd_keys d = pd_keys (pd_init b0) ->
  find_condorcet_winner (b0 :: r) = Ok (Some c) ->
  In c b0 /\ forall x, In x b0 -> x <> c -> pd_get d x c 0 < pd_get d c x 0.
Proof.
  intros Hd Hk Hf. unfold find_condorcet_winner, pairwise_matrix in Hf.
  rewrite Hd in Hf. unfold bind in Hf. rewrite Hk in Hf.
  destruct (pd_keys (pd_init b0)) as [| [a b] ks] eqn:EK; [discriminate |].
  injection Hf as Hf.
  assert (Hab : In (a, b) (pd_keys (pd_init b0))) by (rewrite EK; left; reflexivity).
  apply pd_init_keys_In in Hab as [Ha [Hb Hne]].
  assert (Hcands : forall x,
            In x (sort_nat (nodup Nat.eq_dec
                    (flat_map (fun p => [fst p; snd p]) ((a, b) :: ks)))) <-> In x b0).
  { intros x. split.
    - intros Hx. apply (Permutation_in _ (sort_nat_perm _)) in Hx.
      apply nodup_In, in_flat_map in Hx as [[p q] [Hpq Hx]].
      rewrite <- EK in Hpq. apply pd_init_keys_In in Hpq as [Hp [Hq _]].
      simpl in Hx. destruct Hx as [<- | [<- | []]]; assumption.
    - intros Hx. apply (Permutation_in _ (Permutation_sym (sort_nat_perm _))).
      apply nodup_In, in_flat_map.
      destruct (Nat.eq_dec x a) as [-> | Hxa].
      + exists (a, b). split; [left; reflexivity | left; reflexivity].
      + exists (x, a). split; [| left; reflexivity].
        rewrite <- EK. apply pd_init_keys_In. auto. }
  apply find_some in Hf as [Hin Hbeat]. apply Hcands in Hin.
  split; [exact Hin |]. intros x Hx Hxc.
  unfold beats_all in Hbeat. rewrite forallb_forall in Hbeat.
  specialize (Hbeat x (proj2 (Hcands x) Hx)).
  apply orb_true_iff in Hbeat as [E | E].
  - apply Nat.eqb_eq in E. congruence.
  - apply Nat.ltb_lt. exact E.
Qed.

(** ** Claim C1 *)

(** C1: on a well-formed BallotSet, whenever [find_condorcet_winner] returns
    a candidate [c], [ranked_pairs_winner] returns the same [c]. *)
Theorem ranked_pairs_condorcet (ballots : list ballot) (c : cand) :
  well_formedb ballots = true ->
  find_condorcet_winner ballots = Ok (Some c) ->
  ranked_pairs_winner ballots = Ok (Some c).
Proof.
  destruct ballots as [| b0 r]; intros Hwf Hf; [discriminate |].
  destruct (tally_well_formed b0 r Hwf) as [d [Hd [Hk _]]].
  destruct (find_condorcet_spec b0 r d c Hd Hk Hf) as [Hc Hbeat].
  unfold ranked_pairs_winner, ranked_pairs_pairs. rewrite Hd. unfold bind.
  set (ps := sort_pairs (victories b0 d)).
  destruct (dedup_first_spec b0) as [Hnd Hdd].
  destruct (lock_pairs_source ps (init_locked b0) c) as [Hno Hall].
  - intros a H. unfold edge in H. rewrite succs_init in H. destruct H.
  - intros a b m Hin ->. apply (Permutation_in _ (sort_pairs_perm _)) in Hin.
    apply victories_In in Hin as [Ha [_ [Hne Hlt]]].
    specialize (Hbeat a Ha Hne). lia.
  - rewrite init_keys. apply Hdd. exact Hc.
  - set (locked := lock_pairs ps (init_locked b0)) in *.
    assert (Hkeys : NoDup (map fst locked)).
    { unfold locked. rewrite lock_pairs_keys, init_keys. exact Hnd. }
    f_equal. apply head_filter_unique.
    + apply Hdd. exact Hc.
    + apply Nat.eqb_eq. apply count_incoming_edge; [exact Hkeys | exact Hno].
    + intros y Hy Hz. apply Nat.eqb_eq in Hz. apply Hdd in Hy.
      destruct (Nat.eq_dec y c) as [-> | Hyc]; [reflexivity | exfalso].
      destruct (victories_intro b0 d c y Hc Hy (not_eq_sym Hyc) (Hbeat y Hy Hyc))
        as [m Hm].
      apply (Permutation_in _ (Permutation_sym (sort_pairs_perm _))) in Hm.
      apply (proj1 (count_incoming_edge locked y Hkeys) Hz c).
      exact (Hall y m Hm).
Qed.

Lemma ranked_pairs_condorcet_witness :
  well_formedb [[0; 1; 2]; [0; 2; 1]; [1; 0; 2]; [2; 0; 1]; [2; 1; 0]] = true /\
  find_condorcet_winner [[0; 1; 2]; [0; 2; 1]; [1; 0; 2]; [2; 0; 1]; [2; 1; 0]] = Ok (Some 0) /\
  ranked_pairs_winner [[0; 1; 2]; [0; 2; 1]; [1; 0; 2]; [2; 0; 1]; [2; 1; 0]] = Ok (Some 0).
Proof.
  split; [reflexivity |]. split; [vm_compute; reflexivity |].
  apply ranked_pairs_condorcet; vm_compute; reflexivity.
Defined.

(** ** Claim C8 *)

Lemma dict_add_sum_scores (d : list (cand * Z)) (k : cand) (v : Z) :
  sum_scores (dict_add Z.add 0%Z d k v) = (sum_scores d + v)%Z.
Proof.
  induction d as [| [k' v'] d IH]; simpl; [lia |].
  destruct (Nat.eqb k' k); simpl; [lia | rewrite IH; lia].
Qed.

(** One ballot of length [L] scored from rank [rank] adds
    [L * (2M - 2 rank - L - 1) / 2] points. *)
Lemma borda_ballot_sum (M rank : Z) (b : ballot) (s : list (cand * Z)) :
  (2 * sum_scores (borda_ballot M rank b s) =
   2 * sum_scores s + Z.of_nat (length b) * (2 * M - 2 * rank - Z.of_nat (length b) - 1))%Z.
Proof.
  revert rank s. induction b as [| c b IH]; intros rank s;
    cbn [borda_ballot length]; [lia |].
  rewrite IH, dict_add_sum_scores. lia.
Qed.

Lemma borda_fold_sum (m : nat) (bs : list ballot) (s : list (cand * Z)) :
  Forall (fun b => length b = m) bs ->
  (2 * sum_scores (fold_left (fun s b => borda_ballot (Z.of_nat m) 0%Z b s) bs s) =
   2 * sum_scores s + Z.of_nat (length bs) * Z.of_nat m * (Z.of_nat m - 1))%Z.
Proof.
  revert s. induction bs as [| b bs IH]; intros s Hl;
    cbn [fold_left length]; [lia |].
  apply Forall_cons_iff in Hl as [Hb Hbs].
  rewrite IH by exact Hbs. rewrite borda_ballot_sum, Hb. lia.
Qed.

(** C8: for ballots that all rank [m] candidates, the Borda scores computed
    by [borda_winner] sum to [|ballots| * m * (m - 1) / 2]; the scores are
    computed for every such BallotSet except the empty one, on which
    [ballots[0]] raises IndexError. *)
Theorem borda_scores_total (ballots : list ballot) (m : nat) :
  Forall (fun b => length b = m) ballots ->
  match borda_scores ballots with
  | Ok scores =>
      sum_scores scores =
      (Z.of_nat (length ballots) * Z.of_nat m * (Z.of_nat m - 1) / 2)%Z
  | Err e => ballots = [] /\ e = IndexError
  end.
Proof.
  intros Hl. destruct ballots as [| b0 r]; [split; reflexivity |].
  pose proof (Forall_inv Hl) as Hb0. simpl in Hb0. subst m.
  unfold borda_scores. cbn [head0 bind].
  pose proof (borda_fold_sum (length b0) (b0 :: r) [] Hl) as H.
  cbn [sum_scores fold_right] in H. rewrite Z.mul_0_r, Z.add_0_l in H.
  rewrite <- H, Z.mul_comm, Z.div_mul by lia. reflexivity.
Qed.

Lemma borda_scores_total_witness :
  Forall (fun b => length b = 3) [[0; 1; 2]; [2; 1; 0]; [1; 0; 2]] /\
  sum_scores (match borda_scores [[0; 1; 2]; [2; 1; 0]; [1; 0; 2]] with
              | Ok s => s | Err _ => [] end) = 9%Z.
Proof.
  split; [repeat constructor |].
  pose proof (borda_scores_total [[0; 1; 2]; [2; 1; 0]; [1; 0; 2]] 3
                ltac:(repeat constructor)) as H.
  vm_compute in H. vm_compute. exact H.
Defined.

(** ** Claim C5 *)

(** C5 (counterexample): on the empty BallotSet only [ranked_pairs_winner]
    returns none; [plurality_winner] and [irv_winner] raise ValueError
    ([max]/[min] of an empty Counter) and [borda_winner] raises IndexError
    ([ballots[0]]). *)
Theorem rules_on_empty_ballots :
  plurality_winner [] = Err ValueError /\
  borda_winner [] = Err IndexError /\
  irv_winner [] = Err ValueError /\
  ranked_pairs_winner [] = Ok None.
Proof. repeat split; vm_compute; reflexivity. Qed.

(** ** IRV: keys of the tally, eliminations and termination *)

Lemma first_choices_heads (bs : list ballot) (cs : list cand) :
  first_choices bs = Ok cs -> forall c, In c cs -> exists b, In b bs /\ hd_error b = Some c.
Proof.
  revert cs. induction bs as [| b bs IH]; simpl; intros cs H c Hc.
  - injection H as <-. destruct Hc.
  - destruct b as [| x b]; [discriminate |]. simpl in H.
    destruct (first_choices bs) as [cs' |] eqn:E; [| discriminate].
    simpl in H. injection H as <-. destruct Hc as [<- | Hc].
    + exists (x :: b). split; [left |]; reflexivity.
    + destruct (IH cs' eq_refl c Hc) as [b' [Hb' Hh]]. exists b'. split; [right |]; assumption.
Qed.

Lemma first_choices_nonempty (bs : list ballot) :
  Forall (fun b => b <> []) bs -> first_choices bs = Ok (map (hd 0) bs).
Proof.
  induction bs as [| b bs IH]; simpl; intros H; [reflexivity |].
  apply Forall_cons_iff in H as [Hb Hbs].
  destruct b as [| x b]; [congruence |]. simpl. rewrite IH by exact Hbs. reflexivity.
Qed.

Lemma dict_add_keys {V} (add : V -> V -> V) (z : V) (d : list (cand * V)) (k c : cand) (v : V) :
  In k (map fst (dict_add add z d c v)) <-> In k (map fst d) \/ k = c.
Proof.
  induction d as [| [k' v'] d IH]; simpl.
  - intuition.
  - destruct (Nat.eqb k' c) eqn:E; simpl.
    + apply Nat.eqb_eq in E. subst. intuition.
    + rewrite IH. intuition.
Qed.

Lemma counter_keys (cs : list cand) (d : list (cand * nat)) (k : cand) :
  In k (map fst (fold_left (fun d c => dict_add Nat.add 0 d c 1) cs d)) <->
  In k (map fst d) \/ In k cs.
Proof.
  revert d. induction cs as [| c cs IH]; intros d; simpl.
  - intuition.
  - rewrite IH, dict_add_keys. intuition.
Qed.

(** Every key of [count_first_choices] is the first choice of some ballot. *)
Lemma count_first_choices_keys (bs : list ballot) (tally : list (cand * nat)) (k : cand) :
  count_first_choices bs = Ok tally -> In k (map fst tally) ->
  exists b, In b bs /\ hd_error b = Some k.
Proof.
  unfold count_first_choices. destruct (first_choices bs) as [cs |] eqn:E; [| discriminate].
  simpl. intros H Hk. injection H as <-.
  apply counter_keys in Hk as [[] | Hk]. exact (first_choices_heads bs cs E k Hk).
Qed.

Lemma min_key_In {V} (lt : V -> V -> bool) (d : list (cand * V)) (k : cand) :
  min_key lt d = Ok k -> In k (map fst d).
Proof.
  destruct d as [| [k0 v0] r]; simpl; [discriminate |]. intros H. injection H as <-.
  assert (Hacc : forall acc, In (fst (fold_left
            (fun acc kv => if lt (snd kv) (snd acc) then kv else acc) r acc))
            (fst acc :: map fst r)).
  { induction r as [| kv r IH]; intros acc; simpl; [left; reflexivity |].
    destruct (lt (snd kv) (snd acc)).
    - specialize (IH kv). simpl in IH. intuition.
    - specialize (IH acc). simpl in IH. intuition. }
  exact (Hacc (k0, v0)).
Qed.

Lemma filter_length_le {A} (f : A -> bool) (l : list A) : length (filter f l) <= length l.
Proof. induction l as [| x l IH]; simpl; [lia | destruct (f x); simpl; lia]. Qed.

Lemma filter_length_lt {A} (f : A -> bool) (l : list A) (x : A) :
  In x l -> f x = false -> length (filter f l) < length l.
Proof.
  induction l as [| y l IH]; simpl; intros Hx Hf; [destruct Hx |].
  destruct Hx as [-> | Hx].
  - rewrite Hf. pose proof (filter_length_le f l). lia.
  - destruct (f y); simpl; [| pose proof (filter_length_le f l)];
      specialize (IH Hx Hf); lia.
Qed.

Lemma remove_candidate_total_len (bs : list ballot) (x : cand) :
  total_len (remove_candidate bs x) <= total_len bs /\
  ((exists b, In b bs /\ In x b) -> total_len (remove_candidate bs x) < total_len bs).
Proof.
  unfold remove_candidate, total_len, ballot, cand.
  induction bs as [| b bs [IH1 IH2]]; cbn [map fold_right In].
  - split; [lia |]. intros [b [[] _]].
  - pose proof (filter_length_le (fun c => negb (Nat.eqb c x)) b). split; [lia |].
    intros [b' [[<- | Hb'] Hx]].
    + pose proof (filter_length_lt (fun c => negb (Nat.eqb c x)) b x Hx
                    ltac:(cbn beta; rewrite Nat.eqb_refl; reflexivity)). lia.
    + specialize (IH2 (ex_intro _ b' (conj Hb' Hx))). lia.
Qed.

(** A round that continues has eliminated a first choice, so the ballots
    lose at least one entry. *)
Lemma irv_round_shrinks (bs bs' : list ballot) :
  irv_round bs = Ok (inr bs') -> total_len bs' < total_len bs.
Proof.
  unfold irv_round. destruct (count_first_choices bs) as [tally |] eqn:Et; [| discriminate].
  simpl. destruct (find _ tally) as [[c v] |]; [discriminate |].
  destruct (min_key Nat.ltb tally) as [lowest |] eqn:Em; [| discriminate]. simpl.
  destruct (remove_candidate bs lowest) as [| b0 r] eqn:Er; [discriminate |]. simpl.
  destruct (Nat.eqb (length b0) 1); [destruct b0 as [| c b0]; discriminate |].
  intros H. injection H as <-. rewrite <- Er.
  destruct (count_first_choices_keys bs tally lowest Et (min_key_In _ _ _ Em)) as [b [Hb Hh]].
  apply (proj2 (remove_candidate_total_len bs lowest)). exists b. split; [exact Hb |].
  destruct b; simpl in Hh; [discriminate | injection Hh as ->; left; reflexivity].
Qed.

(** The loop of [irv_winner] ends within [total_len ballots + 1] rounds. *)
Lemma irv_loop_ends (n : nat) (bs : list ballot) :
  total_len bs < n -> exists r, irv_loop n bs = Some r.
Proof.
  revert bs. induction n as [| n IH]; intros bs Hn; [lia |]. simpl.
  destruct (irv_round bs) as [[w | bs'] | e] eqn:E; [eexists; reflexivity | | eexists; reflexivity].
  apply IH. apply irv_round_shrinks in E. lia.
Qed.

Lemma irv_loop_more (n k : nat) (bs : list ballot) (r : res (option cand)) :
  irv_loop n bs = Some r -> irv_loop (n + k) bs = Some r.
Proof.
  revert bs. induction n as [| n IH]; intros bs; simpl; [discriminate |].
  destruct (irv_round bs) as [[w | bs'] | e]; [tauto | apply IH | tauto].
Qed.

Lemma filter_remove_length (U : list cand) (x : cand) :
  NoDup U -> In x U -> length (filter (fun c => negb (Nat.eqb c x)) U) = length U - 1.
Proof.
  unfold cand. induction U as [| y U IH]; simpl; intros Hnd Hx; [destruct Hx |].
  inversion Hnd as [| ? ? Hy Hnd']; subst.
  destruct Hx as [-> | Hx].
  - rewrite Nat.eqb_refl. simpl.
    rewrite forallb_filter_id; [lia |]. apply forallb_forall. intros c Hc.
    destruct (Nat.eqb c x) eqn:E; [apply Nat.eqb_eq in E; subst; contradiction | reflexivity].
  - destruct (Nat.eqb y x) eqn:E; [apply Nat.eqb_eq in E; subst; contradiction |].
    simpl. rewrite IH by assumption. destruct U; [destruct Hx | simpl; lia].
Qed.

Lemma perm_filter_remove (b U : list cand) (x : cand) :
  NoDup U -> Permutation b U ->
  Permutation (filter (fun c => negb (Nat.eqb c x)) b) (filter (fun c => negb (Nat.eqb c x)) U).
Proof.
  intros Hnd Hp. apply NoDup_Permutation.
  - apply NoDup_filter. exact (Permutation_NoDup (Permutation_sym Hp) Hnd).
  - apply NoDup_filter. exact Hnd.
  - intros c. rewrite !filter_In. split; intros [Hc Hf]; split; try exact Hf.
    + exact (Permutation_in _ Hp Hc).
    + exact (Permutation_in _ (Permutation_sym Hp) Hc).
Qed.

Lemma counter_repeat (u n k : nat) :
  fold_left (fun d c => dict_add Nat.add 0 d c 1) (repeat u n) [(u, k)] = [(u, k + n)].
Proof.
  revert k. induction n as [| n IH]; intros k; simpl; [rewrite Nat.add_0_r; reflexivity |].
  rewrite Nat.eqb_refl, IH. f_equal. f_equal. lia.
Qed.

(** One round of IRV on ballots that all rank the same candidates [U]:
    either it returns a candidate of [U], or it eliminates one candidate
    [x] of [U] from every ballot, leaving ballots that rank the
    [length U - 1 >= 2] candidates of [U] other than [x]. *)
Lemma irv_round_wf (U : list cand) (bs : list ballot) :
  NoDup U -> bs <> [] -> U <> [] -> Forall (fun b => Permutation b U) bs ->
  (exists c, In c U /\ irv_round bs = Ok (inl (Some c))) \/
  (exists x, In x U /\ irv_round bs = Ok (inr (remove_candidate bs x)) /\
     2 <= length U - 1 /\
     length (filter (fun c => negb (Nat.eqb c x)) U) = length U - 1 /\
     Forall (fun b => Permutation b (filter (fun c => negb (Nat.eqb c x)) U))
       (remove_candidate bs x)).
Proof.
  intros Hnd Hbs HU Hperm.
  assert (Hne : Forall (fun b => b <> []) bs).
  { apply Forall_impl with (2 := Hperm). intros b Hp ->.
    apply Permutation_nil in Hp. congruence. }
  set (tally := fold_left (fun d c => dict_add Nat.add 0 d c 1) (map (hd 0) bs) []).
  assert (Hcount : count_first_choices bs = Ok tally).
  { unfold count_first_choices. rewrite first_choices_nonempty by exact Hne. reflexivity. }
  assert (Hkeys : forall k, In k (map fst tally) -> In k U).
  { intros k Hk. destruct (count_first_choices_keys bs tally k Hcount Hk) as [b [Hb Hh]].
    rewrite Forall_forall in Hperm. apply (Permutation_in _ (Hperm b Hb)).
    destruct b; simpl in Hh; [discriminate | injection Hh as ->; left; reflexivity]. }
  unfold irv_round. rewrite Hcount. cbn [bind].
  destruct (find (fun kv => Nat.ltb (sum_values tally) (2 * snd kv)) tally)
    as [[c v] |] eqn:Ef.
  { left. exists c. split; [| reflexivity].
    apply find_some in Ef as [Hin _]. apply Hkeys. apply (in_map fst _ _ Hin). }
  destruct bs as [| b1 bs']; [congruence |].
  assert (HU2 : 2 <= length U).
  { destruct U as [| u [| u' U']]; [congruence | | simpl; lia]. exfalso.
    assert (Hrep : map (hd 0) (b1 :: bs') = repeat u (length (b1 :: bs'))).
    { clear -Hperm. induction (b1 :: bs') as [| b bs IH]; [reflexivity |].
      apply Forall_cons_iff in Hperm as [Hb Hbs]. simpl.
      apply Permutation_sym, Permutation_length_1_inv in Hb. subst. rewrite IH by exact Hbs. reflexivity. }
    unfold tally in Ef. rewrite Hrep in Ef. simpl in Ef.
    rewrite counter_repeat in Ef. simpl in Ef.
    destruct (Nat.ltb _ _) eqn:El in Ef; [discriminate |].
    apply Nat.ltb_ge in El. lia. }
  destruct (min_key Nat.ltb tally) as [lowest |] eqn:Em.
  2:{ exfalso. unfold tally in Em. simpl in Em.
      destruct (fold_left _ _ _) as [| [k v] t] eqn:E; [| discriminate].
      assert (Hx : In (hd 0 b1) (map fst (@nil (cand * nat)))).
      { rewrite <- E. apply counter_keys. right. left. reflexivity. }
      destruct Hx. }
  assert (Hlow : In lowest U) by exact (Hkeys lowest (min_key_In _ _ _ Em)).
  cbn [bind]. unfold cand, ballot in *.
  set (bsr := remove_candidate (b1 :: bs') lowest).
  set (b0' := filter (fun c => negb (Nat.eqb c lowest)) b1).
  change (head0 bsr) with (@Ok (list nat) b0'). cbn [bind].
  assert (Hlen : length b0' = length U - 1).
  { etransitivity; [| exact (filter_remove_length U lowest Hnd Hlow)].
    apply Permutation_length, perm_filter_remove; [exact Hnd | exact (Forall_inv Hperm)]. }
  destruct (Nat.eqb (length b0') 1) eqn:E1.
  - left. apply Nat.eqb_eq in E1.
    assert (Hsub : forall c, In c b0' -> In c U).
    { intros c Hc. apply filter_In in Hc as [Hc _].
      exact (Permutation_in _ (Forall_inv Hperm) Hc). }
    clearbody b0'. destruct b0' as [| c [| ? ?]]; try (simpl in E1; discriminate).
    exists c. split; [apply Hsub; left; reflexivity | reflexivity].
  - right. apply Nat.eqb_neq in E1. rewrite Hlen in E1. exists lowest. split; [exact Hlow |]. split; [reflexivity |].
    split; [lia |]. split; [exact (filter_remove_length U lowest Hnd Hlow) |].
    unfold remove_candidate. apply Forall_map. apply Forall_impl with (2 := Hperm).
    intros b Hb. apply perm_filter_remove; assumption.
Qed.

Lemma irv_loop_wf (n : nat) (U : list cand) (bs : list ballot) :
  length U <= S n -> NoDup U -> bs <> [] -> U <> [] ->
  Forall (fun b => Permutation b U) bs ->
  exists c, In c U /\ irv_loop (Nat.max 1 (length U - 1)) bs = Some (Ok (Some c)).
Proof.
  revert U bs. induction n as [| n IH]; intros U bs HL Hnd Hbs HU Hperm;
    pose proof (irv_round_wf U bs Hnd Hbs HU Hperm) as Hround;
    unfold cand, ballot in *.
  - destruct Hround as [[c [Hc Hr]] | [x [_ [_ [H2 _]]]]]; [| lia].
    exists c. split; [exact Hc |].
    replace (Nat.max 1 (length U - 1)) with 1 by lia. simpl. rewrite Hr. reflexivity.
  - destruct Hround as [[c [Hc Hr]] | [x [Hx [Hr [H2 [Hlen Hperm']]]]]].
    + exists c. split; [exact Hc |].
      destruct (Nat.max 1 (length U - 1)) as [| k] eqn:Ek; [lia |].
      simpl. rewrite Hr. reflexivity.
    + set (U' := filter (fun c => negb (Nat.eqb c x)) U) in *.
      destruct (IH U' (remove_candidate bs x)) as [c [Hc Hloop]].
      * lia.
      * apply NoDup_filter. exact Hnd.
      * destruct bs; [congruence | discriminate].
      * intros E. rewrite E in Hlen. simpl in Hlen. lia.
      * exact Hperm'.
      * exists c. split; [apply filter_In in Hc as [Hc _]; exact Hc |].
        replace (Nat.max 1 (length U - 1)) with (S (Nat.max 1 (length U' - 1))) by lia.
        simpl. rewrite Hr. exact Hloop.
Qed.

(** ** Satisfaction scores *)

Lemma index_In (b : list cand) (w : cand) :
  In w b -> exists i, index b w = Ok i /\ i < length b.
Proof.
  induction b as [| y b IH]; simpl; intros Hw; [destruct Hw |].
  destruct (Nat.eqb y w) eqn:E; [exists 0; split; [reflexivity | lia] |].
  destruct Hw as [-> | Hw]; [rewrite Nat.eqb_refl in E; discriminate |].
  destruct (IH Hw) as [i [Hi Hlt]]. exists (S i). rewrite Hi. split; [reflexivity | lia].
Qed.

(** A voter's satisfaction [(n - 1 - rank) / (n - 1)] lies in [[0, 1]]. *)
Lemma satisfaction_term_range (n : Z) (rank : nat) :
  (2 <= n)%Z -> (Z.of_nat rank < n)%Z ->
  (0 <= inject_Z (n - 1 - Z.of_nat rank) / inject_Z (n - 1) <= 1)%Q.
Proof.
  intros Hn Hr.
  assert (Hpos : (0 < inject_Z (n - 1))%Q)
    by (change 0%Q with (inject_Z 0); rewrite <- Zlt_Qlt; lia).
  split.
  - apply Qle_shift_div_l; [exact Hpos |]. rewrite Qmult_0_l.
    change 0%Q with (inject_Z 0). rewrite <- Zle_Qle. lia.
  - apply Qle_shift_div_r; [exact Hpos |]. rewrite Qmult_1_l.
    rewrite <- Zle_Qle. lia.
Qed.

Lemma satisfaction_total_range (n : Z) (w : cand) (bs : list ballot) (total : Q) :
  (2 <= n)%Z ->
  (forall b, In b bs -> In w b /\ Z.of_nat (length b) = n) ->
  exists t, satisfaction_total n w bs total = Ok t /\
    (total <= t <= total + inject_Z (Z.of_nat (length bs)))%Q.
Proof.
  intros Hn. revert total. induction bs as [| b bs IH]; intros total Hall;
    cbn [satisfaction_total length].
  - exists total. split; [reflexivity |]. change (inject_Z (Z.of_nat 0)) with 0%Q. lra.
  - destruct (Hall b (or_introl eq_refl)) as [Hw Hlen].
    destruct (index_In b w Hw) as [rank [Hi Hlt]]. rewrite Hi. cbn [bind].
    replace (Z.eqb (n - 1) 0) with false by (symmetry; apply Z.eqb_neq; lia).
    pose proof (satisfaction_term_range n rank Hn ltac:(lia)) as Hq.
    destruct (IH (total + inject_Z (n - 1 - Z.of_nat rank) / inject_Z (n - 1))%Q
                (fun b' Hb' => Hall b' (or_intror Hb'))) as [t [Ht Hb]].
    exists t. split; [exact Ht |].
    rewrite Nat2Z.inj_succ, <- Z.add_1_r, inject_Z_plus. change (inject_Z 1) with 1%Q.
    lra.
Qed.

(** ** Claim C4 *)

(** C4 (the part the code meets): on a non-empty well-formed BallotSet
    over [m >= 2] candidates, for any rule evaluator that returns none or a
    candidate of the universe, [satisfaction_score] returns a value in
    [[0, 1]]. *)
Theorem satisfaction_score_in_unit
    (system_func : list ballot -> res (option cand)) (ballots : list ballot) :
  well_formedb ballots = true -> ballots <> [] -> 2 <= length (hd [] ballots) ->
  (system_func ballots = Ok None \/
   exists w, system_func ballots = Ok (Some w) /\ In w (hd [] ballots)) ->
  exists q, satisfaction_score system_func ballots = Ok q /\ (0 <= q <= 1)%Q.
Proof.
  destruct ballots as [| b0 r]; [congruence |]. intros Hwf _ Hm Hrule. simpl in Hm.
  destruct (well_formed_spec b0 r Hwf) as [_ Hall].
  unfold satisfaction_score. destruct Hrule as [-> | [w [-> Hw]]]; cbn [bind].
  - exists 0%Q. split; [reflexivity | lra].
  - assert (Hb : forall b, In b (b0 :: r) ->
               In w b /\ Z.of_nat (length b) = Z.of_nat (length b0)).
    { intros b Hin. destruct (Hall b Hin) as [_ [Hl Hc]]. simpl in Hw.
      split; [apply Hc; exact Hw | rewrite Hl; reflexivity]. }
    destruct (satisfaction_total_range (Z.of_nat (length b0)) w (b0 :: r) 0%Q
                ltac:(lia) Hb) as [t [Ht [H1 H2]]].
    rewrite Ht. cbn [bind].
    eexists. split; [reflexivity |].
    assert (Hpos : (0 < inject_Z (Z.of_nat (length (b0 :: r))))%Q).
    { change 0%Q with (inject_Z 0). rewrite <- Zlt_Qlt. simpl. lia. }
    split.
    + apply Qle_shift_div_l; [exact Hpos |]. rewrite Qmult_0_l. exact H1.
    + apply Qle_shift_div_r; [exact Hpos |]. rewrite Qmult_1_l. lra.
Qed.

Lemma satisfaction_score_in_unit_witness :
  exists q, satisfaction_score plurality_winner [[0; 1; 2]; [1; 0; 2]; [2; 1; 0]] = Ok q /\
    (0 <= q <= 1)%Q.
Proof.
  apply satisfaction_score_in_unit.
  - reflexivity.
  - discriminate.
  - simpl. lia.
  - right. exists 0. split; [vm_compute; reflexivity | simpl; auto].
Defined.

(** C4 (code bug): in a single-candidate election ([m = 1]) whose rule
    returns the sole candidate, [satisfaction_score] divides by
    [n - 1 = 0] and raises ZeroDivisionError instead of returning a value
    in [[0, 1]]. *)
Lemma satisfaction_single_candidate_raises :
  well_formedb [[0]] = true /\
  plurality_winner [[0]] = Ok (Some 0) /\
  satisfaction_score plurality_winner [[0]] = Err ZeroDivisionError.
Proof. repeat split; vm_compute; reflexivity. Qed.

(** ** The heap: reasoning rules *)

Lemma agree_refl (n : nat) (h : heap) : agree n h h.
Proof. intros l _. reflexivity. Qed.

Lemma agree_trans (n : nat) (h1 h2 h3 : heap) :
  agree n h1 h2 -> agree n h2 h3 -> agree n h1 h3.
Proof. intros H12 H23 l Hl. rewrite H23, H12 by exact Hl. reflexivity. Qed.

Lemma wp_conseq {A} (n : nat) (m : M A) (Q Q' : A -> heap -> Prop) (h : heap) :
  wp n m Q h -> (forall a h', Q a h' -> Q' a h') -> wp n m Q' h.
Proof.
  unfold wp. intros H HQ Hn. specialize (H Hn). destruct (m h) as [r h'].
  destruct H as [Ha [Hle Hq]]. split; [exact Ha |]. split; [exact Hle |].
  intros a Hr. apply HQ, Hq, Hr.
Qed.

Lemma wp_bind {A B} (n : nat) (m : M A) (k : A -> M B) (Q : B -> heap -> Prop) (h : heap) :
  wp n m (fun a h1 => wp n (k a) Q h1) h -> wp n (mbind m k) Q h.
Proof.
  unfold wp, mbind. intros H Hn. specialize (H Hn). destruct (m h) as [[a | e] h1].
  - destruct H as [Ha1 [Hle1 Hq]]. specialize (Hq a eq_refl ltac:(lia)).
    destruct (k a h1) as [r h2]. destruct Hq as [Ha2 [Hle2 Hq]].
    split; [exact (agree_trans _ _ _ _ Ha1 Ha2) |]. split; [lia | exact Hq].
  - destruct H as [Ha1 [Hle1 _]]. split; [exact Ha1 |]. split; [exact Hle1 |].
    intros a Ha. discriminate.
Qed.

Lemma wp_ret {A} (n : nat) (a : A) (Q : A -> heap -> Prop) (h : heap) :
  Q a h -> wp n (ret a) Q h.
Proof.
  unfold wp, ret. intros HQ _. split; [apply agree_refl |]. split; [lia |].
  intros a' H. injection H as <-. exact HQ.
Qed.

Lemma wp_lift {A} (n : nat) (r : res A) (Q : A -> heap -> Prop) (h : heap) :
  (forall a, r = Ok a -> Q a h) -> wp n (lift r) Q h.
Proof.
  unfold wp, lift. intros HQ _. split; [apply agree_refl |]. split; [lia | exact HQ].
Qed.

Lemma wp_getobj (n l : nat) (Q : list val -> heap -> Prop) (h : heap) :
  (forall vs, hobj h l = Some vs -> Q vs h) -> wp n (getobj l) Q h.
Proof.
  unfold wp, getobj. intros HQ _. destruct (hobj h l) as [vs |] eqn:E;
    (split; [apply agree_refl |]); (split; [lia |]); intros a Ha; [| discriminate].
  injection Ha as <-. apply HQ. reflexivity.
Qed.

Lemma wp_load (n root : nat) (Q : list ballot -> heap -> Prop) (h : heap) :
  (forall bs, read_ballots h root = Some bs -> Q bs h) -> wp n (load root) Q h.
Proof.
  unfold wp, load. intros HQ _. destruct (read_ballots h root) as [bs |] eqn:E;
    (split; [apply agree_refl |]); (split; [lia |]); intros a Ha; [| discriminate].
  injection Ha as <-. apply HQ. reflexivity.
Qed.

Lemma wp_alloc (n : nat) (vs : list val) (Q : nat -> heap -> Prop) (h : heap) :
  (forall h', hnext h' = S (hnext h) -> hobj h' (hnext h) = Some vs ->
     (forall l, l <> hnext h -> hobj h' l = hobj h l) -> Q (hnext h) h') ->
  wp n (alloc vs) Q h.
Proof.
  unfold wp, alloc. intros HQ Hn. cbn [hnext hobj]. split; [| split; [lia |]].
  - intros l Hl. cbn [hobj]. destruct (Nat.eqb l (hnext h)) eqn:E; [| reflexivity].
    apply Nat.eqb_eq in E. lia.
  - intros a Ha. injection Ha as <-. apply HQ; cbn [hnext hobj]; [reflexivity | |].
    + rewrite Nat.eqb_refl. reflexivity.
    + intros l Hl. apply Nat.eqb_neq in Hl. rewrite Hl. reflexivity.
Qed.

Lemma wp_setitem (n l i : nat) (v : val) (Q : unit -> heap -> Prop) (h : heap) :
  n <= l ->
  (forall h', hnext h' = hnext h -> (forall l', l' <> l -> hobj h' l' = hobj h l') -> Q tt h') ->
  wp n (setitem l i v) Q h.
Proof.
  intros Hl HQ. unfold setitem. apply wp_bind, wp_getobj. intros vs Hvs.
  destruct (Nat.ltb i (length vs)).
  - unfold wp. intros Hn. cbn [hnext hobj]. split; [| split; [lia |]].
    + intros l' Hl'. cbn [hobj]. destruct (Nat.eqb l' l) eqn:E; [| reflexivity].
      apply Nat.eqb_eq in E. lia.
    + intros a Ha. injection Ha as <-. apply HQ; [reflexivity |].
      intros l' Hl'. cbn [hobj]. apply Nat.eqb_neq in Hl'. rewrite Hl'. reflexivity.
  - apply wp_lift. discriminate.
Qed.

Lemma wp_reader {A} (n : nat) (f : list ballot -> res A) (root : nat) (h : heap) :
  wp n (reader f root) (fun _ _ => True) h.
Proof. unfold reader. apply wp_bind, wp_load. intros bs _. apply wp_lift. auto. Qed.

(** What a run that keeps the objects below [hnext h] does to a BallotSet. *)
Lemma read_ballots_agree (h h' : heap) (root : nat) :
  wf_heap h -> root < hnext h -> agree (hnext h) h h' ->
  read_ballots h' root = read_ballots h root.
Proof.
  intros Hwf Hroot Hag. unfold read_ballots. rewrite (Hag root Hroot).
  destruct (hobj h root) as [vs |] eqn:E; [| reflexivity].
  destruct (Hwf root vs E) as [_ Hrefs]. clear E.
  induction vs as [| v vs IH]; [reflexivity |]. cbn [read_all].
  rewrite IH by (intros l' Hl'; apply Hrefs; right; exact Hl').
  destruct v as [c | l]; [reflexivity |]. cbn [read_ballot].
  rewrite (Hag l (Hrefs l (or_introl eq_refl))). reflexivity.
Qed.

Lemma wp_preserves {A} (f : nat -> M A) :
  (forall root h, wp (hnext h) (f root) (fun _ _ => True) h) -> preserves f.
Proof.
  intros Hf h root Hwf Hroot. specialize (Hf root h (le_n _)).
  destruct (f root h) as [r h'] eqn:E. destruct Hf as [Hag _]. simpl.
  exact (read_ballots_agree h h' root Hwf Hroot Hag).
Qed.


(** [deepcopy] builds its lists above [N]: every ballot object of the copy
    is new. *)
Lemma wp_deepcopy_items (n N : nat) (vs : list val) (memo : list (nat * nat)) (h : heap) :
  n <= N -> N <= hnext h -> (forall p, In p memo -> N <= snd p) ->
  wp n (deepcopy_items vs memo)
     (fun items h' => N <= hnext h' /\ forall l, In (VRef l) items -> N <= l) h.
Proof.
  intros HnN. revert memo h. induction vs as [| v vs IH]; intros memo h HN Hmemo.
  - apply wp_ret. split; [exact HN | intros l []].
  - destruct v as [c | l]; cbn [deepcopy_items].
    + apply wp_bind. apply wp_conseq with (1 := IH memo h HN Hmemo).
      intros rest h1 [HN1 Hr]. apply wp_ret. split; [exact HN1 |].
      intros l [E | Hl]; [discriminate | exact (Hr l Hl)].
    + destruct (find (fun p => Nat.eqb (fst p) l) memo) as [[l0 l'] |] eqn:Ef.
      * apply find_some in Ef as [Hin _]. pose proof (Hmemo _ Hin) as Hl'. simpl in Hl'.
        apply wp_bind. apply wp_conseq with (1 := IH memo h HN Hmemo).
        intros rest h1 [HN1 Hr]. apply wp_ret. split; [exact HN1 |].
        intros l1 [E | Hl]; [injection E as <-; exact Hl' | exact (Hr l1 Hl)].
      * apply wp_bind, wp_getobj. intros inner _.
        apply wp_bind, wp_alloc. intros h1 Hn1 _ _.
        apply wp_bind.
        apply wp_conseq with (1 := IH ((l, hnext h) :: memo) h1 ltac:(lia)
                                   ltac:(intros p [<- | Hp]; [simpl; lia | exact (Hmemo p Hp)])).
        intros rest h2 [HN2 Hr]. apply wp_ret. split; [exact HN2 |].
        intros l1 [E | Hl]; [injection E as <-; exact HN | exact (Hr l1 Hl)].
Qed.

Lemma wp_deepcopy (n root : nat) (h : heap) :
  n <= hnext h ->
  wp n (deepcopy root)
     (fun c h' => exists items, hobj h' c = Some items /\
                  forall l, In (VRef l) items -> n <= l) h.
Proof.
  intros Hn. unfold deepcopy. apply wp_bind, wp_getobj. intros vs _.
  apply wp_bind.
  apply wp_conseq with (1 := wp_deepcopy_items n (hnext h) vs [] h Hn (le_n _)
                               ltac:(intros p [])).
  intros items h1 [HN1 Hr]. apply wp_alloc. intros h2 _ Hobj _.
  exists items. split; [exact Hobj |]. intros l Hl. specialize (Hr l Hl). lia.
Qed.

Section Monotonicity.

Variable system_func : nat -> M (option cand).

(** The rule evaluator keeps every object it was given. *)
Hypothesis system_func_frame :
  forall root n h, wp n (system_func root) (fun _ _ => True) h.

(** One trial swaps two entries of a ballot of the fresh copy only. *)
Lemma wp_mono_trial (n root : nat) (w : cand) (choice : nat) (h : heap) :
  n <= hnext h ->
  wp n (mono_trial system_func root w choice) (fun _ _ => True) h.
Proof.
  intros Hn. unfold mono_trial. apply wp_bind.
  apply wp_conseq with (1 := wp_deepcopy n root h Hn).
  intros b_copy h1 [items [Hobj Hrefs]].
  apply wp_bind, wp_load. intros bs _.
  apply wp_bind, wp_lift. intros idxs _.
  destruct idxs as [| i0 idxs]; [apply wp_ret; exact I |].
  apply wp_bind, wp_getobj. intros row Hrow. rewrite Hobj in Hrow. injection Hrow as <-.
  apply wp_bind, wp_lift. intros li Hli.
  assert (Hnl : n <= li).
  { unfold getitem in Hli.
    destruct (nth_error items _) as [v |] eqn:Ev; [| discriminate]. cbn [bind] in Hli.
    destruct v as [c | l]; [discriminate |]. injection Hli as <-.
    apply Hrefs. exact (nth_error_In _ _ Ev). }
  apply wp_bind, wp_getobj. intros ballot_vs _.
  apply wp_bind, wp_lift. intros pos _.
  apply wp_bind, wp_lift. intros x _.
  apply wp_bind, wp_lift. intros y _.
  apply wp_bind, wp_setitem; [exact Hnl |]. intros h2 _ _.
  apply wp_bind, wp_setitem; [exact Hnl |]. intros h3 _ _.
  apply wp_bind. apply wp_conseq with (1 := system_func_frame b_copy n h3).
  intros r h4 _. apply wp_ret. exact I.
Qed.

Lemma wp_mono_loop (rand : nat -> nat) (n root : nat) (w : cand) (fuel : nat) :
  forall it violations h,
  wp n (mono_loop system_func rand root w it fuel violations) (fun _ _ => True) h.
Proof.
  induction fuel as [| fuel IH]; intros it violations h; cbn [mono_loop].
  - apply wp_ret. exact I.
  - intros Hn. apply wp_bind; [| exact Hn].
    apply wp_conseq with (1 := wp_mono_trial n root w (rand it) h Hn).
    intros r h1 _. destruct r as [v |]; [apply IH | apply wp_ret; exact I].
Qed.

Lemma wp_monotonicity (n root : nat) (trials : Z) (rand : nat -> nat) (h : heap) :
  wp n (monotonicity_violation_rate system_func root trials rand) (fun _ _ => True) h.
Proof.
  unfold monotonicity_violation_rate. apply wp_bind, wp_getobj. intros vs _.
  destruct vs as [| v vs]; [apply wp_ret; exact I |].
  apply wp_bind. apply wp_conseq with (1 := system_func_frame root n h).
  intros ow h1 _. destruct ow as [w |]; [| apply wp_ret; exact I].
  apply wp_bind. apply wp_conseq with (1 := wp_mono_loop rand n root w _ 0 0 h1).
  intros p h2 _. apply wp_ret. exact I.
Qed.

End Monotonicity.

Lemma wp_irv_winner_h (n root : nat) (h : heap) :
  wp n (irv_winner_h root) (fun _ _ => True) h.
Proof.
  unfold irv_winner_h, list_copy. apply wp_bind, wp_bind, wp_getobj. intros vs _.
  apply wp_alloc. intros h1 _ _ _. apply wp_reader.
Qed.

(** ** Claim C10 *)

(** C10: no rule evaluator or fairness metric changes the BallotSet its
    caller holds: after [plurality_winner], [borda_winner], [irv_winner],
    [ranked_pairs_winner], [pairwise_matrix], [find_condorcet_winner],
    [satisfaction_score], [condorcet_compliance] or
    [monotonicity_violation_rate] (with any of the four rules, any trial
    count and any random draws) the object [ballots] holds the BallotSet it
    held before, whether the call returned or raised. The promotion swap of
    [monotonicity_violation_rate] writes only to ballots of its deep copy. *)
Theorem ballots_not_mutated :
  preserves plurality_winner_h /\ preserves borda_winner_h /\
  preserves irv_winner_h /\ preserves ranked_pairs_winner_h /\
  preserves pairwise_matrix_h /\ preserves find_condorcet_winner_h /\
  (forall system_func : list ballot -> res (option cand),
     preserves (satisfaction_score_h system_func) /\
     preserves (condorcet_compliance_h system_func)) /\
  (forall (trials : Z) (rand : nat -> nat),
     preserves (fun ballots => monotonicity_violation_rate plurality_winner_h ballots trials rand) /\
     preserves (fun ballots => monotonicity_violation_rate borda_winner_h ballots trials rand) /\
     preserves (fun ballots => monotonicity_violation_rate irv_winner_h ballots trials rand) /\
     preserves (fun ballots => monotonicity_violation_rate ranked_pairs_winner_h ballots trials rand)).
Proof.
  assert (Hr : forall A (f : list ballot -> res A), preserves (reader f)).
  { intros A f. apply wp_preserves. intros root h. apply wp_reader. }
  repeat split; try apply Hr.
  - apply wp_preserves. intros root h. apply wp_irv_winner_h.
  - apply wp_preserves. intros root h. apply wp_monotonicity. intros r n h'. apply wp_reader.
  - apply wp_preserves. intros root h. apply wp_monotonicity. intros r n h'. apply wp_reader.
  - apply wp_preserves. intros root h. apply wp_monotonicity. intros r n h'. apply wp_irv_winner_h.
  - apply wp_preserves. intros root h. apply wp_monotonicity. intros r n h'. apply wp_reader.
Qed.

(** ** Claim C9 *)

Lemma mono_loop_iterations (system_func : nat -> M (option cand)) (rand : nat -> nat)
    (root : nat) (w : cand) (fuel : nat) :
  forall it violations h v it' h',
  mono_loop system_func rand root w it fuel violations h = (Ok (v, it'), h') ->
  it' <= it + fuel.
Proof.
  induction fuel as [| fuel IH]; intros it violations h v it' h'; cbn [mono_loop];
    unfold ret, mbind.
  - intros H. injection H as _ <- _. lia.
  - destruct (mono_trial system_func root w (rand it) h) as [[[b |] | e] h1].
    + intros H. apply IH in H. lia.
    + intros H. injection H as _ <- _. lia.
    + discriminate.
Qed.

(** C9: when the BallotSet is non-empty and the rule returns a winner,
    [monotonicity_violation_rate] returns the violations its loop counted
    divided by the requested [trials >= 1], whatever the random draws; the
    loop may have performed fewer iterations ([it <= trials]), for instance
    when it breaks because no ballot ranks the winner below first place. *)
Theorem monotonicity_rate_divides_by_trials
    (system_func : nat -> M (option cand)) (rand : nat -> nat) (ballots : nat)
    (trials : Z) (h h1 h2 : heap) (first : val) (rest : list val) (w : cand)
    (violations it : nat) :
  (1 <= trials)%Z ->
  hobj h ballots = Some (first :: rest) ->
  system_func ballots h = (Ok (Some w), h1) ->
  mono_loop system_func rand ballots w 0 (Z.to_nat trials) 0 h1 = (Ok (violations, it), h2) ->
  monotonicity_violation_rate system_func ballots trials rand h =
    (Ok (inject_Z (Z.of_nat violations) / inject_Z trials)%Q, h2) /\
  it <= Z.to_nat trials.
Proof.
  intros Ht Hobj Hrule Hloop. split.
  - unfold monotonicity_violation_rate, mbind, getobj, ret.
    rewrite Hobj, Hrule, Hloop. cbn [fst]. rewrite Z.max_r by exact Ht. reflexivity.
  - apply mono_loop_iterations in Hloop. lia.
Qed.

(** On [[0, 1], [0, 1]] plurality elects 0, which every ballot already ranks
    first: the loop breaks at once, after 0 of the 4 requested trials. *)
Lemma monotonicity_rate_divides_by_trials_witness :
  fst (mono_loop plurality_winner_h (fun _ => 0) 0 0 0 4 0 unanimous_heap) = Ok (0, 0) /\
  fst (monotonicity_violation_rate plurality_winner_h 0 4 (fun _ => 0) unanimous_heap) =
    Ok (inject_Z 0 / inject_Z 4)%Q.
Proof.
  split; [vm_compute; reflexivity |].
  destruct (monotonicity_rate_divides_by_trials plurality_winner_h (fun _ => 0) 0 4
              unanimous_heap unanimous_heap
              (snd (mono_loop plurality_winner_h (fun _ => 0) 0 0 0 4 0 unanimous_heap))
              (VRef 1) [VRef 2] 0 0 0
              ltac:(lia) eq_refl ltac:(vm_compute; reflexivity)
              ltac:(rewrite (surjective_pairing (mono_loop _ _ _ _ _ _ _ _)); vm_compute; reflexivity))
    as [H _].
  rewrite H. reflexivity.
Defined.

(** ** Further properties of the code *)

(** *** Counters and plain dicts: keys and values *)

Lemma dict_add_fst {V} (add : V -> V -> V) (z : V) (d : list (cand * V)) (k : cand) (v : V) :
  map fst (dict_add add z d k v) = dedup_step (map fst d) k.
Proof.
  unfold dedup_step. induction d as [| [k' v'] d IH]; simpl; [reflexivity |].
  destruct (Nat.eqb k' k) eqn:E; simpl.
  - apply Nat.eqb_eq in E. subst. rewrite Nat.eqb_refl. reflexivity.
  - rewrite IH. rewrite Nat.eqb_sym, E. simpl. destruct (memb k (map fst d)); reflexivity.
Qed.

Lemma dict_add_count_at (d : list (cand * nat)) (k x : cand) (v : nat) :
  count_at (dict_add Nat.add 0 d k v) x = count_at d x + (if Nat.eqb k x then v else 0).
Proof.
  unfold count_at. induction d as [| [k' v'] d IH]; simpl.
  - destruct (Nat.eqb k x); lia.
  - destruct (Nat.eqb k' k) eqn:E; simpl.
    + apply Nat.eqb_eq in E. subst. destruct (Nat.eqb k x); lia.
    + rewrite IH. lia.
Qed.

Lemma dict_add_sum_values (d : list (cand * nat)) (k : cand) (v : nat) :
  sum_values (dict_add Nat.add 0 d k v) = sum_values d + v.
Proof.
  unfold sum_values. induction d as [| [k' v'] d IH]; simpl; [lia |].
  destruct (Nat.eqb k' k); simpl; [lia | rewrite IH; lia].
Qed.

Lemma counter_spec (cs : list cand) (d : list (cand * nat)) :
  map fst (counter cs d) = fold_left dedup_step cs (map fst d) /\
  (forall x, count_at (counter cs d) x = count_at d x + count_occ Nat.eq_dec cs x) /\
  sum_values (counter cs d) = sum_values d + length cs.
Proof.
  unfold counter. revert d. induction cs as [| c cs IH]; intros d; simpl.
  - repeat split; intros; lia.
  - destruct (IH (dict_add Nat.add 0 d c 1)) as [H1 [H2 H3]].
    rewrite dict_add_fst in H1. repeat split.
    + exact H1.
    + intros x. rewrite H2, dict_add_count_at.
      destruct (Nat.eq_dec c x) as [-> | Hne].
      * rewrite Nat.eqb_refl. lia.
      * apply Nat.eqb_neq in Hne. rewrite Hne. lia.
    + rewrite H3, dict_add_sum_values. lia.
Qed.

Lemma count_at_In (d : list (cand * nat)) (k : cand) (v : nat) :
  NoDup (map fst d) -> In (k, v) d -> count_at d k = v.
Proof.
  unfold count_at. induction d as [| [k' v'] d IH]; simpl; intros Hnd Hin; [destruct Hin |].
  inversion Hnd as [| ? ? Hk Hnd']; subst.
  destruct Hin as [E | Hin].
  - injection E as <- <-. rewrite Nat.eqb_refl.
    assert (Z : forall d', ~ In k' (map fst d') ->
              fold_right (fun kv s => (if Nat.eqb (fst kv) k' then snd kv else 0) + s) 0 d' = 0).
    { induction d' as [| [a b] d' IHd]; simpl; intros H; [reflexivity |].
      destruct (Nat.eqb a k') eqn:E; [apply Nat.eqb_eq in E; intuition |].
      apply IHd. intuition. }
    rewrite Z by exact Hk. lia.
  - destruct (Nat.eqb k' k) eqn:E.
    + apply Nat.eqb_eq in E. subst. exfalso. apply Hk. apply in_map_iff. exists (k, v). auto.
    + rewrite IH; auto.
Qed.

Lemma first_choices_map (bs : list ballot) :
  Forall (fun b => b <> []) bs ->
  forall x, count_occ Nat.eq_dec (map (hd 0) bs) x = first_count bs x.
Proof.
  unfold first_count. induction bs as [| b bs IH]; simpl; intros H x; [reflexivity |].
  apply Forall_cons_iff in H as [Hb Hbs].
  destruct b as [| c b]; [congruence |]. simpl.
  destruct (Nat.eq_dec c x) as [-> | Hne].
  - rewrite Nat.eqb_refl. simpl. rewrite IH by exact Hbs. reflexivity.
  - apply Nat.eqb_neq in Hne as Hne'. rewrite Hne'. apply IH. exact Hbs.
Qed.

Lemma first_count_heads (bs : list ballot) (x : cand) :
  (exists b, In b bs /\ hd_error b = Some x) <-> 0 < first_count bs x.
Proof.
  unfold first_count. induction bs as [| b bs IH]; simpl.
  - split; [intros [b [[] _]] | lia].
  - destruct b as [| c b]; simpl.
    + rewrite <- IH. split.
      * intros [b' [[<- | Hb] Hh]]; [discriminate | eauto].
      * intros [b' [Hb Hh]]. eauto.
    + destruct (Nat.eqb c x) eqn:E; simpl.
      * apply Nat.eqb_eq in E. subst. split; [lia |]. intros _. exists (x :: b). auto.
      * rewrite <- IH. split.
        -- intros [b' [[<- | Hb] Hh]]; [| eauto]. simpl in Hh. injection Hh as ->.
           rewrite Nat.eqb_refl in E. discriminate.
        -- intros [b' [Hb Hh]]. eauto.
Qed.

Lemma first_count_sum (bs : list ballot) (x y : cand) :
  x <> y -> first_count bs x + first_count bs y <= length bs.
Proof.
  unfold first_count. intros Hne. induction bs as [| b bs IH]; simpl; [lia |].
  destruct b as [| c b]; [lia |].
  destruct (Nat.eqb c x) eqn:E1; destruct (Nat.eqb c y) eqn:E2; simpl;
    try lia.
  apply Nat.eqb_eq in E1, E2. exfalso. apply Hne. rewrite <- E1, <- E2. reflexivity.
Qed.

(** What [count_first_choices] returns on ballots that are all non-empty. *)
Lemma count_first_choices_spec (bs : list ballot) :
  Forall (fun b => b <> []) bs ->
  exists tally, count_first_choices bs = Ok tally /\
    NoDup (map fst tally) /\
    (forall k, In k (map fst tally) <-> 0 < first_count bs k) /\
    (forall k v, In (k, v) tally -> v = first_count bs k) /\
    sum_values tally = length bs.
Proof.
  intros Hne. unfold count_first_choices. rewrite first_choices_nonempty by exact Hne.
  simpl. eexists. split; [reflexivity |].
  destruct (counter_spec (map (hd 0) bs) []) as [H1 [H2 H3]].
  fold (counter (map (hd 0) bs) []). simpl in H1. fold (dedup_first (map (hd 0) bs)) in H1.
  destruct (dedup_first_spec (map (hd 0) bs)) as [Hnd Hin].
  rewrite H1. split; [exact Hnd |]. split; [| split].
  - intros k. rewrite Hin, <- first_count_heads. split.
    + intros Hk. apply in_map_iff in Hk as [b [<- Hb]].
      rewrite Forall_forall in Hne. specialize (Hne b Hb).
      destruct b as [| c b]; [exfalso; apply Hne; reflexivity |]. exists (c :: b). auto.
    + intros [b [Hb Hh]]. apply in_map_iff. exists b. split; [| exact Hb].
      destruct b; [discriminate |]. simpl in Hh. injection Hh as ->. reflexivity.
  - intros k v Hkv. rewrite <- (count_at_In _ k v) by (rewrite ?H1; assumption).
    rewrite H2. simpl. apply first_choices_map. exact Hne.
  - rewrite H3, length_map. reflexivity.
Qed.

(** A round of IRV on ballots that all rank the same candidates [U]:
    a strict first-choice majority is returned; otherwise one candidate is
    eliminated from every ballot, and either the sole remaining candidate
    is returned or the loop continues on ballots ranking at least two. *)
Lemma irv_round_cases (U : list cand) (bs : list ballot) :
  NoDup U -> bs <> [] -> U <> [] -> Forall (fun b => Permutation b U) bs ->
  (exists c, In c U /\ length bs < 2 * first_count bs c /\ irv_round bs = Ok (inl (Some c))) \/
  (exists x c, In x U /\ filter (fun c => negb (Nat.eqb c x)) U = [c] /\
     Forall (fun b => b = [c]) (remove_candidate bs x) /\ irv_round bs = Ok (inl (Some c))) \/
  (exists x, In x U /\ irv_round bs = Ok (inr (remove_candidate bs x)) /\
     2 <= length U - 1 /\
     length (filter (fun c => negb (Nat.eqb c x)) U) = length U - 1 /\
     Forall (fun b => Permutation b (filter (fun c => negb (Nat.eqb c x)) U))
       (remove_candidate bs x)).
Proof.
  intros Hnd Hbs HU Hperm.
  assert (Hne : Forall (fun b => b <> []) bs).
  { apply Forall_impl with (2 := Hperm). intros b Hp ->.
    apply Permutation_nil in Hp. congruence. }
  destruct (count_first_choices_spec bs Hne) as [tally [Hcount [_ [Hkeys [Hval Hsum]]]]].
  assert (HkU : forall k, In k (map fst tally) -> In k U).
  { intros k Hk. destruct (count_first_choices_keys bs tally k Hcount Hk) as [b [Hb Hh]].
    rewrite Forall_forall in Hperm. apply (Permutation_in _ (Hperm b Hb)).
    destruct b; simpl in Hh; [discriminate | injection Hh as ->; left; reflexivity]. }
  destruct (irv_round_wf U bs Hnd Hbs HU Hperm) as [[c [Hc Hr]] | [x [Hx [Hr Hrest]]]].
  2:{ right. right. exists x. split; [exact Hx |]. split; [exact Hr | exact Hrest]. }
  pose proof Hr as Hr'. unfold irv_round in Hr'. rewrite Hcount in Hr'. cbn [bind] in Hr'.
  match type of Hr' with context [find ?f tally] =>
    destruct (find f tally) as [[c' v] |] eqn:Ef end.
  { left. injection Hr' as ->. apply find_some in Ef as [Hin Hlt]. simpl in Hlt.
    apply Nat.ltb_lt in Hlt.
    exists c. split; [exact Hc |]. split; [| exact Hr].
    rewrite <- Hsum, <- (Hval c v Hin). exact Hlt. }
  right. left.
  destruct (min_key Nat.ltb tally) as [lowest |] eqn:Em; [| discriminate].
  assert (Hlow : In lowest U) by exact (HkU lowest (min_key_In _ _ _ Em)).
  destruct bs as [| b1 bs']; [congruence |].
  cbn [bind] in Hr'. unfold cand, ballot in *.
  set (b0' := filter (fun c => negb (Nat.eqb c lowest)) b1) in *.
  change (head0 (remove_candidate (b1 :: bs') lowest)) with (@Ok (list nat) b0') in Hr'.
  cbn [bind] in Hr'.
  set (U' := filter (fun c => negb (Nat.eqb c lowest)) U).
  assert (HpU : Forall (fun b => Permutation b U') (remove_candidate (b1 :: bs') lowest)).
  { unfold remove_candidate. apply Forall_map. apply Forall_impl with (2 := Hperm).
    intros b Hb. apply perm_filter_remove; assumption. }
  assert (Hb0' : Permutation b0' U') by exact (Forall_inv HpU).
  destruct (Nat.eqb (length b0') 1) eqn:E1; [| discriminate].
  apply Nat.eqb_eq in E1.
  clearbody b0'. destruct b0' as [| c'' [| ? ?]]; try (simpl in E1; discriminate).
  cbn [head0 bind] in Hr'. injection Hr' as ->.
  assert (EU : U' = [c]) by exact (Permutation_length_1_inv Hb0').
  exists lowest, c. split; [exact Hlow |]. split; [exact EU |]. split; [| exact Hr].
  apply Forall_impl with (2 := HpU). intros b Hb. rewrite EU in Hb.
  apply Permutation_sym, Permutation_length_1_inv in Hb. exact Hb.
Qed.


Lemma max_key_spec {V} (lt : V -> V -> bool) (d : list (cand * V)) (k : cand) :
  (forall a, lt a a = false) ->
  (forall a b c, lt a b = true -> lt b c = true -> lt a c = true) ->
  max_key lt d = Ok k ->
  exists v, In (k, v) d /\ forall kv, In kv d -> lt v (snd kv) = false.
Proof.
  intros Hirr Htr. destruct d as [| [k0 v0] r]; simpl; [discriminate |]. intros H.
  injection H as Hk.
  assert (Hinv : forall r0 : list (cand * V), forall acc (S : list (cand * V)),
            (forall x, In x S -> lt (snd acc) (snd x) = false) ->
            let res := fold_left (fun acc kv => if lt (snd acc) (snd kv) then kv else acc) r0 acc in
            (res = acc \/ In res r0) /\ forall x, In x (S ++ r0) -> lt (snd res) (snd x) = false).
  { clear Hk. intros r0. induction r0 as [| kv r0 IH]; intros acc S HS; simpl.
    - split; [left; reflexivity |]. intros x Hx. rewrite app_nil_r in Hx. auto.
    - destruct (lt (snd acc) (snd kv)) eqn:E.
      + destruct (IH kv (S ++ [kv])) as [H1 H2].
        * intros x Hx. apply in_app_iff in Hx as [Hx | [<- | []]]; [| apply Hirr].
          destruct (lt (snd kv) (snd x)) eqn:E2; [| reflexivity].
          specialize (HS x Hx). rewrite (Htr _ _ _ E E2) in HS. discriminate.
        * split; [destruct H1 as [-> | H1]; right; [left; reflexivity | right; exact H1] |].
          intros x Hx. apply H2. rewrite <- app_assoc. exact Hx.
      + destruct (IH acc (S ++ [kv])) as [H1 H2].
        * intros x Hx. apply in_app_iff in Hx as [Hx | [<- | []]]; [auto | exact E].
        * split; [destruct H1 as [-> | H1]; [left; reflexivity | right; right; exact H1] |].
          intros x Hx. apply H2. rewrite <- app_assoc. exact Hx. }
  destruct (Hinv r (k0, v0) [(k0, v0)]) as [H1 H2].
  { intros x [<- | []]. apply Hirr. }
  set (res := fold_left _ r (k0, v0)) in *. destruct res as [kr vr]. simpl in Hk. subst kr.
  exists vr. split.
  - destruct H1 as [E | H1]; [injection E as -> ->; left; reflexivity | right; exact H1].
  - intros kv Hkv. apply (H2 kv). exact Hkv.
Qed.

Lemma first_choices_Ok (bs : list ballot) (cs : list cand) :
  first_choices bs = Ok cs -> Forall (fun b => b <> []) bs.
Proof.
  revert cs. induction bs as [| b bs IH]; simpl; intros cs H; [constructor |].
  destruct b as [| x b]; [discriminate |]. simpl in H.
  destruct (first_choices bs) as [cs' |] eqn:E; [| discriminate].
  constructor; [discriminate | exact (IH cs' eq_refl)].
Qed.

Lemma first_choices_empty (bs : list ballot) :
  In [] bs -> first_choices bs = Err IndexError.
Proof.
  induction bs as [| b bs IH]; simpl; intros H; [destruct H |].
  destruct H as [-> | H]; [reflexivity |].
  rewrite (IH H). destruct b; reflexivity.
Qed.

(** The plurality winner has the largest first-choice count. *)
Lemma plurality_max (bs : list ballot) (w : cand) :
  plurality_winner bs = Ok (Some w) ->
  0 < first_count bs w /\ forall c, first_count bs c <= first_count bs w.
Proof.
  unfold plurality_winner. intros H.
  destruct (count_first_choices bs) as [tally |] eqn:Et; [| discriminate].
  assert (Hne : Forall (fun b => b <> []) bs).
  { unfold count_first_choices in Et.
    destruct (first_choices bs) as [cs |] eqn:E; [| discriminate]. exact (first_choices_Ok bs cs E). }
  destruct (count_first_choices_spec bs Hne) as [t [Et' [Hnd [Hkeys [Hval _]]]]].
  rewrite Et in Et'. injection Et' as <-. simpl in H.
  destruct (max_key Nat.ltb tally) as [w' |] eqn:Em; [| discriminate].
  injection H as <-.
  destruct (max_key_spec Nat.ltb tally w' Nat.ltb_irrefl
              (fun a b c H1 H2 => proj2 (Nat.ltb_lt a c)
                 (Nat.lt_trans _ _ _ (proj1 (Nat.ltb_lt _ _) H1) (proj1 (Nat.ltb_lt _ _) H2))) Em)
    as [v [Hin Hmax]].
  pose proof (Hval _ _ Hin) as Hv. subst v.
  split.
  - apply Hkeys. apply in_map_iff. exists (w', first_count bs w'). auto.
  - intros c. destruct (first_count bs c) as [| n] eqn:Ec; [lia |].
    assert (Hc : In c (map fst tally)) by (apply Hkeys; lia).
    apply in_map_iff in Hc as [[c' v'] [Ec' Hc']]. simpl in Ec'. subst c'.
    pose proof (Hval _ _ Hc') as Hv'. specialize (Hmax _ Hc'). simpl in Hmax.
    apply Nat.ltb_ge in Hmax. lia.
Qed.

(** A candidate ranked first on more than half of the ballots wins the
    first IRV round. *)
Lemma irv_round_majority (bs : list ballot) (c : cand) :
  Forall (fun b => b <> []) bs -> length bs < 2 * first_count bs c ->
  irv_round bs = Ok (inl (Some c)).
Proof.
  intros Hne Hmaj. unfold irv_round.
  destruct (count_first_choices_spec bs Hne) as [t [Et [Hnd [Hkeys [Hval Hsum]]]]].
  rewrite Et. cbn [bind]. rewrite Hsum.
  destruct (find _ t) as [[k v] |] eqn:Ef.
  - apply find_some in Ef as [Hin Hp]. simpl in Hp. apply Nat.ltb_lt in Hp.
    rewrite (Hval _ _ Hin) in Hp.
    destruct (Nat.eq_dec k c) as [-> | Hkc]; [reflexivity |].
    pose proof (first_count_sum bs k c Hkc). lia.
  - exfalso.
    assert (Hc : In c (map fst t)) by (apply Hkeys; lia).
    apply in_map_iff in Hc as [[c' v'] [Ec' Hc']]. simpl in Ec'. subst c'.
    pose proof (find_none _ _ Ef _ Hc') as H. simpl in H. apply Nat.ltb_ge in H.
    rewrite (Hval _ _ Hc') in H. lia.
Qed.

Lemma plurality_majority (bs : list ballot) (c : cand) :
  Forall (fun b => b <> []) bs -> length bs < 2 * first_count bs c ->
  plurality_winner bs = Ok (Some c).
Proof.
  intros Hne Hmaj.
  destruct (count_first_choices_spec bs Hne) as [t [Et [Hnd [Hkeys [Hval Hsum]]]]].
  assert (Hc : In c (map fst t)) by (apply Hkeys; lia).
  destruct t as [| [k0 v0] t']; [destruct Hc |].
  assert (Hw : exists w, plurality_winner bs = Ok (Some w)).
  { unfold plurality_winner. rewrite Et. simpl. eexists. reflexivity. }
  destruct Hw as [w Hw]. rewrite Hw.
  destruct (plurality_max bs w Hw) as [_ Hmax].
  destruct (Nat.eq_dec w c) as [-> | Hwc]; [reflexivity |].
  pose proof (first_count_sum bs w c Hwc). specialize (Hmax c). lia.
Qed.


Lemma dict_add_score_at (d : list (cand * Z)) (k x : cand) (v : Z) :
  score_at (dict_add Z.add 0%Z d k v) x = (score_at d x + if Nat.eqb k x then v else 0)%Z.
Proof.
  unfold score_at. induction d as [| [k' v'] d IH]; simpl.
  - destruct (Nat.eqb k x); lia.
  - destruct (Nat.eqb k' k) eqn:E; simpl.
    + apply Nat.eqb_eq in E. subst. destruct (Nat.eqb k x); lia.
    + rewrite IH. lia.
Qed.

Lemma score_at_absent (d : list (cand * Z)) (x : cand) :
  ~ In x (map fst d) -> score_at d x = 0%Z.
Proof.
  unfold score_at. induction d as [| [k v] d IH]; simpl; intros H; [reflexivity |].
  destruct (Nat.eqb k x) eqn:E; [apply Nat.eqb_eq in E; intuition |].
  rewrite IH by intuition. reflexivity.
Qed.

(** Two dicts with the same keys in the same order, none repeated, and the
    same value at every key, are equal. *)
Lemma dict_ext (d1 d2 : list (cand * Z)) :
  map fst d1 = map fst d2 -> NoDup (map fst d1) ->
  (forall x, score_at d1 x = score_at d2 x) -> d1 = d2.
Proof.
  revert d2. induction d1 as [| [k1 v1] d1 IH]; intros [| [k2 v2] d2]; simpl;
    intros Hk Hnd Hv; try discriminate; [reflexivity |].
  injection Hk as <- Hk. inversion Hnd as [| ? ? Hn1 Hnd1]; subst.
  assert (Hn2 : ~ In k1 (map fst d2)) by (rewrite <- Hk; exact Hn1).
  assert (Hv1 := Hv k1). unfold score_at in Hv1. simpl in Hv1. rewrite Nat.eqb_refl in Hv1.
  fold (score_at d1 k1) (score_at d2 k1) in Hv1.
  rewrite (score_at_absent d1 k1 Hn1), (score_at_absent d2 k1 Hn2) in Hv1.
  assert (E : v1 = v2) by lia. subst v2. f_equal. apply IH; [exact Hk | exact Hnd1 |].
  intros x. specialize (Hv x). unfold score_at in Hv |- *. simpl in Hv.
  destruct (Nat.eqb k1 x); lia.
Qed.

(** *** The Borda score dict *)

Lemma borda_ballot_spec (m : Z) (b : ballot) :
  forall i s,
  map fst (borda_ballot m (Z.of_nat i) b s) = fold_left dedup_step b (map fst s) /\
  forall x, score_at (borda_ballot m (Z.of_nat i) b s) x =
            (score_at s x + points (fun j => m - Z.of_nat j - 1) i b x)%Z.
Proof.
  induction b as [| c b IH]; intros i s; simpl.
  - split; [reflexivity | intros x; lia].
  - replace (Z.of_nat i + 1)%Z with (Z.of_nat (S i)) by lia.
    destruct (IH (S i) (dict_add Z.add 0%Z s c (m - Z.of_nat i - 1)%Z)) as [H1 H2].
    split.
    + rewrite H1, dict_add_fst. reflexivity.
    + intros x. rewrite H2, dict_add_score_at. lia.
Qed.

Lemma borda_fold_spec (m : Z) (bs : list ballot) :
  forall s,
  map fst (fold_left (fun s b => borda_ballot m 0%Z b s) bs s) =
    fold_left dedup_step (concat bs) (map fst s) /\
  forall x, score_at (fold_left (fun s b => borda_ballot m 0%Z b s) bs s) x =
            (score_at s x + total_points (fun j => m - Z.of_nat j - 1) bs x)%Z.
Proof.
  induction bs as [| b bs IH]; intros s; simpl.
  - split; [reflexivity | intros x; lia].
  - destruct (borda_ballot_spec m b 0 s) as [H1 H2]. change (Z.of_nat 0) with 0%Z in H1, H2.
    destruct (IH (borda_ballot m 0%Z b s)) as [H3 H4].
    split.
    + rewrite H3, fold_left_app, H1. reflexivity.
    + intros x. rewrite H4, H2. lia.
Qed.

Lemma dedup_fold_incl (l acc : list cand) :
  (forall x, In x l -> In x acc) -> fold_left dedup_step l acc = acc.
Proof.
  revert acc. induction l as [| c l IH]; intros acc H; simpl; [reflexivity |].
  unfold dedup_step at 2. replace (memb c acc) with true.
  - apply IH. intros x Hx. apply H. right. exact Hx.
  - symmetry. apply memb_In. apply H. left. reflexivity.
Qed.

Lemma dedup_fold_fresh (l acc : list cand) :
  NoDup (acc ++ l) -> fold_left dedup_step l acc = acc ++ l.
Proof.
  revert acc. induction l as [| c l IH]; intros acc H; simpl; [symmetry; apply app_nil_r |].
  unfold dedup_step at 2. replace (memb c acc) with false.
  - rewrite IH; [rewrite <- app_assoc; reflexivity |]. rewrite <- app_assoc. exact H.
  - symmetry. apply memb_false. intros Hc. apply NoDup_remove_2 in H. apply H.
    apply in_app_iff. left. exact Hc.
Qed.

Lemma dedup_first_nodup (l : list cand) : NoDup l -> dedup_first l = l.
Proof.
  intros H. unfold dedup_first. fold dedup_step. apply dedup_fold_fresh. exact H.
Qed.

(** On a well-formed BallotSet the Borda dict has the candidates of the
    first ballot as keys, in its order, and each one's Borda points. *)
Lemma borda_scores_wf (b0 : ballot) (r : list ballot) :
  well_formedb (b0 :: r) = true ->
  exists d, borda_scores (b0 :: r) = Ok d /\ map fst d = b0 /\
    forall x, score_at d x =
      total_points (fun j => Z.of_nat (length b0) - Z.of_nat j - 1)%Z (b0 :: r) x.
Proof.
  intros Hwf. destruct (well_formed_spec b0 r Hwf) as [Hnd0 Hb].
  unfold borda_scores. cbn [head0 bind]. eexists. split; [reflexivity |].
  destruct (borda_fold_spec (Z.of_nat (length b0)) (b0 :: r) []) as [H1 H2].
  split.
  - rewrite H1. simpl. rewrite fold_left_app, (dedup_fold_fresh b0 []) by exact Hnd0. simpl.
    apply dedup_fold_incl. intros x Hx. apply in_concat in Hx as [b [Hbr Hx]].
    apply (Hb b (or_intror Hbr)). exact Hx.
  - intros x. rewrite H2. reflexivity.
Qed.

(** *** [apply_rule]: the scores of a positional rule *)

Lemma dict_incr_spec (d d' : list (cand * Z)) (k : cand) (v : Z) :
  dict_incr d k v = Ok d' ->
  map fst d' = map fst d /\ forall x, score_at d' x = (score_at d x + if Nat.eqb k x then v else 0)%Z.
Proof.
  revert d'. unfold score_at. induction d as [| [k' v'] d IH]; simpl; intros d' H; [discriminate |].
  destruct (Nat.eqb k' k) eqn:E.
  - injection H as <-. apply Nat.eqb_eq in E. subst. split; [reflexivity |].
    intros x. simpl. destruct (Nat.eqb k x); lia.
  - destruct (dict_incr d k v) as [d1 |] eqn:Ed; [| discriminate]. simpl in H. injection H as <-.
    destruct (IH d1 eq_refl) as [H1 H2]. simpl. rewrite H1. split; [reflexivity |].
    intros x. rewrite H2. lia.
Qed.

Lemma dict_incr_Ok (d : list (cand * Z)) (k : cand) (v : Z) :
  In k (map fst d) -> exists d', dict_incr d k v = Ok d'.
Proof.
  induction d as [| [k' v'] d IH]; simpl; intros H; [destruct H |].
  destruct (Nat.eqb k' k) eqn:E; [eexists; reflexivity |].
  destruct H as [-> | H]; [rewrite Nat.eqb_refl in E; discriminate |].
  destruct (IH H) as [d' Hd']. rewrite Hd'. eexists. reflexivity.
Qed.

Lemma dict_incr_absent (d : list (cand * Z)) (k : cand) (v : Z) :
  ~ In k (map fst d) -> dict_incr d k v = Err KeyError.
Proof.
  induction d as [| [k' v'] d IH]; simpl; intros H; [reflexivity |].
  destruct (Nat.eqb k' k) eqn:E; [apply Nat.eqb_eq in E; intuition |].
  rewrite IH by intuition. reflexivity.
Qed.

Lemma dict_incr_Err (d : list (cand * Z)) (k : cand) (v : Z) (e : exn) :
  dict_incr d k v = Err e -> e = KeyError.
Proof.
  induction d as [| [k' v'] d IH]; simpl; intros H; [injection H as <-; reflexivity |].
  destruct (Nat.eqb k' k); [discriminate |].
  destruct (dict_incr d k v); [discriminate | injection H as <-; auto].
Qed.

Lemma apply_ballot_Ok (ws : list Z) (b : ballot) :
  forall i s, (forall c, In c b -> In c (map fst s)) ->
  exists s', apply_ballot ws i b s = Ok s' /\ map fst s' = map fst s /\
    forall x, score_at s' x = (score_at s x + points (weight_at ws) i b x)%Z.
Proof.
  induction b as [| c b IH]; intros i s Hin; simpl.
  - exists s. split; [reflexivity |]. split; [reflexivity | intros x; lia].
  - destruct (dict_incr_Ok s c (weight_at ws i) (Hin c (or_introl eq_refl))) as [s1 Hs1].
    rewrite Hs1. simpl. destruct (dict_incr_spec s s1 c _ Hs1) as [K1 V1].
    destruct (IH (S i) s1) as [s' [H1 [H2 H3]]].
    { intros c' Hc'. rewrite K1. apply Hin. right. exact Hc'. }
    exists s'. split; [exact H1 |]. split; [congruence |].
    intros x. rewrite H3, V1. lia.
Qed.

Lemma apply_ballot_keys (ws : list Z) (b : ballot) :
  forall i s s', apply_ballot ws i b s = Ok s' -> map fst s' = map fst s.
Proof.
  induction b as [| c b IH]; intros i s s' H; simpl in H; [injection H as <-; reflexivity |].
  destruct (dict_incr s c (weight_at ws i)) as [s1 |] eqn:E; [| discriminate].
  simpl in H. rewrite (IH _ _ _ H). apply (dict_incr_spec _ _ _ _ E).
Qed.

Lemma apply_ballot_Err (ws : list Z) (b : ballot) :
  forall i s e, apply_ballot ws i b s = Err e <->
    e = KeyError /\ exists c, In c b /\ ~ In c (map fst s).
Proof.
  induction b as [| c b IH]; intros i s e; simpl.
  - split; [discriminate | intros [_ [c [[] _]]]].
  - destruct (dict_incr s c (weight_at ws i)) as [s1 |] eqn:E; simpl.
    + assert (K : map fst s1 = map fst s) by apply (dict_incr_spec _ _ _ _ E).
      rewrite IH, K. split.
      * intros [He [c' [Hc' Hn]]]. split; [exact He |]. exists c'. auto.
      * intros [He [c' [[<- | Hc'] Hn]]]; split; try exact He; [| eauto].
        exfalso. apply Hn. destruct (in_dec Nat.eq_dec c (map fst s)) as [Hi | Hi];
          [exact Hi |]. rewrite dict_incr_absent in E by exact Hi. discriminate.
    + apply dict_incr_Err in E as He. subst e0. split.
      * intros H. injection H as <-. split; [reflexivity |]. exists c. split; [left; reflexivity |].
        intros Hc. destruct (dict_incr_Ok s c (weight_at ws i) Hc) as [s2 H2]. congruence.
      * intros [-> _]. reflexivity.
Qed.

Lemma apply_ballots_Ok (ws : list Z) (bs : list ballot) :
  forall s, (forall b c, In b bs -> In c b -> In c (map fst s)) ->
  exists s', apply_ballots ws bs s = Ok s' /\ map fst s' = map fst s /\
    forall x, score_at s' x = (score_at s x + total_points (weight_at ws) bs x)%Z.
Proof.
  induction bs as [| b bs IH]; intros s Hin; simpl.
  - exists s. split; [reflexivity |]. split; [reflexivity | intros x; lia].
  - destruct (apply_ballot_Ok ws b 0 s (fun c Hc => Hin b c (or_introl eq_refl) Hc))
      as [s1 [E1 [K1 V1]]].
    rewrite E1. simpl.
    destruct (IH s1) as [s' [H1 [H2 H3]]].
    { intros b' c Hb' Hc. rewrite K1. exact (Hin b' c (or_intror Hb') Hc). }
    exists s'. split; [exact H1 |]. split; [congruence |].
    intros x. rewrite H3, V1. lia.
Qed.

Lemma apply_ballots_Err (ws : list Z) (bs : list ballot) :
  forall s, (exists b c, In b bs /\ In c b /\ ~ In c (map fst s)) ->
  apply_ballots ws bs s = Err KeyError.
Proof.
  induction bs as [| b bs IH]; intros s [b' [c [Hb [Hc Hn]]]]; simpl; [destruct Hb |].
  destruct (apply_ballot ws 0 b s) as [s1 |] eqn:E; simpl.
  - apply apply_ballot_keys in E as K. apply IH. rewrite K.
    destruct Hb as [<- | Hb]; [| eauto].
    exfalso. assert (H : apply_ballot ws 0 b s = Err KeyError)
      by (apply apply_ballot_Err; split; [reflexivity | eauto]).
    congruence.
  - apply apply_ballot_Err in E as [-> _]. reflexivity.
Qed.

(** On a BallotSet naming only candidates of its first ballot, the scores
    of [apply_rule] are keyed by the first ballot's candidates, each with
    its points. *)
Lemma apply_scores (b0 : ballot) (r : list ballot) (ws : list Z) :
  (forall b c, In b (b0 :: r) -> In c b -> In c b0) ->
  exists s, apply_ballots ws (b0 :: r) (map (fun c => (c, 0%Z)) (dedup_first b0)) = Ok s /\
    map fst s = dedup_first b0 /\
    forall x, score_at s x = total_points (weight_at ws) (b0 :: r) x.
Proof.
  intros Hin.
  assert (K0 : map fst (map (fun c => (c, 0%Z)) (dedup_first b0)) = dedup_first b0).
  { rewrite map_map. apply map_id. }
  destruct (apply_ballots_Ok ws (b0 :: r) (map (fun c => (c, 0%Z)) (dedup_first b0)))
    as [s [E [K V]]].
  { intros b c Hb Hc. rewrite K0. apply dedup_first_spec. exact (Hin b c Hb Hc). }
  exists s. split; [exact E |]. split; [congruence |].
  intros x. rewrite V.
  assert (Z0 : forall l, score_at (map (fun c => (c, 0%Z)) l) x = 0%Z).
  { induction l as [| c l IHl]; [reflexivity |]. unfold score_at in *. simpl.
    rewrite IHl. destruct (Nat.eqb c x); reflexivity. }
  rewrite Z0. reflexivity.
Qed.

Lemma points_ext (f g : nat -> Z) (b : ballot) (x : cand) :
  forall i, (forall j, i <= j < i + length b -> f j = g j) -> points f i b x = points g i b x.
Proof.
  induction b as [| c b IH]; intros i H; simpl; [reflexivity |].
  rewrite (H i) by (simpl; lia). rewrite (IH (S i)); [reflexivity |].
  intros j Hj. apply H. simpl. lia.
Qed.

Lemma weight_at_borda (m j : nat) :
  j < m -> weight_at (borda_weights m) j = (Z.of_nat m - Z.of_nat j - 1)%Z.
Proof.
  intros Hj. unfold weight_at, borda_weights. rewrite nth_error_map.
  rewrite nth_error_seq. destruct (Nat.ltb j m) eqn:E; [| apply Nat.ltb_ge in E; lia].
  simpl. lia.
Qed.


Lemma score_at_In (d : list (cand * Z)) (k : cand) (v : Z) :
  NoDup (map fst d) -> In (k, v) d -> score_at d k = v.
Proof.
  induction d as [| [k' v'] d IH]; simpl; intros Hnd Hin; [destruct Hin |].
  inversion Hnd as [| ? ? Hk Hnd']; subst.
  unfold score_at. simpl. fold (score_at d k).
  destruct Hin as [E | Hin].
  - injection E as <- <-. rewrite Nat.eqb_refl, score_at_absent by exact Hk. lia.
  - destruct (Nat.eqb k' k) eqn:E.
    + apply Nat.eqb_eq in E. subst. exfalso. apply Hk. apply in_map_iff. exists (k, v). auto.
    + rewrite IH by assumption. lia.
Qed.

Lemma Z_ltb_trans (a b c : Z) : Z.ltb a b = true -> Z.ltb b c = true -> Z.ltb a c = true.
Proof. rewrite !Z.ltb_lt. lia. Qed.

Lemma Z_ltb_irrefl (a : Z) : Z.ltb a a = false.
Proof. apply Z.ltb_irrefl. Qed.

(** [max(scores, key=scores.get)] on a dict with distinct keys [K] that
    holds [f x] at each key [x]: a key of maximal [f]. *)
Lemma max_key_scores (s : list (cand * Z)) (f : cand -> Z) (w : cand) :
  NoDup (map fst s) -> (forall x, score_at s x = f x) ->
  max_key Z.ltb s = Ok w ->
  In w (map fst s) /\ forall c, In c (map fst s) -> (f c <= f w)%Z.
Proof.
  intros Hnd Hf Hm.
  destruct (max_key_spec Z.ltb s w Z_ltb_irrefl Z_ltb_trans Hm) as [v [Hin Hmax]].
  rewrite <- (score_at_In s w v Hnd Hin), Hf in Hmax.
  split; [apply in_map_iff; exists (w, v); auto |].
  intros c Hc. apply in_map_iff in Hc as [[c' v'] [Ec Hc]]. simpl in Ec. subst c'.
  specialize (Hmax _ Hc). simpl in Hmax. apply Z.ltb_ge in Hmax.
  rewrite <- (score_at_In s c v' Hnd Hc), Hf in Hmax. exact Hmax.
Qed.

Lemma max_key_nonempty {V} (lt : V -> V -> bool) (d : list (cand * V)) :
  d <> [] -> exists w, max_key lt d = Ok w.
Proof. destruct d as [| [k v] d]; [congruence | intros _; eexists; reflexivity]. Qed.

Lemma total_points_ext (f g : nat -> Z) (bs : list ballot) (x : cand) :
  (forall b j, In b bs -> j < length b -> f j = g j) ->
  total_points f bs x = total_points g bs x.
Proof.
  induction bs as [| b bs IH]; intros H; simpl; [reflexivity |].
  rewrite (points_ext f g b x 0), IH; [reflexivity | |].
  - intros b' j Hb' Hj. apply (H b'); [right |]; assumption.
  - intros j Hj. apply (H b); [left; reflexivity | lia].
Qed.

Lemma wf_incl (b0 : ballot) (r : list ballot) :
  well_formedb (b0 :: r) = true ->
  forall b c, In b (b0 :: r) -> In c b -> In c b0.
Proof.
  intros Hwf b c Hb Hc. destruct (well_formed_spec b0 r Hwf) as [_ H].
  apply (H b Hb). exact Hc.
Qed.

(** The Borda winner is a candidate of the first ballot with the highest
    Borda score. *)
Lemma borda_winner_max (b0 : ballot) (r : list ballot) :
  well_formedb (b0 :: r) = true -> b0 <> [] ->
  exists w, borda_winner (b0 :: r) = Ok (Some w) /\ In w b0 /\
    forall c, In c b0 ->
      (total_points (fun j => Z.of_nat (length b0) - Z.of_nat j - 1) (b0 :: r) c <=
       total_points (fun j => Z.of_nat (length b0) - Z.of_nat j - 1) (b0 :: r) w)%Z.
Proof.
  intros Hwf Hne. destruct (well_formed_spec b0 r Hwf) as [Hnd0 _].
  destruct (borda_scores_wf b0 r Hwf) as [d [Ed [Kd Vd]]].
  unfold borda_winner. rewrite Ed. cbn [bind].
  destruct (max_key_nonempty Z.ltb d) as [w Hw].
  { intros ->. simpl in Kd. congruence. }
  rewrite Hw. cbn [bind]. exists w. split; [reflexivity |].
  rewrite <- Kd in Hnd0. destruct (max_key_scores d _ w Hnd0 Vd Hw) as [H1 H2].
  rewrite Kd in H1, H2. split; [exact H1 | exact H2].
Qed.

(** X13: on the empty BallotSet [apply_rule] returns None, whatever the
    weights, while [borda_winner] raises IndexError ([ballots[0]]); on every
    non-empty well-formed BallotSet, [apply_rule] with the weights
    [[m-1, ..., 1, 0]] returns exactly what [borda_winner] returns. *)
Lemma apply_rule_borda_eq (ballots : list ballot) :
  well_formedb ballots = true ->
  (ballots = [] -> forall ws,
     apply_rule ballots ws = Ok None /\ borda_winner ballots = Err IndexError) /\
  (ballots <> [] ->
   apply_rule ballots (borda_weights (length (hd [] ballots))) = borda_winner ballots).
Proof.
  intros Hwf0. split; [intros -> ws; split; reflexivity |].
  destruct ballots as [| b0 r]; [intros H; congruence |]. intros _. cbn [hd].
  pose proof Hwf0 as Hwf.
 destruct (well_formed_spec b0 r Hwf) as [Hnd0 Hb].
  destruct (borda_scores_wf b0 r Hwf) as [d [Ed [Kd Vd]]].
  destruct (apply_scores b0 r (borda_weights (length b0)) (wf_incl b0 r Hwf)) as [s [Es [Ks Vs]]].
  rewrite dedup_first_nodup in Ks by exact Hnd0.
  assert (E : s = d).
  { apply dict_ext; [congruence | rewrite Ks; exact Hnd0 |].
    intros x. rewrite Vs, Vd. apply total_points_ext.
    intros b j Hbin Hj. destruct (Hb b Hbin) as [_ [Hlen _]].
    apply weight_at_borda. lia. }
  subst s. unfold apply_rule, borda_winner. rewrite Es, Ed. reflexivity.
Qed.

(** X14: [apply_rule] raises KeyError when some ballot ranks a candidate
    that is not on the first ballot, whatever the weights. *)
Lemma apply_rule_key_error (b0 : ballot) (r : list ballot) (ws : list Z) :
  (exists b c, In b (b0 :: r) /\ In c b /\ ~ In c b0) ->
  apply_rule (b0 :: r) ws = Err KeyError.
Proof.
  intros [b [c [Hb [Hc Hn]]]]. unfold apply_rule.
  rewrite apply_ballots_Err; [reflexivity |].
  exists b, c. split; [exact Hb |]. split; [exact Hc |].
  rewrite map_map. simpl. rewrite map_id. rewrite (proj2 (dedup_first_spec b0)). exact Hn.
Qed.

(** X15: when every ballot ranks only candidates of the first ballot,
    [apply_rule] raises ValueError if the first ballot is empty, and
    otherwise returns a candidate of the first ballot whose total positional
    score (rank [j] scoring [weights[j]], or 0 past the end of [weights]) is
    the highest. *)
Lemma apply_rule_winner (b0 : ballot) (r : list ballot) (ws : list Z) :
  (forall b c, In b (b0 :: r) -> In c b -> In c b0) ->
  (b0 = [] -> apply_rule (b0 :: r) ws = Err ValueError) /\
  (b0 <> [] -> exists w, apply_rule (b0 :: r) ws = Ok (Some w) /\ In w b0 /\
     forall c, In c b0 -> (total_points (weight_at ws) (b0 :: r) c <=
                           total_points (weight_at ws) (b0 :: r) w)%Z).
Proof.
  intros Hin. destruct (apply_scores b0 r ws Hin) as [s [Es [Ks Vs]]].
  destruct (dedup_first_spec b0) as [Hnd Hdd].
  unfold apply_rule. rewrite Es. cbn [bind]. split.
  - intros ->. destruct s as [| kv s]; [reflexivity | discriminate].
  - intros Hne. destruct (max_key_nonempty Z.ltb s) as [w Hw].
    { intros ->. destruct b0 as [| c b0]; [congruence |].
      assert (Hc : In c (dedup_first (c :: b0))) by (apply Hdd; left; reflexivity).
      rewrite <- Ks in Hc. destruct Hc. }
    rewrite Hw. cbn [bind]. exists w. split; [reflexivity |].
    rewrite <- Ks in Hnd.
    destruct (max_key_scores s _ w Hnd Vs Hw) as [Hw' Hmax].
    rewrite Ks, Hdd in Hw'. split; [exact Hw' |].
    intros c Hc. apply Hmax. rewrite Ks. apply Hdd. exact Hc.
Qed.

(** *** Scaling the weights *)

Lemma dict_incr_scale (k : Z) (d : list (cand * Z)) (c : cand) (v : Z) :
  dict_incr (map (fun kv => (fst kv, (k * snd kv)%Z)) d) c (k * v)%Z =
  match dict_incr d c v with
  | Ok d' => Ok (map (fun kv => (fst kv, (k * snd kv)%Z)) d')
  | Err e => Err e
  end.
Proof.
  induction d as [| [k' v'] d IH]; simpl; [reflexivity |].
  destruct (Nat.eqb k' c); [simpl; rewrite Z.mul_add_distr_l; reflexivity |].
  rewrite IH. destruct (dict_incr d c v); reflexivity.
Qed.

Lemma weight_at_scale (k : Z) (ws : list Z) (j : nat) :
  weight_at (map (Z.mul k) ws) j = (k * weight_at ws j)%Z.
Proof.
  unfold weight_at. rewrite nth_error_map. destruct (nth_error ws j); simpl; lia.
Qed.

Lemma apply_ballot_scale (k : Z) (ws : list Z) (b : ballot) :
  forall i s,
  apply_ballot (map (Z.mul k) ws) i b (map (fun kv => (fst kv, (k * snd kv)%Z)) s) =
  match apply_ballot ws i b s with
  | Ok s' => Ok (map (fun kv => (fst kv, (k * snd kv)%Z)) s')
  | Err e => Err e
  end.
Proof.
  induction b as [| c b IH]; intros i s; simpl; [reflexivity |].
  rewrite weight_at_scale, dict_incr_scale.
  destruct (dict_incr s c (weight_at ws i)); simpl; [apply IH | reflexivity].
Qed.

Lemma apply_ballots_scale (k : Z) (ws : list Z) (bs : list ballot) :
  forall s,
  apply_ballots (map (Z.mul k) ws) bs (map (fun kv => (fst kv, (k * snd kv)%Z)) s) =
  match apply_ballots ws bs s with
  | Ok s' => Ok (map (fun kv => (fst kv, (k * snd kv)%Z)) s')
  | Err e => Err e
  end.
Proof.
  induction bs as [| b bs IH]; intros s; simpl; [reflexivity |].
  rewrite apply_ballot_scale.
  destruct (apply_ballot ws 0 b s); simpl; [apply IH | reflexivity].
Qed.

Lemma max_key_scale (k : Z) (d : list (cand * Z)) :
  (0 < k)%Z ->
  max_key Z.ltb (map (fun kv => (fst kv, (k * snd kv)%Z)) d) = max_key Z.ltb d.
Proof.
  intros Hk. destruct d as [| [k0 v0] r]; simpl; [reflexivity |].
  f_equal.
  assert (H : forall acc,
    fold_left (fun acc kv => if Z.ltb (snd acc) (snd kv) then kv else acc)
      (map (fun kv => (fst kv, (k * snd kv)%Z)) r) (fst acc, (k * snd acc)%Z) =
    (fst (fold_left (fun acc kv => if Z.ltb (snd acc) (snd kv) then kv else acc) r acc),
     (k * snd (fold_left (fun acc kv => if Z.ltb (snd acc) (snd kv) then kv else acc) r acc))%Z)).
  { induction r as [| [a b] r IH]; intros [x y]; simpl; [reflexivity |].
    replace (Z.ltb (k * y) (k * b)) with (Z.ltb y b).
    - destruct (Z.ltb y b); apply (IH (_, _)).
    - destruct (Z.ltb y b) eqn:E; symmetry.
      + apply Z.ltb_lt. apply Z.ltb_lt in E. nia.
      + apply Z.ltb_ge. apply Z.ltb_ge in E. nia. }
  exact (f_equal fst (H (k0, v0))).
Qed.

(** X16: multiplying every weight by the same positive integer does not
    change what [apply_rule] returns, error or winner. *)
Lemma apply_rule_scale_eq (bs : list ballot) (ws : list Z) (k : Z) :
  (0 < k)%Z -> apply_rule bs (map (Z.mul k) ws) = apply_rule bs ws.
Proof.
  intros Hk. destruct bs as [| b0 r]; [reflexivity |]. unfold apply_rule.
  assert (E0 : map (fun c => (c, 0%Z)) (dedup_first b0) =
               map (fun kv => (fst kv, (k * snd kv)%Z)) (map (fun c => (c, 0%Z)) (dedup_first b0))).
  { rewrite map_map. apply map_ext. intros c. simpl. f_equal. lia. }
  rewrite E0 at 1. rewrite apply_ballots_scale.
  destruct (apply_ballots ws (b0 :: r) _) as [s |]; cbn [bind]; [| reflexivity].
  rewrite max_key_scale by exact Hk. reflexivity.
Qed.


(** *** Ranked Pairs elects a candidate who wins every head-to-head count *)

Lemma ranked_pairs_beats (b0 : ballot) (r : list ballot) (d : pdict) (c : cand) :
  tally_ballots (pd_init b0) (b0 :: r) = Ok d -> In c b0 ->
  (forall x, In x b0 -> x <> c -> pd_get d x c 0 < pd_get d c x 0) ->
  ranked_pairs_winner (b0 :: r) = Ok (Some c).
Proof.
  intros Hd Hc Hbeat.
  unfold ranked_pairs_winner, ranked_pairs_pairs. rewrite Hd. unfold bind.
  set (ps := sort_pairs (victories b0 d)).
  destruct (dedup_first_spec b0) as [Hnd Hdd].
  destruct (lock_pairs_source ps (init_locked b0) c) as [Hno Hall].
  - intros a H. unfold edge in H. rewrite succs_init in H. destruct H.
  - intros a b m Hin ->. apply (Permutation_in _ (sort_pairs_perm _)) in Hin.
    apply victories_In in Hin as [Ha [_ [Hne Hlt]]].
    specialize (Hbeat a Ha Hne). lia.
  - rewrite init_keys. apply Hdd. exact Hc.
  - set (locked := lock_pairs ps (init_locked b0)) in *.
    assert (Hkeys : NoDup (map fst locked)).
    { unfold locked. rewrite lock_pairs_keys, init_keys. exact Hnd. }
    f_equal. apply head_filter_unique.
    + apply Hdd. exact Hc.
    + apply Nat.eqb_eq. apply count_incoming_edge; [exact Hkeys | exact Hno].
    + intros y Hy Hz. apply Nat.eqb_eq in Hz. apply Hdd in Hy.
      destruct (Nat.eq_dec y c) as [-> | Hyc]; [reflexivity | exfalso].
      destruct (victories_intro b0 d c y Hc Hy (not_eq_sym Hyc) (Hbeat y Hy Hyc))
        as [m Hm].
      apply (Permutation_in _ (Permutation_sym (sort_pairs_perm _))) in Hm.
      apply (proj1 (count_incoming_edge locked y Hkeys) Hz c).
      exact (Hall y m Hm).
Qed.

(** On a well-formed BallotSet, [pd_get] on the tally reads the number of
    ballots ranking [x] above [y]. *)
Lemma tally_get (b0 : ballot) (r : list ballot) (d : pdict) (x y : cand) :
  pd_keys d = pd_keys (pd_init b0) ->
  (forall x y, pd_val d x y = before_all (b0 :: r) x y) ->
  In x b0 -> In y b0 -> x <> y ->
  pd_get d x y 0 = before_all (b0 :: r) x y.
Proof.
  intros Hk Hv Hx Hy Hne. unfold pd_get.
  rewrite (pd_mem_keys (pd_init b0) d x y Hk).
  replace (pd_mem (pd_init b0) x y) with true by (symmetry; apply pd_init_mem; auto).
  apply Hv.
Qed.

Lemma condorcet_candidates (b0 : ballot) (a b : cand) (ks : list (cand * cand)) :
  pd_keys (pd_init b0) = (a, b) :: ks ->
  forall x, In x (sort_nat (nodup Nat.eq_dec (flat_map (fun p => [fst p; snd p]) ((a, b) :: ks))))
            <-> In x b0.
Proof.
  intros EK.
  assert (Hab : In (a, b) (pd_keys (pd_init b0))) by (rewrite EK; left; reflexivity).
  apply pd_init_keys_In in Hab as [Ha [Hb Hne]].
  intros x. split.
  - intros Hx. apply (Permutation_in _ (sort_nat_perm _)) in Hx.
    apply nodup_In, in_flat_map in Hx as [[p q] [Hpq Hx]].
    rewrite <- EK in Hpq. apply pd_init_keys_In in Hpq as [Hp [Hq _]].
    simpl in Hx. destruct Hx as [<- | [<- | []]]; assumption.
  - intros Hx. apply (Permutation_in _ (Permutation_sym (sort_nat_perm _))).
    apply nodup_In, in_flat_map.
    destruct (Nat.eq_dec x a) as [-> | Hxa].
    + exists (a, b). split; [left; reflexivity | left; reflexivity].
    + exists (x, a). split; [| left; reflexivity].
      rewrite <- EK. apply pd_init_keys_In. auto.
Qed.

Lemma find_unique {A} (f : A -> bool) (l : list A) (c : A) :
  In c l -> f c = true -> (forall y, In y l -> f y = true -> y = c) -> find f l = Some c.
Proof.
  induction l as [| x l IH]; simpl; intros Hc Hfc Hu; [destruct Hc |].
  destruct (f x) eqn:E.
  - f_equal. apply Hu; [left; reflexivity | exact E].
  - destruct Hc as [-> | Hc]; [congruence |].
    apply IH; [exact Hc | exact Hfc |]. intros y Hy Hfy. apply Hu; [right |]; assumption.
Qed.

Lemma two_distinct (b0 : ballot) :
  NoDup b0 -> 2 <= length b0 -> exists a b, In a b0 /\ In b b0 /\ a <> b.
Proof.
  intros Hnd Hl. destruct b0 as [| a [| b t]]; simpl in Hl; try lia.
  exists a, b. inversion Hnd as [| ? ? Ha _]; subst.
  split; [left; reflexivity |]. split; [right; left; reflexivity |].
  intros ->. apply Ha. left. reflexivity.
Qed.

(** X9: on a well-formed BallotSet over at least two candidates,
    [find_condorcet_winner] returns [c] exactly when [c] is a candidate and,
    for every other candidate [x], fewer ballots rank [x] above [c] than
    rank [c] above [x]. *)
Lemma condorcet_iff (b0 : ballot) (r : list ballot) (c : cand) :
  well_formedb (b0 :: r) = true -> 2 <= length b0 ->
  find_condorcet_winner (b0 :: r) = Ok (Some c) <->
  In c b0 /\ forall x, In x b0 -> x <> c -> before_all (b0 :: r) x c < before_all (b0 :: r) c x.
Proof.
  intros Hwf Hlen.
  destruct (tally_well_formed b0 r Hwf) as [d [Hd [Hk Hv]]].
  destruct (well_formed_spec b0 r Hwf) as [Hnd0 _].
  split.
  - intros Hf. destruct (find_condorcet_spec b0 r d c Hd Hk Hf) as [Hc Hbeat].
    split; [exact Hc |]. intros x Hx Hxc. specialize (Hbeat x Hx Hxc).
    rewrite (tally_get b0 r d x c), (tally_get b0 r d c x) in Hbeat; auto.
  - intros [Hc Hbeat].
    assert (Hget : forall x y, In x b0 -> In y b0 -> x <> y ->
                   pd_get d x y 0 = before_all (b0 :: r) x y)
      by (intros; apply tally_get; auto).
    unfold find_condorcet_winner, pairwise_matrix. rewrite Hd. cbn [bind]. rewrite Hk.
    destruct (two_distinct b0 Hnd0 Hlen) as [a [b [Ha [Hb Hab]]]].
    destruct (pd_keys (pd_init b0)) as [| [p q] ks] eqn:EK.
    { exfalso. assert (H : In (a, b) (pd_keys (pd_init b0))) by (apply pd_init_keys_In; auto).
      rewrite EK in H. destruct H. }
    f_equal. pose proof (condorcet_candidates b0 p q ks EK) as Hcands.
    apply find_unique.
    + apply Hcands. exact Hc.
    + unfold beats_all. apply forallb_forall. intros x Hx. apply Hcands in Hx.
      destruct (Nat.eq_dec c x) as [-> | Hcx]; [rewrite Nat.eqb_refl; reflexivity |].
      apply orb_true_iff. right. apply Nat.ltb_lt.
      rewrite !Hget; auto.
    + intros y Hy Hby. apply Hcands in Hy.
      destruct (Nat.eq_dec y c) as [-> | Hyc]; [reflexivity | exfalso].
      unfold beats_all in Hby. rewrite forallb_forall in Hby.
      specialize (Hby c (proj2 (Hcands c) Hc)).
      apply orb_true_iff in Hby as [E | E]; [apply Nat.eqb_eq in E; congruence |].
      apply Nat.ltb_lt in E. rewrite !Hget in E by auto.
      specialize (Hbeat y Hy Hyc). lia.
Qed.

(** X10: on a well-formed BallotSet over at most one candidate the
    pairwise matrix is empty and [find_condorcet_winner] returns None. *)
Lemma condorcet_small (b0 : ballot) (r : list ballot) :
  well_formedb (b0 :: r) = true -> length b0 <= 1 ->
  find_condorcet_winner (b0 :: r) = Ok None.
Proof.
  intros Hwf Hlen.
  destruct (tally_well_formed b0 r Hwf) as [d [Hd [Hk Hv]]].
  unfold find_condorcet_winner, pairwise_matrix. rewrite Hd. cbn [bind]. rewrite Hk.
  destruct (pd_keys (pd_init b0)) as [| [p q] ks] eqn:EK; [reflexivity |].
  exfalso. assert (H : In (p, q) (pd_keys (pd_init b0))) by (rewrite EK; left; reflexivity).
  apply pd_init_keys_In in H as [Hp [Hq Hpq]].
  destruct b0 as [| x [| y t]]; simpl in Hlen; try lia; [destruct Hp |].
  destruct Hp as [<- | []]. destruct Hq as [<- | []]. congruence.
Qed.

(** *** Unanimity *)

Lemma first_count_all (bs : list ballot) (c : cand) :
  (forall b, In b bs -> hd_error b = Some c) -> first_count bs c = length bs.
Proof.
  unfold first_count. induction bs as [| b bs IH]; simpl; intros H; [reflexivity |].
  destruct b as [| x b]; [specialize (H [] (or_introl eq_refl)); discriminate |].
  specialize (H (x :: b) (or_introl eq_refl)) as Hx. simpl in Hx. injection Hx as ->.
  rewrite Nat.eqb_refl. simpl. f_equal. apply IH. intros b' Hb'. apply H. right. exact Hb'.
Qed.

Lemma points_absent (f : nat -> Z) (b : ballot) (x : cand) :
  forall i, ~ In x b -> points f i b x = 0%Z.
Proof.
  induction b as [| y b IH]; intros i H; simpl; [reflexivity |].
  destruct (Nat.eqb y x) eqn:E; [apply Nat.eqb_eq in E; exfalso; apply H; left; exact E |].
  rewrite IH; [reflexivity |]. intros Hx. apply H. right. exact Hx.
Qed.

Lemma points_bound (f : nat -> Z) (B : Z) (b : ballot) (x : cand) :
  forall i, NoDup b -> In x b -> (forall j, i <= j -> (f j <= B)%Z) -> (points f i b x <= B)%Z.
Proof.
  induction b as [| y b IH]; intros i Hnd Hx Hf; simpl; [destruct Hx |].
  inversion Hnd as [| ? ? Hy Hnd']; subst.
  destruct (Nat.eqb y x) eqn:E.
  - apply Nat.eqb_eq in E. subst y. rewrite points_absent by exact Hy.
    specialize (Hf i (le_n i)). lia.
  - destruct Hx as [-> | Hx]; [rewrite Nat.eqb_refl in E; discriminate |].
    assert (H := IH (S i) Hnd' Hx (fun j Hj => Hf j ltac:(lia))). lia.
Qed.

(** X8: on a well-formed BallotSet where every ballot ranks the same
    candidate first, plurality, Borda, IRV and Ranked Pairs all return it. *)
Lemma unanimous_top (b0 : ballot) (r : list ballot) (c : cand) :
  well_formedb (b0 :: r) = true -> (forall b, In b (b0 :: r) -> hd_error b = Some c) ->
  plurality_winner (b0 :: r) = Ok (Some c) /\ borda_winner (b0 :: r) = Ok (Some c) /\
  irv_winner (b0 :: r) = Ok (Some c) /\ ranked_pairs_winner (b0 :: r) = Ok (Some c).
Proof.
  intros Hwf Htop.
  destruct (well_formed_spec b0 r Hwf) as [Hnd0 Hb].
  pose proof (first_count_all _ c Htop) as Hfc.
  assert (Hne : Forall (fun b => b <> []) (b0 :: r)).
  { apply Forall_forall. intros b Hin Hnil. subst b. specialize (Htop [] Hin). discriminate. }
  assert (Hmaj : length (b0 :: r) < 2 * first_count (b0 :: r) c) by (rewrite Hfc; simpl; lia).
  assert (Hform : forall b, In b (b0 :: r) -> exists t, b = c :: t /\ NoDup (c :: t) /\
                   forall x, In x (c :: t) <-> In x b0).
  { intros b Hin. specialize (Htop b Hin). destruct b as [| y t]; [discriminate |].
    injection Htop as ->. exists t. destruct (Hb _ Hin) as [H1 [_ H3]]. auto. }
  assert (Hc0 : In c b0).
  { destruct (Hform b0 (or_introl eq_refl)) as [t [-> _]]. left. reflexivity. }
  split; [| split; [| split]].
  - apply plurality_majority; assumption.
  - destruct (borda_winner_max b0 r Hwf ltac:(intros ->; destruct Hc0)) as [w [Hw [Hw0 Hmax]]].
    rewrite Hw. destruct (Nat.eq_dec w c) as [-> | Hwc]; [reflexivity | exfalso].
    specialize (Hmax c Hc0).
    set (f := fun j => (Z.of_nat (length b0) - Z.of_nat j - 1)%Z) in Hmax.
    assert (Hsum : forall bs, (forall b, In b bs -> In b (b0 :: r)) ->
              (total_points f bs w + Z.of_nat (length bs) <= total_points f bs c)%Z).
    { induction bs as [| b bs IH]; intros Hbs; [simpl; lia |].
      destruct (Hform b (Hbs b (or_introl eq_refl))) as [t [-> [Hnd Hin]]].
      assert (IH' := IH (fun b' Hb' => Hbs b' (or_intror Hb'))).
      inversion Hnd as [| ? ? Hct Hndt]; subst.
      assert (Hwt : In w t).
      { apply Hin in Hw0. destruct Hw0 as [E | Hw0]; [congruence | exact Hw0]. }
      assert (Pc : points f 0 (c :: t) c = f 0).
      { simpl. rewrite Nat.eqb_refl, points_absent by exact Hct. lia. }
      assert (Pw : (points f 0 (c :: t) w <= f 1%nat)%Z).
      { simpl. replace (Nat.eqb c w) with false by (symmetry; apply Nat.eqb_neq; congruence).
        assert (H := points_bound f (f 1) t w 1 Hndt Hwt).
        assert (H' : (points f 1 t w <= f 1%nat)%Z) by (apply H; intros j Hj; unfold f; lia).
        lia. }
      change (total_points f ((c :: t) :: bs) w) with (points f 0 (c :: t) w + total_points f bs w)%Z.
      change (total_points f ((c :: t) :: bs) c) with (points f 0 (c :: t) c + total_points f bs c)%Z.
      rewrite Pc. cbn [length].
      assert (F : f 0 = (f 1%nat + 1)%Z) by (unfold f; lia). lia. }
    specialize (Hsum (b0 :: r) (fun b H => H)). simpl length in Hsum. lia.
  - unfold irv_winner. cbn [irv_loop]. rewrite (irv_round_majority _ c) by assumption. reflexivity.
  - destruct (tally_well_formed b0 r Hwf) as [d [Hd [Hk Hv]]].
    apply (ranked_pairs_beats b0 r d c Hd Hc0). intros x Hx Hxc.
    rewrite (tally_get b0 r d x c), (tally_get b0 r d c x); auto.
    assert (Hcnt : forall bs, (forall b, In b bs -> In b (b0 :: r)) ->
              before_all bs x c = 0 /\ before_all bs c x = length bs).
    { induction bs as [| b bs IH]; intros Hbs; [simpl; lia |].
      destruct (Hform b (Hbs b (or_introl eq_refl))) as [t [-> [Hnd Hin]]].
      destruct (IH (fun b' Hb' => Hbs b' (or_intror Hb'))) as [IH1 IH2].
      inversion Hnd as [| ? ? Hct Hndt]; subst.
      assert (Hxt : In x t).
      { apply Hin in Hx. destruct Hx as [E | Hx']; [congruence | exact Hx']. }
      unfold before_all in *. simpl. rewrite IH1, IH2.
      replace (Nat.eqb c x) with false by (symmetry; apply Nat.eqb_neq; congruence).
      rewrite Nat.eqb_refl, before_absent_r, before_absent by exact Hct.
      rewrite (proj1 (NoDup_count_occ' Nat.eq_dec t) Hndt x Hxt). simpl. lia. }
    destruct (Hcnt (b0 :: r) (fun b H => H)) as [H1 H2]. rewrite H1, H2. simpl. lia.
Qed.


(** *** KeyError in the pairwise tally *)

Lemma tally_after_keys (d d' : pdict) (a : cand) (r : list cand) :
  tally_after d a r = Ok d' -> pd_keys d' = pd_keys d.
Proof.
  revert d. induction r as [| b r IH]; simpl; intros d H; [injection H as <-; reflexivity |].
  destruct (pd_incr d a b) as [d1 |] eqn:E; [| discriminate]. simpl in H.
  rewrite (IH d1 H). apply (pd_incr_spec d d1 a b E).
Qed.

Lemma tally_after_err (d : pdict) (a : cand) (r : list cand) (e : exn) :
  tally_after d a r = Err e -> e = KeyError.
Proof.
  revert d. induction r as [| b r IH]; simpl; intros d H; [discriminate |].
  unfold pd_incr in H. destruct (pd_mem d a b); simpl in H; [exact (IH _ H) |].
  injection H as <-. reflexivity.
Qed.

Lemma tally_after_bad (d : pdict) (a : cand) (r : list cand) :
  (exists b, In b r /\ pd_mem d a b = false) -> tally_after d a r = Err KeyError.
Proof.
  revert d. induction r as [| b r IH]; simpl; intros d [b' [Hb Hm]]; [destruct Hb |].
  destruct (pd_incr d a b) as [d1 |] eqn:E; simpl.
  - apply IH. destruct Hb as [<- | Hb].
    + destruct (pd_incr_spec d d1 a b E) as [Hm' _]. congruence.
    + exists b'. split; [exact Hb |]. rewrite (pd_mem_keys d d1); [exact Hm |].
      apply (pd_incr_spec d d1 a b E).
  - unfold pd_incr in E. destruct (pd_mem d a b); [discriminate | injection E as <-; reflexivity].
Qed.

Lemma tally_ballot_keys (d d' : pdict) (bal : ballot) :
  tally_ballot d bal = Ok d' -> pd_keys d' = pd_keys d.
Proof.
  revert d. induction bal as [| a r IH]; simpl; intros d H; [injection H as <-; reflexivity |].
  destruct (tally_after d a r) as [d1 |] eqn:E; [| discriminate]. simpl in H.
  rewrite (IH d1 H). exact (tally_after_keys d d1 a r E).
Qed.

Lemma tally_ballot_err (d : pdict) (bal : ballot) (e : exn) :
  tally_ballot d bal = Err e -> e = KeyError.
Proof.
  revert d. induction bal as [| a r IH]; simpl; intros d H; [discriminate |].
  destruct (tally_after d a r) eqn:E; simpl in H; [exact (IH _ H) |].
  injection H as <-. exact (tally_after_err _ _ _ _ E).
Qed.

Lemma ordered_in_cons (x : cand) (r : list cand) (a b : cand) :
  ordered_in (x :: r) a b -> (a = x /\ In b r) \/ ordered_in r a b.
Proof.
  intros [l1 [l2 [E Hb]]]. destruct l1 as [| y l1]; simpl in E; injection E as E1 E2.
  - left. subst. auto.
  - right. exists l1, l2. auto.
Qed.

Lemma tally_ballot_bad (d : pdict) (bal : ballot) :
  (exists a b, ordered_in bal a b /\ pd_mem d a b = false) -> tally_ballot d bal = Err KeyError.
Proof.
  revert d. induction bal as [| x r IH]; simpl; intros d [a [b [Hab Hm]]].
  - destruct Hab as [l1 [l2 [E _]]]. destruct l1; discriminate.
  - destruct (tally_after d x r) as [d1 |] eqn:E; simpl.
    + apply ordered_in_cons in Hab as [[-> Hb] | Hab].
      * rewrite tally_after_bad in E by eauto. discriminate.
      * apply IH. exists a, b. split; [exact Hab |].
        rewrite (pd_mem_keys d d1); [exact Hm | exact (tally_after_keys d d1 x r E)].
    + f_equal. exact (tally_after_err _ _ _ _ E).
Qed.

Lemma tally_ballots_bad (d : pdict) (bs : list ballot) :
  (exists bal a b, In bal bs /\ ordered_in bal a b /\ pd_mem d a b = false) ->
  tally_ballots d bs = Err KeyError.
Proof.
  revert d. induction bs as [| bal bs IH]; simpl; intros d [bal' [a [b [Hin [Hab Hm]]]]];
    [destruct Hin |].
  destruct (tally_ballot d bal) as [d1 |] eqn:E; simpl.
  - destruct Hin as [<- | Hin].
    + rewrite tally_ballot_bad in E by eauto. discriminate.
    + apply IH. exists bal', a, b. split; [exact Hin |]. split; [exact Hab |].
      rewrite (pd_mem_keys d d1); [exact Hm | exact (tally_ballot_keys d d1 bal E)].
  - f_equal. exact (tally_ballot_err _ _ _ E).
Qed.

Lemma tally_after_err_bad (d : pdict) (a : cand) (r : list cand) (e : exn) :
  tally_after d a r = Err e -> exists b, In b r /\ pd_mem d a b = false.
Proof.
  revert d. induction r as [| b r IH]; simpl; intros d H; [discriminate |].
  destruct (pd_incr d a b) as [d1 |] eqn:E; simpl in H.
  - destruct (IH d1 H) as [b' [Hb' Hm]]. exists b'. split; [right; exact Hb' |].
    rewrite <- (pd_mem_keys d d1); [exact Hm | apply (pd_incr_spec d d1 a b E)].
  - exists b. split; [left; reflexivity |].
    unfold pd_incr in E. destruct (pd_mem d a b); [discriminate | reflexivity].
Qed.

Lemma tally_ballot_err_bad (d : pdict) (bal : ballot) (e : exn) :
  tally_ballot d bal = Err e -> exists a b, ordered_in bal a b /\ pd_mem d a b = false.
Proof.
  revert d. induction bal as [| x r IH]; simpl; intros d H; [discriminate |].
  destruct (tally_after d x r) as [d1 |] eqn:E; simpl in H.
  - destruct (IH d1 H) as [a [b [Hab Hm]]]. exists a, b. split.
    + destruct Hab as [l1 [l2 [E' Hb]]]. exists (x :: l1), l2. rewrite E'. auto.
    + rewrite <- (pd_mem_keys d d1); [exact Hm | exact (tally_after_keys d d1 x r E)].
  - destruct (tally_after_err_bad d x r e0 E) as [b [Hb Hm]].
    exists x, b. split; [exists [], r; auto | exact Hm].
Qed.

Lemma tally_ballots_err_bad (d : pdict) (bs : list ballot) (e : exn) :
  tally_ballots d bs = Err e ->
  e = KeyError /\ exists bal a b, In bal bs /\ ordered_in bal a b /\ pd_mem d a b = false.
Proof.
  revert d. induction bs as [| bal bs IH]; simpl; intros d H; [discriminate |].
  destruct (tally_ballot d bal) as [d1 |] eqn:E; simpl in H.
  - destruct (IH d1 H) as [He [bal' [a [b [Hin [Hab Hm]]]]]]. split; [exact He |].
    exists bal', a, b. split; [right; exact Hin |]. split; [exact Hab |].
    rewrite <- (pd_mem_keys d d1); [exact Hm | exact (tally_ballot_keys d d1 bal E)].
  - injection H as <-. split; [exact (tally_ballot_err _ _ _ E) |].
    destruct (tally_ballot_err_bad d bal e0 E) as [a [b [Hab Hm]]].
    exists bal, a, b. split; [left; reflexivity |]. auto.
Qed.

(** The tally over the first ballot's pairs raises KeyError exactly when a
    ballot ranks a pair [(a, c)] that is not a key: [a] or [c] is not a
    candidate of the first ballot, or [a = c]; it raises nothing else. *)
Lemma tally_key_error_iff (b0 : ballot) (r : list ballot) :
  (forall e, tally_ballots (pd_init b0) (b0 :: r) = Err e -> e = KeyError) /\
  (tally_ballots (pd_init b0) (b0 :: r) = Err KeyError <->
   exists bal a c, In bal (b0 :: r) /\ ordered_in bal a c /\ ~ (In a b0 /\ In c b0 /\ a <> c)).
Proof.
  split; [intros e H; exact (proj1 (tally_ballots_err_bad _ _ e H)) |]. split.
  - intros H. destruct (tally_ballots_err_bad _ _ _ H) as [_ [bal [a [c [Hin [Hac Hm]]]]]].
    exists bal, a, c. split; [exact Hin |]. split; [exact Hac |].
    rewrite <- pd_init_mem. congruence.
  - intros [bal [a [c [Hin [Hac Hn]]]]]. apply tally_ballots_bad.
    exists bal, a, c. split; [exact Hin |]. split; [exact Hac |].
    destruct (pd_mem (pd_init b0) a c) eqn:E; [| reflexivity].
    apply pd_init_mem in E. contradiction.
Qed.


(** *** Building well-formed BallotSets *)

Lemma NoDup_nodupb (l : list cand) : NoDup l -> nodupb l = true.
Proof.
  induction l as [| x r IH]; simpl; intros H; [reflexivity |].
  inversion H as [| ? ? Hx Hr]; subst.
  apply andb_true_iff. split; [apply negb_true_iff, memb_false; exact Hx | exact (IH Hr)].
Qed.

Lemma well_formed_intro (b0 : ballot) (r : list ballot) :
  (forall b, In b (b0 :: r) -> NoDup b /\ length b = length b0 /\ forall c, In c b -> In c b0) ->
  well_formedb (b0 :: r) = true.
Proof.
  intros H. unfold well_formedb. apply forallb_forall. intros b Hb.
  destruct (H b Hb) as [H1 [H2 H3]].
  rewrite (NoDup_nodupb b H1), H2, Nat.eqb_refl. simpl.
  apply forallb_forall. intros c Hc. apply memb_In. exact (H3 c Hc).
Qed.

(** X2: removing a candidate of a well-formed BallotSet gives a
    well-formed BallotSet: every ballot loses exactly that candidate, keeps
    all the others, and is one shorter than the first ballot was. *)
Lemma remove_wf (b0 : ballot) (r : list ballot) (x : cand) :
  well_formedb (b0 :: r) = true -> In x b0 ->
  well_formedb (remove_candidate (b0 :: r) x) = true /\
  forall b', In b' (remove_candidate (b0 :: r) x) ->
    length b' = length b0 - 1 /\ ~ In x b' /\ forall c, In c b' <-> In c b0 /\ c <> x.
Proof.
  intros Hwf Hx. destruct (well_formed_spec b0 r Hwf) as [Hnd0 Hb].
  set (f := fun c => negb (Nat.eqb c x)).
  assert (Hfilt : forall b, In b (b0 :: r) ->
            length (filter f b) = length b0 - 1 /\ NoDup (filter f b) /\
            forall c, In c (filter f b) <-> In c b0 /\ c <> x).
  { intros b Hin. destruct (Hb b Hin) as [Hnd [Hlen Hc]].
    split; [| split].
    - rewrite <- Hlen. apply filter_remove_length; [exact Hnd | apply Hc; exact Hx].
    - apply NoDup_filter. exact Hnd.
    - intros c. unfold f. rewrite filter_In, Hc, negb_true_iff, Nat.eqb_neq. tauto. }
  split.
  - unfold remove_candidate. cbn [map]. fold f. apply well_formed_intro.
    intros b' Hb'. rewrite <- map_cons in Hb'. apply in_map_iff in Hb' as [b [<- Hin]].
    destruct (Hfilt b Hin) as [L1 [N1 C1]]. destruct (Hfilt b0 (or_introl eq_refl)) as [L0 [_ C0]].
    split; [exact N1 |]. split; [etransitivity; [exact L1 | symmetry; exact L0] |].
    intros c Hc. apply C0, C1, Hc.
  - intros b' Hb'. unfold remove_candidate in Hb'. apply in_map_iff in Hb' as [b [<- Hin]].
    destruct (Hfilt b Hin) as [L1 [_ C1]]. fold f. split; [exact L1 |].
    split; [intros Hx'; apply C1 in Hx' as [_ E]; exact (E eq_refl) | exact C1].
Qed.

(** *** The monotonicity violation rate is a fraction *)

Lemma mono_loop_counts (system_func : nat -> M (option cand)) (rand : nat -> nat)
    (root : nat) (w : cand) (fuel : nat) :
  forall it violations h v it' h',
  mono_loop system_func rand root w it fuel violations h = (Ok (v, it'), h') ->
  violations <= v /\ v + it <= violations + it' /\ it' <= it + fuel.
Proof.
  induction fuel as [| fuel IH]; intros it violations h v it' h'; cbn [mono_loop];
    unfold ret, mbind.
  - intros H. injection H as <- <- _. lia.
  - destruct (mono_trial system_func root w (rand it) h) as [[[b |] | e] h1].
    + intros H. apply IH in H. destruct b; lia.
    + intros H. injection H as <- <- _. lia.
    + discriminate.
Qed.

Lemma rate_bounds (v : nat) (trials : Z) :
  (Z.of_nat v <= Z.max 1 trials)%Z ->
  (0 <= inject_Z (Z.of_nat v) / inject_Z (Z.max 1 trials) <= 1)%Q.
Proof.
  intros H.
  assert (Hpos : (0 < inject_Z (Z.max 1 trials))%Q).
  { change 0%Q with (inject_Z 0). rewrite <- Zlt_Qlt. lia. }
  split.
  - apply Qle_shift_div_l; [exact Hpos |]. rewrite Qmult_0_l.
    change 0%Q with (inject_Z 0). rewrite <- Zle_Qle. lia.
  - apply Qle_shift_div_r; [exact Hpos |]. rewrite Qmult_1_l. rewrite <- Zle_Qle. exact H.
Qed.

(** X12: whenever [monotonicity_violation_rate] returns, its value lies
    in [[0, 1]], and it is 0 when [trials <= 0]. *)
Lemma rate_range (system_func : nat -> M (option cand)) (ballots : nat) (trials : Z)
    (rand : nat -> nat) (h h' : heap) (q : Q) :
  monotonicity_violation_rate system_func ballots trials rand h = (Ok q, h') ->
  (0 <= q <= 1)%Q /\ ((trials <= 0)%Z -> q = 0%Q).
Proof.
  unfold monotonicity_violation_rate, mbind, getobj, ret.
  destruct (hobj h ballots) as [[| v0 vs] |]; [| | discriminate].
  - intros H. injection H as <- _. split; [split; discriminate | reflexivity].
  - destruct (system_func ballots h) as [[[w |] | e] h1]; [| | discriminate].
    + destruct (mono_loop system_func rand ballots w 0 (Z.to_nat trials) 0 h1)
        as [[[v it] | e] h2] eqn:Hl; [| discriminate].
      intros H. injection H as <- _. cbn [fst].
      apply mono_loop_counts in Hl as [_ [H1 H2]].
      split.
      * apply rate_bounds. lia.
      * intros Ht. replace v with 0 by lia. rewrite Z.max_l by lia. reflexivity.
    + intros H. injection H as <- _. split; [split; discriminate | reflexivity].
Qed.


(** *** The genetic algorithm keeps its weight vectors valid *)

Lemma insert_desc_perm (x : Z) (l : list Z) : Permutation (insert_desc x l) (x :: l).
Proof.
  induction l as [| y l IH]; simpl; [reflexivity |].
  destruct (Z.leb y x); [reflexivity |].
  rewrite IH. apply perm_swap.
Qed.

Lemma sort_desc_perm (l : list Z) : Permutation (sort_desc l) l.
Proof.
  induction l as [| x l IH]; simpl; [reflexivity |].
  rewrite insert_desc_perm, IH. reflexivity.
Qed.

Lemma nonincreasing_cons (y : Z) (l : list Z) :
  Forall (fun e => (e <= y)%Z) l -> nonincreasing l -> nonincreasing (y :: l).
Proof.
  destruct l as [| z l]; simpl; [auto |]. intros H1 H2. split; [| exact H2].
  apply Forall_inv in H1. exact H1.
Qed.

Lemma insert_desc_sorted (x : Z) (l : list Z) :
  nonincreasing l -> nonincreasing (insert_desc x l).
Proof.
  induction l as [| y l IH]; simpl; intros H; [exact I |].
  destruct (Z.leb y x) eqn:E.
  - apply Z.leb_le in E. split; [exact E | exact H].
  - apply Z.leb_gt in E. apply nonincreasing_cons.
    + assert (Hl : Forall (fun e => (e <= y)%Z) (x :: l)).
      { constructor; [lia |].
        clear IH. revert y E H. induction l as [| z l IHl]; intros y E H; [constructor |].
        destruct H as [Hzy H]. constructor; [exact Hzy |].
        assert (IH' := IHl z). destruct l as [| u l']; [constructor |].
        specialize (IHl y). apply IHl; [lia |]. destruct H as [Huz H]. simpl. split; [lia | exact H]. }
      apply Forall_forall. intros e He. apply (Permutation_in _ (insert_desc_perm x l)) in He.
      rewrite Forall_forall in Hl. exact (Hl e He).
    + apply IH. destruct l; [exact I | exact (proj2 H)].
Qed.

Lemma sort_desc_sorted (l : list Z) : nonincreasing (sort_desc l).
Proof. induction l as [| x l IH]; simpl; [exact I | apply insert_desc_sorted, IH]. Qed.

Lemma Forall_perm {A} (P : A -> Prop) (l l' : list A) :
  Permutation l l' -> Forall P l' -> Forall P l.
Proof.
  intros Hp H. rewrite Forall_forall in H |- *. intros x Hx. apply H.
  exact (Permutation_in _ Hp Hx).
Qed.

(** Sorting any list of [m] nonnegative weights gives a valid rule. *)
Lemma sort_desc_valid (m : nat) (l : list Z) :
  length l = m -> Forall (fun x => (0 <= x)%Z) l -> valid_rule m (sort_desc l).
Proof.
  intros Hl Hf. split; [| split].
  - rewrite (Permutation_length (sort_desc_perm l)). exact Hl.
  - exact (Forall_perm _ _ _ (sort_desc_perm l) Hf).
  - apply sort_desc_sorted.
Qed.

(** X17: [random_rule] returns [num_candidates] weights in [[0, max_weight]]
    in nonincreasing order, whatever values [random.randint] draws in
    that range. *)
Lemma random_rule_ok (num_candidates : nat) (max_weight : Z) (randint : nat -> Z) :
  (forall i, 0 <= randint i <= max_weight)%Z ->
  valid_rule num_candidates (random_rule num_candidates randint) /\
  Forall (fun x => (x <= max_weight)%Z) (random_rule num_candidates randint).
Proof.
  intros Hr. unfold random_rule. split.
  - apply sort_desc_valid; [rewrite length_map, length_seq; reflexivity |].
    apply Forall_forall. intros x Hx. apply in_map_iff in Hx as [i [<- _]]. apply Hr.
  - apply (Forall_perm _ _ _ (sort_desc_perm _)).
    apply Forall_forall. intros x Hx. apply in_map_iff in Hx as [i [<- _]]. apply Hr.
Qed.

Lemma mutate_from_ok (mutation_rate : Q) (max_step : Z) (u : nat -> Q) (pick : nat -> nat)
    (child : list Z) :
  forall i, Forall (fun x => (0 <= x)%Z) child ->
  length (mutate_from mutation_rate max_step u pick i child) = length child /\
  Forall (fun x => (0 <= x)%Z) (mutate_from mutation_rate max_step u pick i child).
Proof.
  induction child as [| x r IH]; intros i H; simpl; [split; [reflexivity | constructor] |].
  apply Forall_cons_iff in H as [Hx Hr]. destruct (IH (S i) Hr) as [H1 H2].
  split; [f_equal; exact H1 |]. constructor; [| exact H2].
  destruct (negb (Qle_bool mutation_rate (u i))); lia.
Qed.

Lemma mutate_rule_ok (m : nat) (rule : list Z) (mutation_rate : Q) (max_step : Z)
    (u : nat -> Q) (pick : nat -> nat) :
  length rule = m -> Forall (fun x => (0 <= x)%Z) rule ->
  valid_rule m (mutate_rule rule mutation_rate max_step u pick).
Proof.
  intros Hl Hf. unfold mutate_rule.
  destruct (mutate_from_ok mutation_rate max_step u pick rule 0 Hf) as [H1 H2].
  apply sort_desc_valid; [congruence | exact H2].
Qed.

Lemma crossover_ok (n : nat) (parent_a parent_b : list Z) (pt : nat) :
  length parent_a = n -> length parent_b = n -> pt <= n ->
  Forall (fun x => (0 <= x)%Z) parent_a -> Forall (fun x => (0 <= x)%Z) parent_b ->
  valid_rule n (crossover parent_a parent_b pt).
Proof.
  intros La Lb Hpt Fa Fb. unfold crossover. rewrite La.
  destruct (Nat.leb n 1) eqn:E.
  - apply Nat.leb_le in E. split; [exact La |]. split; [exact Fa |].
    destruct parent_a as [| x [| y r]]; simpl in La |- *; [exact I | exact I | lia].
  - apply sort_desc_valid.
    + rewrite length_app, length_firstn, length_skipn. lia.
    + apply Forall_app. split.
      * rewrite Forall_forall in Fa |- *. intros x Hx. apply Fa. rewrite <- (firstn_skipn pt parent_a). apply in_or_app. left. exact Hx.
      * rewrite Forall_forall in Fb |- *. intros x Hx. apply Fb. rewrite <- (firstn_skipn pt parent_b). apply in_or_app. right. exact Hx.
Qed.

Lemma valid_nonneg (m : nat) (w : list Z) : valid_rule m w -> Forall (fun x => (0 <= x)%Z) w.
Proof. intros [_ [H _]]. exact H. Qed.

Lemma reproduce_loop_ok (m : nat) (parents : list (list Z)) (population_size : nat)
    (mutation_rate : Q) (draws : nat -> ga_draws) (fuel : nat) :
  parents <> [] -> Forall (valid_rule m) parents -> (forall it, cut (draws it) <= m) ->
  forall new_pop, Forall (valid_rule m) new_pop ->
  Forall (valid_rule m)
    (reproduce_loop parents population_size mutation_rate draws fuel new_pop) /\
  (population_size - length new_pop <= fuel ->
   length (reproduce_loop parents population_size mutation_rate draws fuel new_pop) =
   Nat.max (length new_pop) population_size).
Proof.
  intros Hne Hp Hcut. induction fuel as [| fuel IH]; intros new_pop Hnew; simpl.
  - split; [exact Hnew | intros H; lia].
  - destruct (Nat.ltb (length new_pop) population_size) eqn:E.
    + apply Nat.ltb_lt in E.
      set (d := draws (length new_pop)).
      assert (Hpick : forall i, valid_rule m (nth (i mod length parents) parents [])).
      { intros i. rewrite Forall_forall in Hp. apply Hp. apply nth_In.
        apply Nat.mod_upper_bound. destruct parents; [congruence | discriminate]. }
      set (a := nth (choice_a d mod length parents) parents []).
      set (b := nth (choice_b d mod length parents) parents []).
      assert (Hc : valid_rule m (mutate_rule (crossover a b (cut d)) mutation_rate 2 (coins d) (steps d))).
      { destruct (Hpick (choice_a d)) as [La [Fa _]]. destruct (Hpick (choice_b d)) as [Lb [Fb _]].
        destruct (crossover_ok m a b (cut d) La Lb (Hcut _) Fa Fb) as [Lc [Fc _]].
        apply mutate_rule_ok; assumption. }
      destruct (IH (new_pop ++ [mutate_rule (crossover a b (cut d)) mutation_rate 2 (coins d) (steps d)]))
        as [H1 H2].
      { apply Forall_app. split; [exact Hnew | constructor; [exact Hc | constructor]]. }
      split; [exact H1 |]. intros Hf. rewrite H2; rewrite length_app; simpl; lia.
    + apply Nat.ltb_ge in E. split; [exact Hnew | intros _; lia].
Qed.

(** X20: when the parents are valid rules over [m] candidates, the
    reproduction loop of [evolve_rules] returns [population_size] rules (or
    the parents, if there are more of them), every one of them [m]
    nonnegative weights in nonincreasing order. *)
Lemma reproduce_ok (m : nat) (parents : list (list Z)) (population_size : nat)
    (mutation_rate : Q) (draws : nat -> ga_draws) :
  parents <> [] -> Forall (valid_rule m) parents -> (forall it, cut (draws it) <= m) ->
  Forall (valid_rule m) (reproduce parents population_size mutation_rate draws) /\
  length (reproduce parents population_size mutation_rate draws) =
    Nat.max (length parents) population_size.
Proof.
  intros Hne Hp Hcut. unfold reproduce.
  destruct (reproduce_loop_ok m parents population_size mutation_rate draws population_size
              Hne Hp Hcut parents Hp) as [H1 H2].
  split; [exact H1 | apply H2; lia].
Qed.

(** *** [generate_election] produces well-formed BallotSets *)

(** X21: when [random.sample] returns a permutation of the candidates,
    [generate_election] returns [num_voters] ballots, each a permutation of
    the candidates [1..num_candidates], forming a well-formed BallotSet. *)
Lemma generate_ok (sample : nat -> list cand -> list cand) (num_voters num_candidates : nat) :
  (forall v, Permutation (sample v (seq 1 num_candidates)) (seq 1 num_candidates)) ->
  well_formedb (generate_election sample num_voters num_candidates) = true /\
  length (generate_election sample num_voters num_candidates) = num_voters /\
  forall b, In b (generate_election sample num_voters num_candidates) ->
    Permutation b (seq 1 num_candidates).
Proof.
  intros Hs. unfold generate_election.
  assert (Hall : forall b, In b (map (fun v => sample v (seq 1 num_candidates)) (seq 0 num_voters)) ->
            Permutation b (seq 1 num_candidates)).
  { intros b Hb. apply in_map_iff in Hb as [v [<- _]]. apply Hs. }
  split; [| split; [rewrite length_map, length_seq; reflexivity | exact Hall]].
  destruct (map (fun v => sample v (seq 1 num_candidates)) (seq 0 num_voters)) as [| b0 r] eqn:E;
    [reflexivity |].
  assert (Hb0 : Permutation b0 (seq 1 num_candidates)) by (apply Hall; left; reflexivity).
  apply well_formed_intro. intros b Hb. specialize (Hall b Hb).
  split; [| split].
  - exact (Permutation_NoDup (Permutation_sym Hall) (seq_NoDup _ _)).
  - rewrite (Permutation_length Hall), (Permutation_length Hb0). reflexivity.
  - intros c Hc. apply (Permutation_in _ (Permutation_sym Hb0)).
    exact (Permutation_in _ Hall Hc).
Qed.


Lemma sort_desc_id (l : list Z) : nonincreasing l -> sort_desc l = l.
Proof.
  induction l as [| x r IH]; intros H; [reflexivity |].
  cbn [sort_desc fold_right]. fold (sort_desc r).
  rewrite IH by (destruct r; [exact I | exact (proj2 H)]).
  destruct r as [| y r]; [reflexivity |].
  simpl. destruct H as [Hyx _]. apply Z.leb_le in Hyx. rewrite Hyx. reflexivity.
Qed.

Lemma mutate_from_none (mutation_rate : Q) (max_step : Z) (u : nat -> Q) (pick : nat -> nat)
    (child : list Z) :
  (forall i, (mutation_rate <= u i)%Q) ->
  forall i, mutate_from mutation_rate max_step u pick i child = child.
Proof.
  intros Hu. induction child as [| x r IH]; intros i; [reflexivity |].
  simpl. rewrite (proj2 (Qle_bool_iff _ _) (Hu i)). simpl. f_equal. apply IH.
Qed.

Lemma remove_candidate_filter (bs : list ballot) (x : cand) :
  remove_candidate bs x = map (filter (fun c => negb (Nat.eqb c x))) bs.
Proof. reflexivity. Qed.

(** X1: [count_first_choices] raises IndexError when a ballot is empty;
    when every ballot is non-empty it returns a Counter whose keys are
    distinct, are exactly the candidates ranked first somewhere, map to the
    number of ballots ranking them first, and sum to the number of ballots. *)
Lemma count_first_choices_counter (bs : list ballot) :
  (In [] bs -> count_first_choices bs = Err IndexError) /\
  (Forall (fun b => b <> []) bs ->
   exists tally, count_first_choices bs = Ok tally /\
     NoDup (map fst tally) /\
     (forall k, In k (map fst tally) <-> 0 < first_count bs k) /\
     (forall k v, In (k, v) tally -> v = first_count bs k) /\
     sum_values tally = length bs).
Proof.
  split.
  - intros H. unfold count_first_choices. rewrite (first_choices_empty bs H). reflexivity.
  - exact (count_first_choices_spec bs).
Qed.

(** X4: a BallotSet holding an empty ballot makes [plurality_winner] and
    [irv_winner] raise IndexError ([ballot[0]] in [count_first_choices]). *)
Lemma empty_ballot_index_error (bs : list ballot) :
  In [] bs ->
  plurality_winner bs = Err IndexError /\ irv_winner bs = Err IndexError.
Proof.
  intros H.
  assert (Hc : count_first_choices bs = Err IndexError)
    by (unfold count_first_choices; rewrite (first_choices_empty bs H); reflexivity).
  split.
  - unfold plurality_winner. rewrite Hc. reflexivity.
  - unfold irv_winner. cbn [irv_loop]. unfold irv_round. rewrite Hc. reflexivity.
Qed.

(** X5: on a non-empty list of non-empty ballots [plurality_winner]
    returns a candidate ranked first on at least one ballot, and no
    candidate is ranked first on more ballots. *)
Lemma plurality_winner_max_count (bs : list ballot) :
  bs <> [] -> Forall (fun b => b <> []) bs ->
  exists w, plurality_winner bs = Ok (Some w) /\
    0 < first_count bs w /\ forall c, first_count bs c <= first_count bs w.
Proof.
  intros Hbs Hne.
  destruct (count_first_choices_spec bs Hne) as [t [Et [_ [Hkeys _]]]].
  assert (Hc : exists c, In c (map fst t)).
  { destruct bs as [| b r]; [congruence |].
    assert (Hb : b <> []) by (apply Forall_inv in Hne; exact Hne).
    destruct b as [| c b]; [congruence |].
    exists c. apply Hkeys. unfold first_count. simpl. rewrite Nat.eqb_refl. simpl. lia. }
  destruct Hc as [c Hc].
  destruct (max_key_nonempty Nat.ltb t) as [w Hw]; [intros ->; destruct Hc |].
  assert (Ew : plurality_winner bs = Ok (Some w))
    by (unfold plurality_winner; rewrite Et; cbn [bind]; rewrite Hw; reflexivity).
  exists w. split; [exact Ew | exact (plurality_max _ w Ew)].
Qed.

(** X6: a candidate ranked first on more than half of the (non-empty)
    ballots wins both the plurality count and IRV, the latter in the first
    round. *)
Lemma majority_winner (bs : list ballot) (c : cand) :
  Forall (fun b => b <> []) bs -> length bs < 2 * first_count bs c ->
  plurality_winner bs = Ok (Some c) /\ irv_winner bs = Ok (Some c).
Proof.
  intros Hne Hmaj. split.
  - exact (plurality_majority bs c Hne Hmaj).
  - unfold irv_winner. cbn [irv_loop]. rewrite (irv_round_majority bs c Hne Hmaj). reflexivity.
Qed.

(** X7: on a well-formed BallotSet, [borda_winner] raises IndexError on
    the empty BallotSet ([ballots[0]]) and ValueError when the ballots are
    empty lists (max of an empty dict); otherwise it returns a candidate of
    the first ballot with the highest Borda score, rank [j] scoring
    [m - j - 1]. *)
Lemma borda_winner_highest_score (ballots : list ballot) :
  well_formedb ballots = true ->
  (ballots = [] -> borda_winner ballots = Err IndexError) /\
  (ballots <> [] -> hd [] ballots = [] -> borda_winner ballots = Err ValueError) /\
  (hd [] ballots <> [] ->
   exists w, borda_winner ballots = Ok (Some w) /\ In w (hd [] ballots) /\
     forall c, In c (hd [] ballots) ->
       (total_points (fun j => Z.of_nat (length (hd [] ballots)) - Z.of_nat j - 1) ballots c <=
        total_points (fun j => Z.of_nat (length (hd [] ballots)) - Z.of_nat j - 1) ballots w)%Z).
Proof.
  intros Hwf. split; [intros ->; reflexivity |].
  destruct ballots as [| b0 r].
  { split; [intros H; congruence | intros H; exfalso; apply H; reflexivity]. }
  cbn [hd]. split.
  - intros _ E. destruct (borda_scores_wf b0 r Hwf) as [d [Ed [Kd _]]].
    subst b0. destruct d as [| kv d]; [| discriminate Kd].
    unfold borda_winner. rewrite Ed. reflexivity.
  - exact (borda_winner_max b0 r Hwf).
Qed.

(** X11: [pairwise_matrix] raises KeyError, and nothing else, exactly when
    some ballot ranks a pair [(a, c)] that is not a key of the matrix built
    from the first ballot; [find_condorcet_winner] and [ranked_pairs_winner]
    then raise KeyError as well. *)
Lemma pairwise_matrix_key_error (b0 : ballot) (r : list ballot) :
  (pairwise_matrix (b0 :: r) = Err KeyError <->
   exists bal a c, In bal (b0 :: r) /\ ordered_in bal a c /\ ~ (In a b0 /\ In c b0 /\ a <> c)) /\
  (forall e, pairwise_matrix (b0 :: r) = Err e ->
   e = KeyError /\ find_condorcet_winner (b0 :: r) = Err KeyError /\
   ranked_pairs_winner (b0 :: r) = Err KeyError).
Proof.
  destruct (tally_key_error_iff b0 r) as [Honly Hiff].
  change (pairwise_matrix (b0 :: r)) with (tally_ballots (pd_init b0) (b0 :: r)).
  split; [exact Hiff |]. intros e He. pose proof (Honly e He) as ->.
  split; [reflexivity | split].
  - unfold find_condorcet_winner, pairwise_matrix. rewrite He. reflexivity.
  - unfold ranked_pairs_winner, ranked_pairs_pairs. rewrite He. reflexivity.
Qed.

(** X18: when no draw of [random.random()] falls below the mutation rate,
    [mutate_rule] returns a nonincreasing rule unchanged. *)
Lemma mutate_rule_no_mutation (rule : list Z) (mutation_rate : Q) (max_step : Z)
    (u : nat -> Q) (pick : nat -> nat) :
  (forall i, (mutation_rate <= u i)%Q) -> nonincreasing rule ->
  mutate_rule rule mutation_rate max_step u pick = rule.
Proof.
  intros Hu Hs. unfold mutate_rule. rewrite mutate_from_none by exact Hu.
  apply sort_desc_id. exact Hs.
Qed.

(** X19: crossing a nonincreasing rule with itself returns it, whatever
    the cut point. *)
Lemma crossover_self (parent : list Z) (pt : nat) :
  nonincreasing parent -> crossover parent parent pt = parent.
Proof.
  intros Hs. unfold crossover. destruct (Nat.leb (length parent) 1); [reflexivity |].
  rewrite firstn_skipn. apply sort_desc_id. exact Hs.
Qed.

(** X3: removing two candidates gives the same ballots in either order,
    and removing a candidate twice is the same as removing it once. *)
Lemma remove_candidate_comm (bs : list ballot) (x y : cand) :
  remove_candidate (remove_candidate bs x) y = remove_candidate (remove_candidate bs y) x /\
  remove_candidate (remove_candidate bs x) x = remove_candidate bs x.
Proof.
  rewrite !remove_candidate_filter, !map_map. split; apply map_ext; intros b.
  - induction b as [| c b IH]; [reflexivity |]. simpl.
    destruct (Nat.eqb c x) eqn:Ex, (Nat.eqb c y) eqn:Ey; simpl;
      rewrite ?Ex, ?Ey; simpl; rewrite ?IH; reflexivity.
  - induction b as [| c b IH]; [reflexivity |]. simpl.
    destruct (Nat.eqb c x) eqn:Ex; simpl; rewrite ?Ex; simpl; rewrite ?IH; reflexivity.
Qed.


Lemma count_first_choices_counter_witness :
  In [] [[1]; []] /\ count_first_choices [[1]; []] = Err IndexError /\
  exists tally, count_first_choices [[1; 2]; [2; 1]; [1; 2]] = Ok tally /\ sum_values tally = 3.
Proof.
  split; [right; left; reflexivity |]. split.
  - apply (proj1 (count_first_choices_counter [[1]; []])). right; left; reflexivity.
  - destruct (proj2 (count_first_choices_counter [[1; 2]; [2; 1]; [1; 2]])
                ltac:(repeat constructor; discriminate)) as [t [E [_ [_ [_ S]]]]].
    exists t. split; [exact E | exact S].
Defined.

Lemma empty_ballot_index_error_witness :
  plurality_winner [[1; 2]; []] = Err IndexError /\ irv_winner [[1; 2]; []] = Err IndexError.
Proof. apply empty_ballot_index_error. right; left; reflexivity. Defined.

Lemma plurality_winner_max_count_witness :
  plurality_winner [[1; 2]; [2; 1]; [1; 2]] = Ok (Some 1) /\
  exists w, plurality_winner [[1; 2]; [2; 1]; [1; 2]] = Ok (Some w) /\
    0 < first_count [[1; 2]; [2; 1]; [1; 2]] w.
Proof.
  split; [vm_compute; reflexivity |].
  destruct (plurality_winner_max_count [[1; 2]; [2; 1]; [1; 2]] ltac:(discriminate)
              ltac:(repeat constructor; discriminate)) as [w [E [P _]]].
  exists w. split; [exact E | exact P].
Defined.

Lemma majority_winner_witness :
  plurality_winner [[1; 2]; [2; 1]; [1; 2]] = Ok (Some 1) /\
  irv_winner [[1; 2]; [2; 1]; [1; 2]] = Ok (Some 1).
Proof.
  apply majority_winner; [repeat constructor; discriminate |].
  apply Nat.ltb_lt. vm_compute. reflexivity.
Defined.

Lemma unanimous_top_witness :
  plurality_winner [[1; 2]; [1; 2]] = Ok (Some 1) /\ borda_winner [[1; 2]; [1; 2]] = Ok (Some 1) /\
  irv_winner [[1; 2]; [1; 2]] = Ok (Some 1) /\ ranked_pairs_winner [[1; 2]; [1; 2]] = Ok (Some 1).
Proof.
  apply unanimous_top; [vm_compute; reflexivity |].
  intros b Hb. destruct Hb as [<- | [<- | []]]; reflexivity.
Defined.

Lemma borda_winner_highest_score_witness :
  borda_winner [] = Err IndexError /\ borda_winner [[]; []] = Err ValueError /\
  exists w, borda_winner [[2; 1; 3]; [1; 3; 2]] = Ok (Some w) /\ In w [2; 1; 3].
Proof.
  split; [exact (proj1 (borda_winner_highest_score [] eq_refl) eq_refl) |].
  split.
  - exact (proj1 (proj2 (borda_winner_highest_score [[]; []] eq_refl))
             ltac:(discriminate) eq_refl).
  - destruct (proj2 (proj2 (borda_winner_highest_score [[2; 1; 3]; [1; 3; 2]]
                               ltac:(vm_compute; reflexivity)))
                ltac:(simpl; discriminate)) as [w [E [Hw _]]].
    exists w. split; [exact E | exact Hw].
Defined.

Lemma apply_rule_borda_eq_witness :
  (apply_rule [] [1%Z] = Ok None /\ borda_winner [] = Err IndexError) /\
  apply_rule [[1; 2; 3]; [3; 2; 1]; [2; 1; 3]] (borda_weights 3) =
    borda_winner [[1; 2; 3]; [3; 2; 1]; [2; 1; 3]] /\
  borda_winner [[1; 2; 3]; [3; 2; 1]; [2; 1; 3]] = Ok (Some 2).
Proof.
  split; [exact (proj1 (apply_rule_borda_eq [] eq_refl) eq_refl [1%Z]) |].
  split; [| vm_compute; reflexivity].
  apply (proj2 (apply_rule_borda_eq [[1; 2; 3]; [3; 2; 1]; [2; 1; 3]]
                  ltac:(vm_compute; reflexivity))).
  discriminate.
Defined.

Lemma apply_rule_key_error_witness :
  apply_rule [[1; 2]; [1; 3]] [1%Z; 0%Z] = Err KeyError.
Proof.
  apply apply_rule_key_error. exists [1; 3], 3.
  split; [right; left; reflexivity |]. split; [right; left; reflexivity |]. simpl. lia.
Defined.

Lemma apply_rule_winner_witness :
  apply_rule [[]; []] [1%Z] = Err ValueError /\
  exists w, apply_rule [[1; 2]; [2; 1]] [3%Z; 1%Z] = Ok (Some w) /\ In w [1; 2].
Proof.
  split.
  - apply (proj1 (apply_rule_winner [] [[]] [1%Z] ltac:(intros b c Hb Hc; destruct Hb as [<- | [<- | []]]; exact Hc))). reflexivity.
  - destruct (proj2 (apply_rule_winner [1; 2] [[2; 1]] [3%Z; 1%Z]
                       ltac:(intros b c Hb Hc; destruct Hb as [<- | [<- | []]]; simpl in Hc |- *; lia))
                ltac:(discriminate)) as [w [E [Hw _]]].
    exists w. split; [exact E | exact Hw].
Defined.

Lemma apply_rule_scale_eq_witness :
  apply_rule [[1; 2; 3]; [3; 2; 1]] (map (Z.mul 3) [2%Z; 1%Z; 0%Z]) =
    apply_rule [[1; 2; 3]; [3; 2; 1]] [2%Z; 1%Z; 0%Z].
Proof. apply apply_rule_scale_eq. lia. Defined.

Lemma condorcet_iff_witness :
  In 1 [1; 2; 3] /\
  forall x, In x [1; 2; 3] -> x <> 1 ->
    before_all [[1; 2; 3]; [1; 3; 2]; [2; 1; 3]] x 1 <
    before_all [[1; 2; 3]; [1; 3; 2]; [2; 1; 3]] 1 x.
Proof.
  apply (proj1 (condorcet_iff [1; 2; 3] [[1; 3; 2]; [2; 1; 3]] 1
                  ltac:(vm_compute; reflexivity) ltac:(simpl; lia))).
  vm_compute. reflexivity.
Defined.

Lemma condorcet_small_witness :
  find_condorcet_winner [[7]; [7]] = Ok None.
Proof. apply condorcet_small; [vm_compute; reflexivity | simpl; lia]. Defined.

Lemma pairwise_matrix_key_error_witness :
  pairwise_matrix [[1; 2]; [1; 3]] = Err KeyError /\
  find_condorcet_winner [[1; 2]; [1; 3]] = Err KeyError /\
  ranked_pairs_winner [[1; 2]; [1; 3]] = Err KeyError.
Proof.
  destruct (pairwise_matrix_key_error [1; 2] [[1; 3]]) as [Hiff Hprop].
  assert (He : pairwise_matrix [[1; 2]; [1; 3]] = Err KeyError).
  { apply Hiff. exists [1; 3], 1, 3. split; [right; left; reflexivity |].
    split; [exists [], [3]; split; [reflexivity | left; reflexivity] |]. simpl. lia. }
  split; [exact He |]. exact (proj2 (Hprop KeyError He)).
Defined.

Lemma remove_wf_witness :
  well_formedb (remove_candidate [[1; 2; 3]; [3; 2; 1]] 2) = true /\
  remove_candidate [[1; 2; 3]; [3; 2; 1]] 2 = [[1; 3]; [3; 1]].
Proof.
  split; [| reflexivity].
  apply (remove_wf [1; 2; 3] [[3; 2; 1]] 2); [vm_compute; reflexivity | right; left; reflexivity].
Defined.

Lemma rate_range_witness :
  (0 <= inject_Z 0 / inject_Z 4 <= 1)%Q.
Proof.
  apply (rate_range plurality_winner_h 0 4 (fun _ => 0) unanimous_heap
           (snd (monotonicity_violation_rate plurality_winner_h 0 4 (fun _ => 0) unanimous_heap))
           (inject_Z 0 / inject_Z 4)%Q).
  vm_compute. reflexivity.
Defined.

Lemma random_rule_ok_witness :
  valid_rule 3 (random_rule 3 (fun i => Z.of_nat (i * 4 mod 11))) /\
  random_rule 3 (fun i => Z.of_nat (i * 4 mod 11)) = [8%Z; 4%Z; 0%Z].
Proof.
  split; [| vm_compute; reflexivity].
  apply (random_rule_ok 3 10). intros i.
  pose proof (Nat.mod_upper_bound (i * 4) 11 ltac:(lia)). lia.
Defined.

Lemma reproduce_ok_witness :
  Forall (valid_rule 2) (reproduce [[3%Z; 1%Z]; [2%Z; 2%Z]] 4 (3 # 10) (fun it => {| choice_a := it; choice_b := S it; cut := 1;
     coins := fun i => inject_Z (Z.of_nat (i mod 2)); steps := fun i => i + it |})) /\
  length (reproduce [[3%Z; 1%Z]; [2%Z; 2%Z]] 4 (3 # 10) (fun it => {| choice_a := it; choice_b := S it; cut := 1;
     coins := fun i => inject_Z (Z.of_nat (i mod 2)); steps := fun i => i + it |})) = 4.
Proof.
  apply (reproduce_ok 2); [discriminate | | intros it; simpl; lia].
  repeat constructor; simpl; lia.
Defined.

Lemma generate_ok_witness :
  well_formedb (generate_election (fun v cs => if Nat.even v then cs else rev cs) 3 4) = true /\
  generate_election (fun v cs => if Nat.even v then cs else rev cs) 3 4 =
    [[1; 2; 3; 4]; [4; 3; 2; 1]; [1; 2; 3; 4]].
Proof.
  split; [| reflexivity].
  apply (generate_ok (fun v cs => if Nat.even v then cs else rev cs) 3 4).
  intros v. destruct (Nat.even v); [reflexivity | apply Permutation_sym, Permutation_rev].
Defined.

Lemma mutate_rule_no_mutation_witness :
  mutate_rule [5%Z; 3%Z; 3%Z] (3 # 10) 2 (fun _ => 1 # 2) (fun i => i) = [5%Z; 3%Z; 3%Z].
Proof.
  apply mutate_rule_no_mutation; [intros _; apply Qle_bool_iff; reflexivity | simpl; lia].
Defined.

Lemma crossover_self_witness :
  crossover [4%Z; 2%Z; 1%Z] [4%Z; 2%Z; 1%Z] 1 = [4%Z; 2%Z; 1%Z].
Proof. apply crossover_self. simpl. lia. Defined.

(** ** Claim C6 *)

(** C6 (amended): on a non-empty well-formed BallotSet over [m >= 1]
    candidates, every round of IRV either returns a candidate whose
    first-choice count exceeds half the votes, or eliminates exactly one
    candidate from every ballot and then either returns the sole remaining
    candidate (every ballot now being that one candidate) or continues on
    ballots ranking one candidate fewer, and at least two; the loop returns
    a candidate of the universe within [max 1 (m - 1)] rounds, and
    [irv_winner] returns it. *)
Theorem irv_winner_terminates (ballots : list ballot) :
  well_formedb ballots = true -> ballots <> [] -> 1 <= length (hd [] ballots) ->
  (forall U bs, NoDup U -> bs <> [] -> U <> [] -> Forall (fun b => Permutation b U) bs ->
     (exists c, In c U /\ length bs < 2 * first_count bs c /\
        irv_round bs = Ok (inl (Some c))) \/
     (exists x c, In x U /\ filter (fun c => negb (Nat.eqb c x)) U = [c] /\
        Forall (fun b => b = [c]) (remove_candidate bs x) /\
        irv_round bs = Ok (inl (Some c))) \/
     (exists x, In x U /\ irv_round bs = Ok (inr (remove_candidate bs x)) /\
        2 <= length U - 1 /\
        length (filter (fun c => negb (Nat.eqb c x)) U) = length U - 1 /\
        Forall (fun b => Permutation b (filter (fun c => negb (Nat.eqb c x)) U))
          (remove_candidate bs x))) /\
  exists c, In c (hd [] ballots) /\
    irv_loop (Nat.max 1 (length (hd [] ballots) - 1)) ballots = Some (Ok (Some c)) /\
    irv_winner ballots = Ok (Some c).
Proof.
  intros Hwf Hne Hm. split; [exact irv_round_cases |].
  destruct ballots as [| b0 r]; [congruence |]. simpl in Hm |- *.
  destruct (well_formed_spec b0 r Hwf) as [Hnd Hall].
  assert (Hperm : Forall (fun b => Permutation b b0) (b0 :: r)).
  { apply Forall_forall. intros b Hb. destruct (Hall b Hb) as [Hndb [_ Hin]].
    apply NoDup_Permutation; assumption. }
  destruct (irv_loop_wf (length b0) b0 (b0 :: r) ltac:(lia) Hnd ltac:(discriminate)
              ltac:(destruct b0; simpl in Hm; [lia | discriminate]) Hperm) as [c [Hc Hloop]].
  exists c. split; [exact Hc |]. split; [exact Hloop |].
  unfold irv_winner.
  assert (Htl : length b0 <= total_len (b0 :: r)) by (simpl; lia).
  replace (S (total_len (b0 :: r)))
    with (Nat.max 1 (length b0 - 1) + (S (total_len (b0 :: r)) - Nat.max 1 (length b0 - 1)))
    by lia.
  rewrite (irv_loop_more _ _ _ _ Hloop). reflexivity.
Qed.

Lemma irv_winner_terminates_witness :
  well_formedb [[0; 1; 2]; [1; 0; 2]; [2; 1; 0]] = true /\
  irv_winner [[0; 1; 2]; [1; 0; 2]; [2; 1; 0]] = Ok (Some 1).
Proof.
  split; [reflexivity |].
  destruct (irv_winner_terminates [[0; 1; 2]; [1; 0; 2]; [2; 1; 0]]
              eq_refl ltac:(discriminate) ltac:(simpl; lia)) as [_ [c [_ [Hl Hw]]]].
  rewrite Hw. vm_compute in Hl. injection Hl as <-. reflexivity.
Defined.

(** C6 (counterexample): with a single candidate ([m = 1]) the loop still
    runs one round, a majority round; it does not finish within
    [m - 1 = 0] rounds. *)
Lemma irv_single_candidate_one_round :
  well_formedb [[0]; [0]] = true /\
  length [0] - 1 = 0 /\
  irv_loop 0 [[0]; [0]] = None /\
  irv_loop 1 [[0]; [0]] = Some (Ok (Some 0)).
Proof. repeat split; vm_compute; reflexivity. Qed.
